(** * Predicated tile access iterator (CUTLASS)

    A shallow embedding of
    [include/cutlass/transform/threadblock/predicated_tile_access_iterator.h]:
    the predicate state, the pitch-linear iterator and its row-major and
    interleaved adapters, followed by the properties proved about them.

    Conventions.
    - A C++ [int] or [int64_t] is a [Z]; signed overflow is undefined in C++,
      so the arithmetic is the mathematical one.  [/] and [%] on [int] are
      [Z.quot] and [Z.rem] (truncation toward zero).
    - A [uint32_t] predicate word is a [Z] reduced modulo [2^32] after every
      operation that could leave the range.
    - A fixed-size C++ array is a [list Z]; an index outside the array is
      undefined in C++, the model reads [0] there and ignores the write.
    - A byte pointer is its address, a [Z]; [get] returns [None] for
      [nullptr] and [Some a] for a computed address [a]. *)

From Stdlib Require Import ZArith Lia Bool List.
From stdpp Require Import base list.

Local Open Scope Z_scope.

(* ------------------------------------------------------------------------- *)
(** ** Coordinates *)

(** [layout::PitchLinearCoord]: index 0 is the contiguous axis, index 1 the
    strided axis. *)
Record PitchLinearCoord : Type := make_Coord {
  contiguous : Z;
  strided : Z
}.

(** [Coord::operator+] *)
Definition coord_add (a b : PitchLinearCoord) : PitchLinearCoord :=
  make_Coord (contiguous a + contiguous b) (strided a + strided b).

(** [Coord::operator[]]; only ranks 0 and 1 exist (the iterator asserts
    [AdvanceRank == 0 || AdvanceRank == 1] statically). *)
Definition coord_at (a : PitchLinearCoord) (i : Z) : Z :=
  if i =? 0 then contiguous a else if i =? 1 then strided a else 0.

(** [MatrixCoord]: index 0 is the row, index 1 the column. *)
Record MatrixCoord : Type := make_MatrixCoord {
  row : Z;
  column : Z
}.

(* ------------------------------------------------------------------------- *)
(** ** Template parameters *)

(** The [ThreadMap] template argument, as far as the iterator reads it.
    [Iterations] and [Delta] are pitch-linear shapes. *)
Record ThreadMapT : Type := {
  kElementsPerAccess : Z;
  Iterations_kContiguous : Z;
  Iterations_kStrided : Z;
  Delta_kContiguous : Z;
  Delta_kStrided : Z;
  initial_offset : Z -> PitchLinearCoord
}.

(** All template arguments of one instantiation.  [sizeof_AccessType] is
    [sizeof(AccessType)], [OffsetBytes] is [OffsetBytes<Element>] and
    [permute_layout] builds the [PermuteLayout] functor from the extent and
    the stride; their declarations are outside this header, so they are
    taken as parameters. *)
Record Config : Type := {
  Shape_kContiguous : Z;
  Shape_kStrided : Z;
  kAdvanceRank : Z;
  ThreadMap : ThreadMapT;
  AccessType_kElements : Z;
  sizeof_bits_Element : Z;
  sizeof_AccessType : Z;
  OffsetBytes : Z -> Z;
  Gather : bool;
  Permute : bool;
  permute_layout : PitchLinearCoord -> Z -> PitchLinearCoord -> Z
}.

(** [PredicatedTileAccessIteratorParams]: the four fields the iterator
    reads.  The struct is declared in
    [predicated_tile_access_iterator_params.h]. *)
Record Params : Type := {
  stride_ : Z;
  inc_strided_ : Z;
  inc_next_ : Z;
  inc_advance_ : Z
}.

(* ------------------------------------------------------------------------- *)
(** ** Loops, arrays and words *)

(** [for (int i = 0; i < n; ++i) body(i)] *)
Fixpoint for_upto {S : Type} (n : nat) (body : Z -> S -> S) (s : S) : S :=
  match n with
  | O => s
  | Datatypes.S k => body (Z.of_nat k) (for_upto k body s)
  end.

Definition for_loop {S : Type} (n : Z) (body : Z -> S -> S) (s : S) : S :=
  for_upto (Z.to_nat n) body s.

Definition array_get (a : list Z) (i : Z) : Z :=
  if 0 <=? i then default 0 (a !! Z.to_nat i) else 0.

Definition array_set (a : list Z) (i : Z) (x : Z) : list Z :=
  if 0 <=? i then <[Z.to_nat i := x]> a else a.

Definition u32 (x : Z) : Z := x mod 2 ^ 32.

(* ------------------------------------------------------------------------- *)
(** ** PredicatedTileAccessIteratorPredicates *)

Record Predicates : Type := {
  predicates_ : list Z;
  extent_ : PitchLinearCoord;
  thread_offset_ : PitchLinearCoord;
  residue_offset_ : PitchLinearCoord;
  iteration_vector_ : Z;
  iteration_contiguous_ : Z;
  iteration_strided_ : Z;
(** Instrumentation, not a field of the class: the number of calls of
    [compute_predicates_] made on this object so far. *)
  compute_predicates_calls : nat
}.

Definition with_predicates (w : list Z) (p : Predicates) : Predicates :=
  {| predicates_ := w;
     extent_ := extent_ p;
     thread_offset_ := thread_offset_ p;
     residue_offset_ := residue_offset_ p;
     iteration_vector_ := iteration_vector_ p;
     iteration_contiguous_ := iteration_contiguous_ p;
     iteration_strided_ := iteration_strided_ p;
     compute_predicates_calls := compute_predicates_calls p |}.

Definition with_cursor (v c s : Z) (p : Predicates) : Predicates :=
  {| predicates_ := predicates_ p;
     extent_ := extent_ p;
     thread_offset_ := thread_offset_ p;
     residue_offset_ := residue_offset_ p;
     iteration_vector_ := v;
     iteration_contiguous_ := c;
     iteration_strided_ := s;
     compute_predicates_calls := compute_predicates_calls p |}.

Definition with_thread_offset (t : PitchLinearCoord) (p : Predicates)
  : Predicates :=
  {| predicates_ := predicates_ p;
     extent_ := extent_ p;
     thread_offset_ := t;
     residue_offset_ := residue_offset_ p;
     iteration_vector_ := iteration_vector_ p;
     iteration_contiguous_ := iteration_contiguous_ p;
     iteration_strided_ := iteration_strided_ p;
     compute_predicates_calls := compute_predicates_calls p |}.

Definition with_residue_offset (r : PitchLinearCoord) (p : Predicates)
  : Predicates :=
  {| predicates_ := predicates_ p;
     extent_ := extent_ p;
     thread_offset_ := thread_offset_ p;
     residue_offset_ := r;
     iteration_vector_ := iteration_vector_ p;
     iteration_contiguous_ := iteration_contiguous_ p;
     iteration_strided_ := iteration_strided_ p;
     compute_predicates_calls := compute_predicates_calls p |}.

Definition count_recomputation (p : Predicates) : Predicates :=
  {| predicates_ := predicates_ p;
     extent_ := extent_ p;
     thread_offset_ := thread_offset_ p;
     residue_offset_ := residue_offset_ p;
     iteration_vector_ := iteration_vector_ p;
     iteration_contiguous_ := iteration_contiguous_ p;
     iteration_strided_ := iteration_strided_ p;
     compute_predicates_calls := Datatypes.S (compute_predicates_calls p) |}.

Definition kPredicatesPerByte : Z := 4.
Definition kPredicatesPerWord : Z := 4 * kPredicatesPerByte.

Module UnderlyingPredicates.
Section PredicatesOps.

Variable cfg : Config.

Let tm := ThreadMap cfg.

Definition kAccessesPerVector : Z :=
    Z.quot (kElementsPerAccess tm) (AccessType_kElements cfg).

(** [ThreadMap::Iterations::kCount], the product of the two extents of the
    shape. *)
Definition Iterations_kCount : Z :=
    Iterations_kContiguous tm * Iterations_kStrided tm.

Definition kPredicateCount : Z := Iterations_kCount * kAccessesPerVector.

Definition kPredicateByteCount : Z :=
    Z.quot (kPredicateCount + kPredicatesPerByte - 1) kPredicatesPerByte.

Definition kPredicateWordCount : Z := Z.quot (kPredicateByteCount + 3) 4.

(** The (contiguous, strided) coordinate of the access with cursor
    [(v, c, s)]: the thread offset plus the iteration delta, lines 155-158. *)
Definition access_coord (thread_offset : PitchLinearCoord) (v c s : Z)
    : PitchLinearCoord :=
    let iteration_coord :=
      make_Coord (c * Delta_kContiguous tm + v * AccessType_kElements cfg)
                 (s * Delta_kStrided tm) in
    coord_add thread_offset iteration_coord.

(** The [guard] of lines 160-171. *)
Definition guard_of (coord extent : PitchLinearCoord)
             (is_steady_state : bool) : bool :=
    if is_steady_state then
      if kAdvanceRank cfg =? 0 then strided coord <? strided extent
      else contiguous coord <? contiguous extent
    else
      (strided coord <? strided extent)
      && (contiguous coord <? contiguous extent).

(** Bit position inside a word of the predicate with index [pred_idx]. *)
Definition pred_word_idx (pred_idx : Z) : Z :=
    Z.quot pred_idx kPredicatesPerWord.

Definition pred_bit_pos (pred_idx : Z) : Z :=
    let residual := Z.rem pred_idx kPredicatesPerWord in
    let byte_idx := Z.quot residual kPredicatesPerByte in
    let bit_idx := Z.rem residual kPredicatesPerByte in
    byte_idx * 8 + bit_idx.

(** One iteration of the second loop of [compute_predicates_]. *)
Definition compute_predicates_body (thread_offset extent : PitchLinearCoord)
             (is_steady_state : bool) (access_idx : Z) (preds : list Z)
    : list Z :=
    let s :=
      Z.quot access_idx (Iterations_kContiguous tm * kAccessesPerVector) in
    let access_residual :=
      Z.rem access_idx (Iterations_kContiguous tm * kAccessesPerVector) in
    let c := Z.quot access_residual kAccessesPerVector in
    let v := Z.rem access_residual kAccessesPerVector in
    let coord := access_coord thread_offset v c s in
    let guard := guard_of coord extent is_steady_state in
    let pred_idx :=
      v + kAccessesPerVector * (c + Iterations_kContiguous tm * s) in
    let word_idx := pred_word_idx pred_idx in
    array_set preds word_idx
      (u32 (Z.lor (array_get preds word_idx)
                  (u32 (Z.shiftl (Z.b2z guard) (pred_bit_pos pred_idx))))).

Definition compute_predicates_ (extent : PitchLinearCoord)
             (is_steady_state : bool) (p : Predicates) : Predicates :=
    let zeroed :=
      for_loop kPredicateWordCount (fun i a => array_set a i 0)
               (predicates_ p) in
    let filled :=
      for_loop (Iterations_kCount * kAccessesPerVector)
               (compute_predicates_body (thread_offset_ p) extent
                                        is_steady_state)
               zeroed in
    count_recomputation (with_predicates filled p).

Definition set_iteration_index (index : Z) (p : Predicates) : Predicates :=
    let iteration_vector := Z.rem index kAccessesPerVector in
    let residual_access := Z.quot index kAccessesPerVector in
    with_cursor iteration_vector
                (Z.rem residual_access (Iterations_kContiguous tm))
                (Z.quot residual_access (Iterations_kContiguous tm))
                p.

(** The residue size and the window of the first tile, lines 189-215. *)
Definition residue_size_of (extent threadblock_offset : PitchLinearCoord)
    : Z :=
    if negb (kAdvanceRank cfg =? 0) then
      let r := Z.rem (coord_at extent (kAdvanceRank cfg)
                      - strided threadblock_offset) (Shape_kStrided cfg) in
      if r =? 0 then Shape_kStrided cfg else r
    else
      let r := Z.rem (coord_at extent (kAdvanceRank cfg)
                      - contiguous threadblock_offset)
                     (Shape_kContiguous cfg) in
      if r =? 0 then Shape_kContiguous cfg else r.

Definition residue_offset_of (extent threadblock_offset : PitchLinearCoord)
    : PitchLinearCoord :=
    let residue_size := residue_size_of extent threadblock_offset in
    if negb (kAdvanceRank cfg =? 0) then make_Coord 0 residue_size
    else make_Coord residue_size 0.

Definition residue_extent_of (extent threadblock_offset : PitchLinearCoord)
    : PitchLinearCoord :=
    let residue_size := residue_size_of extent threadblock_offset in
    if negb (kAdvanceRank cfg =? 0) then
      make_Coord (contiguous extent)
                 (Z.min (strided threadblock_offset + residue_size)
                        (strided extent))
    else
      make_Coord (Z.min (contiguous extent)
                        (contiguous threadblock_offset + residue_size))
                 (strided extent).

Definition set_predicates (thread_id : Z)
             (threadblock_offset : PitchLinearCoord) (p : Predicates)
    : Predicates :=
    let residue_extent := residue_extent_of (extent_ p) threadblock_offset in
    let p1 :=
      with_residue_offset (residue_offset_of (extent_ p) threadblock_offset)
                          p in
    let p2 :=
      with_thread_offset
        (coord_add threadblock_offset (initial_offset tm thread_id)) p1 in
    let p3 := compute_predicates_ residue_extent false p2 in
    set_iteration_index 0 p3.

(** The constructor taking the extent.  The members it leaves
    uninitialised are zero here; the array has its static length.
    [set_predicates] overwrites every one of them before it is read. *)
Definition Predicates_ctor (extent : PitchLinearCoord) : Predicates :=
    {| predicates_ := replicate (Z.to_nat kPredicateWordCount) 0;
       extent_ := extent;
       thread_offset_ := make_Coord 0 0;
       residue_offset_ := make_Coord 0 0;
       iteration_vector_ := 0;
       iteration_contiguous_ := 0;
       iteration_strided_ := 0;
       compute_predicates_calls := O |}.

Definition clear_mask (enable : bool) (p : Predicates) : Predicates :=
    with_predicates
      (for_loop kPredicateWordCount
                (fun i a => array_set a i (if enable then 0 else array_get a i))
                (predicates_ p))
      p.

Definition enable_mask (p : Predicates) : Predicates :=
    with_predicates
      (for_loop kPredicateWordCount
                (fun i a => array_set a i 4294967295)
                (predicates_ p))
      p.

Definition set_mask (mask : list Z) (p : Predicates) : Predicates :=
    with_predicates
      (for_loop kPredicateWordCount
                (fun i a => array_set a i (array_get mask i))
                (predicates_ p))
      p.

(** [get_mask] writes into the caller's [mask]; the model returns the
    updated array. *)
Definition get_mask (mask : list Z) (p : Predicates) : list Z :=
    for_loop kPredicateWordCount
             (fun i a => array_set a i (array_get (predicates_ p) i))
             mask.

(** [operator++] of the predicate state does nothing. *)
Definition incr (p : Predicates) : Predicates := p.

Definition pred_idx_of (v c s : Z) : Z :=
    v + kAccessesPerVector * (c + s * Iterations_kContiguous tm).

Definition valid (p : Predicates) : bool :=
    let pred_idx :=
      pred_idx_of (iteration_vector_ p) (iteration_contiguous_ p)
                  (iteration_strided_ p) in
    let word_idx := pred_word_idx pred_idx in
    negb (Z.land (array_get (predicates_ p) word_idx)
                 (u32 (Z.shiftl 1 (pred_bit_pos pred_idx))) =? 0).

End PredicatesOps.
End UnderlyingPredicates.

(* ------------------------------------------------------------------------- *)
(** ** PredicatedTileAccessIterator, pitch-linear specialization *)

(** [layout::PitchLinear::operator()], declared in
    [cutlass/layout/pitch_linear.h]: the offset, in elements, of a
    coordinate.  [get] writes the same map out on its gather path
    ([coord_strided * stride_ + coord_contig]). *)
Definition PitchLinear_offset (stride : Z) (coord : PitchLinearCoord) : Z :=
  contiguous coord + strided coord * stride.

Record Iterator : Type := {
  the_predicates : Predicates;
  params_ : Params;
  pointer_ : Z;
  is_residue_tile_ : bool;
  indices_ : Z -> Z;
  permute_layout_ : PitchLinearCoord -> Z;
  coord_offset_ : PitchLinearCoord
}.

Definition with_the_predicates (p : Predicates) (it : Iterator) : Iterator :=
  {| the_predicates := p;
     params_ := params_ it;
     pointer_ := pointer_ it;
     is_residue_tile_ := is_residue_tile_ it;
     indices_ := indices_ it;
     permute_layout_ := permute_layout_ it;
     coord_offset_ := coord_offset_ it |}.

Definition with_pointer (a : Z) (it : Iterator) : Iterator :=
  {| the_predicates := the_predicates it;
     params_ := params_ it;
     pointer_ := a;
     is_residue_tile_ := is_residue_tile_ it;
     indices_ := indices_ it;
     permute_layout_ := permute_layout_ it;
     coord_offset_ := coord_offset_ it |}.

Definition with_coord_offset (c : PitchLinearCoord) (it : Iterator)
  : Iterator :=
  {| the_predicates := the_predicates it;
     params_ := params_ it;
     pointer_ := pointer_ it;
     is_residue_tile_ := is_residue_tile_ it;
     indices_ := indices_ it;
     permute_layout_ := permute_layout_ it;
     coord_offset_ := c |}.

Definition with_is_residue_tile (b : bool) (it : Iterator) : Iterator :=
  {| the_predicates := the_predicates it;
     params_ := params_ it;
     pointer_ := pointer_ it;
     is_residue_tile_ := b;
     indices_ := indices_ it;
     permute_layout_ := permute_layout_ it;
     coord_offset_ := coord_offset_ it |}.

Module PitchLinear.
Section IteratorOps.

Variable cfg : Config.

Let tm := ThreadMap cfg.

(** [pointer_ += n] on the byte pointer. *)
Definition advance_pointer (n : Z) (it : Iterator) : Iterator :=
    with_pointer (pointer_ it + n) it.

Definition add_pointer_offset (pointer_offset : Z) (it : Iterator)
    : Iterator :=
    advance_pointer (Z.quot (sizeof_bits_Element cfg * pointer_offset) 8) it.

Definition kAccessesPerVector : Z :=
    Z.quot (kElementsPerAccess tm) (AccessType_kElements cfg).

(** [!Gather && !Permute] *)
Definition fast_path : bool := negb (Gather cfg) && negb (Permute cfg).

(** The constructor.  [coord_offset_] is left uninitialised on the fast
    path; it is zero here. *)
Definition ctor (params : Params) (pointer : Z) (extent : PitchLinearCoord)
             (thread_id : Z) (threadblock_offset : PitchLinearCoord)
             (indices : Z -> Z) : Iterator :=
    let it0 :=
      {| the_predicates :=
           UnderlyingPredicates.set_predicates
             cfg thread_id threadblock_offset
             (UnderlyingPredicates.Predicates_ctor cfg extent);
         params_ := params;
         pointer_ := pointer;
         is_residue_tile_ := true;
         indices_ := indices;
         permute_layout_ :=
           permute_layout cfg
                          (make_Coord (contiguous extent) (strided extent))
                          (stride_ params);
         coord_offset_ := make_Coord 0 0 |} in
    if fast_path then
      add_pointer_offset
        (PitchLinear_offset (stride_ params)
                            (thread_offset_ (the_predicates it0)))
        it0
    else
      let it1 :=
        with_coord_offset (thread_offset_ (the_predicates it0)) it0 in
      if negb (Permute cfg) then
        add_pointer_offset
          (PitchLinear_offset (stride_ params)
                              (make_Coord (contiguous (coord_offset_ it1)) 0))
          it1
      else it1.

(** The constructor with zero threadblock offset. *)
Definition ctor0 (params : Params) (pointer : Z) (extent : PitchLinearCoord)
             (thread_id : Z) : Iterator :=
    ctor params pointer extent thread_id (make_Coord 0 0) (fun _ => 0).

Definition set_iteration_index (index : Z) (it : Iterator) : Iterator :=
    with_the_predicates
      (UnderlyingPredicates.set_iteration_index cfg index (the_predicates it))
      it.

Definition map_predicates (f : Predicates -> Predicates) (it : Iterator)
    : Iterator :=
    with_the_predicates (f (the_predicates it)) it.

(** [add_tile_offset], first branch: the iterator is still on its residue
    tile. *)
Definition add_tile_offset_residue (tile_offset : PitchLinearCoord)
             (it : Iterator) : Iterator :=
    let p0 := the_predicates it in
    let p1 :=
      with_thread_offset (coord_add (thread_offset_ p0) (residue_offset_ p0))
                         p0 in
    let p2 := UnderlyingPredicates.compute_predicates_ cfg (extent_ p1) true p1 in
    let it2 := with_the_predicates p2 it in
    let stride := stride_ (params_ it) in
    if fast_path then
      let it3 :=
        add_pointer_offset (PitchLinear_offset stride (residue_offset_ p2))
                           it2 in
      if negb (kAdvanceRank cfg =? 0) then
        advance_pointer
          (Z.quot (Shape_kContiguous cfg * contiguous tile_offset
                   * sizeof_bits_Element cfg) 8)
          (advance_pointer
             (inc_advance_ (params_ it) * (strided tile_offset - 1)) it3)
      else
        advance_pointer
          (Z.quot (Shape_kStrided cfg * strided tile_offset
                   * sizeof_bits_Element cfg) 8)
          (advance_pointer
             (inc_advance_ (params_ it) * (contiguous tile_offset - 1)) it3)
    else
      let it3 :=
        with_coord_offset
          (make_Coord (contiguous (coord_offset_ it2))
                      (strided (thread_offset_ p2)
                       + Shape_kStrided cfg
                         * (strided tile_offset - kAdvanceRank cfg)))
          it2 in
      if negb (Permute cfg) then
        add_pointer_offset
          (Shape_kContiguous cfg
           * (contiguous tile_offset - (1 - kAdvanceRank cfg)))
          (add_pointer_offset
             (PitchLinear_offset
                stride (make_Coord (contiguous (residue_offset_ p2)) 0))
             it3)
      else
        with_coord_offset
          (make_Coord (contiguous (thread_offset_ p2)
                       + Shape_kContiguous cfg
                         * (contiguous tile_offset - (1 - kAdvanceRank cfg)))
                      (strided (coord_offset_ it3)))
          it3.

(** [add_tile_offset], second branch: every later call. *)
Definition add_tile_offset_steady (tile_offset : PitchLinearCoord)
             (it : Iterator) : Iterator :=
    if fast_path then
      if negb (kAdvanceRank cfg =? 0) then
        advance_pointer
          (Shape_kContiguous cfg * contiguous tile_offset)
          (advance_pointer (inc_advance_ (params_ it) * strided tile_offset)
                           it)
      else
        advance_pointer
          (Shape_kStrided cfg * strided tile_offset)
          (advance_pointer
             (inc_advance_ (params_ it) * contiguous tile_offset) it)
    else
      let it1 :=
        with_coord_offset
          (make_Coord (contiguous (coord_offset_ it))
                      (strided (coord_offset_ it)
                       + Shape_kStrided cfg * strided tile_offset))
          it in
      if negb (Permute cfg) then
        add_pointer_offset (Shape_kContiguous cfg * contiguous tile_offset)
                           it1
      else
        with_coord_offset
          (make_Coord (contiguous (coord_offset_ it1)
                       + Shape_kContiguous cfg * contiguous tile_offset)
                      (strided (coord_offset_ it1)))
          it1.

Definition add_tile_offset (tile_offset : PitchLinearCoord) (it : Iterator)
    : Iterator :=
    with_is_residue_tile false
      (if is_residue_tile_ it then add_tile_offset_residue tile_offset it
       else add_tile_offset_steady tile_offset it).

Definition valid (it : Iterator) : bool :=
    UnderlyingPredicates.valid cfg (the_predicates it).

Definition get (it : Iterator) : option Z :=
    let p := the_predicates it in
    if Gather cfg || Permute cfg then
      if negb (valid it) then None
      else
        let coord_contig :=
          (if Permute cfg then contiguous (coord_offset_ it) else 0)
          + iteration_contiguous_ p * Delta_kContiguous tm
          + iteration_vector_ p * AccessType_kElements cfg in
        let coord_strided :=
          strided (coord_offset_ it)
          + iteration_strided_ p * Delta_kStrided tm in
        let coord_strided :=
          if Gather cfg then indices_ it coord_strided else coord_strided in
        let offset :=
          if Permute cfg then
            permute_layout_ it (make_Coord coord_contig coord_strided)
          else coord_strided * stride_ (params_ it) + coord_contig in
        Some (pointer_ it + OffsetBytes cfg offset)
    else
      Some (pointer_ it
            + Z.quot (iteration_contiguous_ p
                      * (Delta_kContiguous tm * sizeof_bits_Element cfg)) 8
            + iteration_vector_ p * sizeof_AccessType cfg).

(** [operator++] *)
Definition incr (it : Iterator) : Iterator :=
    let p := UnderlyingPredicates.incr (the_predicates it) in
    let v := iteration_vector_ p + 1 in
    if v <? kAccessesPerVector then
      with_the_predicates
        (with_cursor v (iteration_contiguous_ p) (iteration_strided_ p) p) it
    else
      let c := iteration_contiguous_ p + 1 in
      if c <? Iterations_kContiguous tm then
        with_the_predicates (with_cursor 0 c (iteration_strided_ p) p) it
      else
        let s := iteration_strided_ p + 1 in
        if s <? Iterations_kStrided tm then
          let it1 := with_the_predicates (with_cursor 0 0 s p) it in
          if fast_path then advance_pointer (inc_strided_ (params_ it)) it1
          else it1
        else
          let it1 := with_the_predicates (with_cursor 0 0 0 p) it in
          if fast_path then
            advance_pointer (- inc_advance_ (params_ it))
                            (advance_pointer (inc_next_ (params_ it)) it1)
          else it1.

Definition clear_mask (enable : bool) : Iterator -> Iterator :=
    map_predicates (UnderlyingPredicates.clear_mask cfg enable).

Definition enable_mask : Iterator -> Iterator :=
    map_predicates (UnderlyingPredicates.enable_mask cfg).

Definition set_mask (mask : list Z) : Iterator -> Iterator :=
    map_predicates (UnderlyingPredicates.set_mask cfg mask).

Definition get_mask (mask : list Z) (it : Iterator) : list Z :=
    UnderlyingPredicates.get_mask cfg mask (the_predicates it).

End IteratorOps.
End PitchLinear.

(* ------------------------------------------------------------------------- *)
(** ** Layout adapters *)

(** Template arguments of an adapter: the tile is a [MatrixShape]. *)
Record MatrixConfig : Type := {
  Shape_kRow : Z;
  Shape_kColumn : Z;
  m_kAdvanceRank : Z;
  m_ThreadMap : ThreadMapT;
  m_AccessType_kElements : Z;
  m_sizeof_bits_Element : Z;
  m_sizeof_AccessType : Z;
  m_OffsetBytes : Z -> Z;
  m_Gather : bool;
  m_Permute : bool;
  m_permute_layout : PitchLinearCoord -> Z -> PitchLinearCoord -> Z
}.

(** The default [indices = nullptr] argument. *)
Definition null_indices : Z -> Z := fun _ => 0.

(** Specialization for [layout::RowMajor]. *)
Module RowMajor.

Record t : Type := { iterator_ : Iterator }.

(** [UnderlyingIterator]:
    [PitchLinearShape<Shape::kColumn, Shape::kRow>], advance rank
    [(kAdvanceRank == 0 ? 1 : 0)]. *)
Definition Underlying (mc : MatrixConfig) : Config :=
    {| Shape_kContiguous := Shape_kColumn mc;
       Shape_kStrided := Shape_kRow mc;
       kAdvanceRank := if m_kAdvanceRank mc =? 0 then 1 else 0;
       ThreadMap := m_ThreadMap mc;
       AccessType_kElements := m_AccessType_kElements mc;
       sizeof_bits_Element := m_sizeof_bits_Element mc;
       sizeof_AccessType := m_sizeof_AccessType mc;
       OffsetBytes := m_OffsetBytes mc;
       Gather := m_Gather mc;
       Permute := m_Permute mc;
       permute_layout := m_permute_layout mc |}.

Section Ops.
Variable mc : MatrixConfig.

Definition ctor (params : Params) (pointer : Z) (extent : MatrixCoord)
               (thread_id : Z) (threadblock_offset : MatrixCoord)
               (indices : Z -> Z) : t :=
      {| iterator_ :=
           PitchLinear.ctor (Underlying mc) params pointer
             (make_Coord (column extent) (row extent))
             thread_id
             (make_Coord (column threadblock_offset) (row threadblock_offset))
             indices |}.

Definition set_iteration_index (index : Z) (a : t) : t :=
      {| iterator_ :=
           PitchLinear.set_iteration_index (Underlying mc) index
                                           (iterator_ a) |}.

Definition add_pointer_offset (pointer_offset : Z) (a : t) : t :=
      {| iterator_ :=
           PitchLinear.add_pointer_offset (Underlying mc) pointer_offset
                                          (iterator_ a) |}.

Definition add_tile_offset (tile_offset : MatrixCoord) (a : t) : t :=
      {| iterator_ :=
           PitchLinear.add_tile_offset (Underlying mc)
             (make_Coord (column tile_offset) (row tile_offset))
             (iterator_ a) |}.

Definition get (a : t) : option Z :=
      PitchLinear.get (Underlying mc) (iterator_ a).

Definition incr (a : t) : t :=
      {| iterator_ := PitchLinear.incr (Underlying mc) (iterator_ a) |}.

Definition clear_mask (enable : bool) (a : t) : t :=
      {| iterator_ :=
           PitchLinear.clear_mask (Underlying mc) enable (iterator_ a) |}.

Definition enable_mask (a : t) : t :=
      {| iterator_ := PitchLinear.enable_mask (Underlying mc) (iterator_ a) |}.

Definition set_mask (mask : list Z) (a : t) : t :=
      {| iterator_ :=
           PitchLinear.set_mask (Underlying mc) mask (iterator_ a) |}.

Definition get_mask (mask : list Z) (a : t) : list Z :=
      PitchLinear.get_mask (Underlying mc) mask (iterator_ a).

Definition valid (a : t) : bool :=
      PitchLinear.valid (Underlying mc) (iterator_ a).
End Ops.

End RowMajor.

(** Specialization for [layout::ColumnMajorInterleaved<InterleavedK>]. *)
Module ColumnMajorInterleaved.

Record t : Type := { iterator_ : Iterator }.

(** [UnderlyingIterator]:
    [PitchLinearShape<Shape::kRow * kInterleavedK,
                      Shape::kColumn / kInterleavedK>], advance rank
    [(kAdvanceRank == 0 ? 0 : 1)], no gather, no permutation.  The
    specialization exists only for [Gather = false] and [NoPermute]. *)
Definition Underlying (kInterleavedK : Z) (mc : MatrixConfig) : Config :=
    {| Shape_kContiguous := Shape_kRow mc * kInterleavedK;
       Shape_kStrided := Z.quot (Shape_kColumn mc) kInterleavedK;
       kAdvanceRank := if m_kAdvanceRank mc =? 0 then 0 else 1;
       ThreadMap := m_ThreadMap mc;
       AccessType_kElements := m_AccessType_kElements mc;
       sizeof_bits_Element := m_sizeof_bits_Element mc;
       sizeof_AccessType := m_sizeof_AccessType mc;
       OffsetBytes := m_OffsetBytes mc;
       Gather := false;
       Permute := false;
       permute_layout := m_permute_layout mc |}.

Section Ops.
Variable kInterleavedK : Z.
Variable mc : MatrixConfig.

Let U := Underlying kInterleavedK mc.

(** The [indices] argument is accepted and not passed on. *)
Definition ctor (params : Params) (pointer : Z) (extent : MatrixCoord)
               (thread_id : Z) (threadblock_offset : MatrixCoord)
               (indices : Z -> Z) : t :=
      {| iterator_ :=
           PitchLinear.ctor U params pointer
             (make_Coord (row extent * kInterleavedK)
                         (Z.quot (column extent) kInterleavedK))
             thread_id
             (make_Coord (row threadblock_offset * kInterleavedK)
                         (Z.quot (column threadblock_offset) kInterleavedK))
             null_indices |}.

Definition set_iteration_index (index : Z) (a : t) : t :=
      {| iterator_ := PitchLinear.set_iteration_index U index (iterator_ a) |}.

Definition add_pointer_offset (pointer_offset : Z) (a : t) : t :=
      {| iterator_ :=
           PitchLinear.add_pointer_offset U pointer_offset (iterator_ a) |}.

Definition add_tile_offset (tile_offset : MatrixCoord) (a : t) : t :=
      {| iterator_ :=
           PitchLinear.add_tile_offset U
             (make_Coord (row tile_offset) (column tile_offset))
             (iterator_ a) |}.

Definition get (a : t) : option Z := PitchLinear.get U (iterator_ a).

Definition incr (a : t) : t :=
      {| iterator_ := PitchLinear.incr U (iterator_ a) |}.

Definition clear_mask (enable : bool) (a : t) : t :=
      {| iterator_ := PitchLinear.clear_mask U enable (iterator_ a) |}.

Definition enable_mask (a : t) : t :=
      {| iterator_ := PitchLinear.enable_mask U (iterator_ a) |}.

Definition set_mask (mask : list Z) (a : t) : t :=
      {| iterator_ := PitchLinear.set_mask U mask (iterator_ a) |}.

Definition get_mask (mask : list Z) (a : t) : list Z :=
      PitchLinear.get_mask U mask (iterator_ a).

Definition valid (a : t) : bool := PitchLinear.valid U (iterator_ a).
End Ops.

End ColumnMajorInterleaved.

(** Specialization for [layout::RowMajorInterleaved<InterleavedK>]. *)
Module RowMajorInterleaved.

Record t : Type := { iterator_ : Iterator }.

(** [UnderlyingIterator]:
    [PitchLinearShape<Shape::kColumn * kInterleavedK,
                      Shape::kRow / kInterleavedK>], advance rank
    [(kAdvanceRank == 0 ? 1 : 0)], no gather, no permutation. *)
Definition Underlying (kInterleavedK : Z) (mc : MatrixConfig) : Config :=
    {| Shape_kContiguous := Shape_kColumn mc * kInterleavedK;
       Shape_kStrided := Z.quot (Shape_kRow mc) kInterleavedK;
       kAdvanceRank := if m_kAdvanceRank mc =? 0 then 1 else 0;
       ThreadMap := m_ThreadMap mc;
       AccessType_kElements := m_AccessType_kElements mc;
       sizeof_bits_Element := m_sizeof_bits_Element mc;
       sizeof_AccessType := m_sizeof_AccessType mc;
       OffsetBytes := m_OffsetBytes mc;
       Gather := false;
       Permute := false;
       permute_layout := m_permute_layout mc |}.

Section Ops.
Variable kInterleavedK : Z.
Variable mc : MatrixConfig.

Let U := Underlying kInterleavedK mc.

(** The [indices] argument is accepted and not passed on. *)
Definition ctor (params : Params) (pointer : Z) (extent : MatrixCoord)
               (thread_id : Z) (threadblock_offset : MatrixCoord)
               (indices : Z -> Z) : t :=
      {| iterator_ :=
           PitchLinear.ctor U params pointer
             (make_Coord (column extent * kInterleavedK)
                         (Z.quot (row extent) kInterleavedK))
             thread_id
             (make_Coord (column threadblock_offset * kInterleavedK)
                         (Z.quot (row threadblock_offset) kInterleavedK))
             null_indices |}.

Definition set_iteration_index (index : Z) (a : t) : t :=
      {| iterator_ := PitchLinear.set_iteration_index U index (iterator_ a) |}.

Definition add_pointer_offset (pointer_offset : Z) (a : t) : t :=
      {| iterator_ :=
           PitchLinear.add_pointer_offset U pointer_offset (iterator_ a) |}.

Definition add_tile_offset (tile_offset : MatrixCoord) (a : t) : t :=
      {| iterator_ :=
           PitchLinear.add_tile_offset U
             (make_Coord (column tile_offset) (row tile_offset))
             (iterator_ a) |}.

Definition get (a : t) : option Z := PitchLinear.get U (iterator_ a).

Definition incr (a : t) : t :=
      {| iterator_ := PitchLinear.incr U (iterator_ a) |}.

Definition clear_mask (enable : bool) (a : t) : t :=
      {| iterator_ := PitchLinear.clear_mask U enable (iterator_ a) |}.

Definition enable_mask (a : t) : t :=
      {| iterator_ := PitchLinear.enable_mask U (iterator_ a) |}.

Definition set_mask (mask : list Z) (a : t) : t :=
      {| iterator_ := PitchLinear.set_mask U mask (iterator_ a) |}.

Definition get_mask (mask : list Z) (a : t) : list Z :=
      PitchLinear.get_mask U mask (iterator_ a).

Definition valid (a : t) : bool := PitchLinear.valid U (iterator_ a).
End Ops.

End RowMajorInterleaved.

(* ------------------------------------------------------------------------- *)
(** ** Well-formed instantiations, traversals and reference addresses *)

(** The thread map enumerates at least one access on every level. *)
Definition config_positive (cfg : Config) : Prop :=
  0 < UnderlyingPredicates.kAccessesPerVector cfg
  /\ 0 < Iterations_kContiguous (ThreadMap cfg)
  /\ 0 < Iterations_kStrided (ThreadMap cfg).

(** The cursor names an access of the tile. *)
Definition cursor_in_range (cfg : Config) (v c s : Z) : Prop :=
  0 <= v < UnderlyingPredicates.kAccessesPerVector cfg
  /\ 0 <= c < Iterations_kContiguous (ThreadMap cfg)
  /\ 0 <= s < Iterations_kStrided (ThreadMap cfg).

Definition cursor_of (p : Predicates) : Z * Z * Z :=
  (iteration_vector_ p, iteration_contiguous_ p, iteration_strided_ p).

(** The predicate array has its static length. *)
Definition mask_sized (cfg : Config) (w : list Z) : Prop :=
  Z.of_nat (length w) = UnderlyingPredicates.kPredicateWordCount cfg.

(** [k] applications of [operator++]. *)
Definition advance (cfg : Config) (k : nat) (it : Iterator) : Iterator :=
  Nat.iter k (PitchLinear.incr cfg) it.

(** The calls a kernel loop can make on a pitch-linear iterator. *)
Inductive Op : Type :=
| OpIncr
| OpAddTileOffset (tile_offset : PitchLinearCoord)
| OpAddPointerOffset (pointer_offset : Z)
| OpSetIterationIndex (index : Z)
| OpClearMask (enable : bool)
| OpEnableMask
| OpSetMask (mask : list Z).

Definition step (cfg : Config) (it : Iterator) (op : Op) : Iterator :=
  match op with
  | OpIncr => PitchLinear.incr cfg it
  | OpAddTileOffset t => PitchLinear.add_tile_offset cfg t it
  | OpAddPointerOffset o => PitchLinear.add_pointer_offset cfg o it
  | OpSetIterationIndex i => PitchLinear.set_iteration_index cfg i it
  | OpClearMask b => PitchLinear.clear_mask cfg b it
  | OpEnableMask => PitchLinear.enable_mask cfg it
  | OpSetMask m => PitchLinear.set_mask cfg m it
  end.

Definition run (cfg : Config) (ops : list Op) (it : Iterator) : Iterator :=
  fold_left (step cfg) ops it.

Definition is_add_tile_offset (op : Op) : bool :=
  match op with OpAddTileOffset _ => true | _ => false end.

(** What a caller can observe of an iterator. *)
Definition observe (cfg : Config) (mask0 : list Z) (it : Iterator)
  : option Z * bool * list Z :=
  (PitchLinear.get cfg it, PitchLinear.valid cfg it,
   PitchLinear.get_mask cfg mask0 it).

Definition cursor_ok (cfg : Config) (it : Iterator) : Prop :=
  cursor_in_range cfg (iteration_vector_ (the_predicates it))
                  (iteration_contiguous_ (the_predicates it))
                  (iteration_strided_ (the_predicates it)).

(** Everything [operator++] leaves alone: all state but the cursor and the
    pointer. *)
Definition frame_of (it : Iterator) :=
  (predicates_ (the_predicates it), extent_ (the_predicates it),
   thread_offset_ (the_predicates it), residue_offset_ (the_predicates it),
   compute_predicates_calls (the_predicates it),
   is_residue_tile_ it, params_ it, indices_ it, permute_layout_ it,
   coord_offset_ it).

(** The cursor after the current one in the visiting order of [operator++]:
    vector first, then contiguous, then strided, wrapping to the start. *)
Definition next_cursor (cfg : Config) (vcs : Z * Z * Z) : Z * Z * Z :=
  let '(v, c, s) := vcs in
  if v + 1 <? UnderlyingPredicates.kAccessesPerVector cfg then (v + 1, c, s)
  else if c + 1 <? Iterations_kContiguous (ThreadMap cfg) then (0, c + 1, s)
  else if s + 1 <? Iterations_kStrided (ThreadMap cfg) then (0, 0, s + 1)
  else (0, 0, 0).

(** Elements occupy [esz] whole bytes, and the parameters taken from outside
    this header agree with that: [OffsetBytes] and [sizeof(AccessType)]. *)
Definition byte_sized (cfg : Config) (esz : Z) : Prop :=
  sizeof_bits_Element cfg = 8 * esz
  /\ (forall i, OffsetBytes cfg i = esz * i)
  /\ sizeof_AccessType cfg = esz * AccessType_kElements cfg.

(** The increments of [Params] that [operator++] relies on: [inc_strided_]
    is the byte distance between two strided iterations, and
    [inc_next_ - inc_advance_] leads from the last strided iteration of a
    tile back to its first. *)
Definition params_consistent (cfg : Config) (esz : Z) (params : Params)
  : Prop :=
  inc_strided_ params
  = esz * (stride_ params * Delta_kStrided (ThreadMap cfg))
  /\ inc_next_ params - inc_advance_ params
     = - ((Iterations_kStrided (ThreadMap cfg) - 1) * inc_strided_ params).

(** Directly indexing the tensor: the element offset the addressing mode
    assigns to a logical coordinate (through the index array when gathering,
    through the permutation function when permuting, through the pitch-linear
    layout otherwise), and the byte address of that element. *)
Definition tensor_offset (cfg : Config) (params : Params)
           (extent : PitchLinearCoord) (indices : Z -> Z)
           (coord : PitchLinearCoord) : Z :=
  let physical :=
    make_Coord (contiguous coord)
               (if Gather cfg then indices (strided coord)
                else strided coord) in
  if Permute cfg then permute_layout cfg extent (stride_ params) physical
  else PitchLinear_offset (stride_ params) physical.

Definition tensor_address (cfg : Config) (params : Params) (pointer : Z)
           (extent : PitchLinearCoord) (indices : Z -> Z)
           (coord : PitchLinearCoord) : Z :=
  pointer + OffsetBytes cfg (tensor_offset cfg params extent indices coord).

(** The logical coordinate of the access under the cursor. *)
Definition cursor_coord (cfg : Config) (it : Iterator) : PitchLinearCoord :=
  UnderlyingPredicates.access_coord
    cfg (thread_offset_ (the_predicates it))
    (iteration_vector_ (the_predicates it))
    (iteration_contiguous_ (the_predicates it))
    (iteration_strided_ (the_predicates it)).

(* ------------------------------------------------------------------------- *)
(** ** Sample instantiations *)

(** Thread [t] of 32 starts at contiguous position [t]; four contiguous
    iterations 32 apart, two strided iterations 16 apart. *)
Definition strip_map : ThreadMapT :=
  {| kElementsPerAccess := 1;
     Iterations_kContiguous := 4;
     Iterations_kStrided := 2;
     Delta_kContiguous := 32;
     Delta_kStrided := 16;
     initial_offset := fun t => make_Coord (Z.rem t 32) (Z.quot t 32) |}.

(** A 128 x 32 tile of 4-byte elements advancing along the contiguous
    axis. *)
Definition strip_cfg : Config :=
  {| Shape_kContiguous := 128;
     Shape_kStrided := 32;
     kAdvanceRank := 0;
     ThreadMap := strip_map;
     AccessType_kElements := 1;
     sizeof_bits_Element := 32;
     sizeof_AccessType := 4;
     OffsetBytes := fun i => 4 * i;
     Gather := false;
     Permute := false;
     permute_layout := fun _ stride c => PitchLinear_offset stride c |}.

(** The same tile read through a gather index array. *)
Definition gather_cfg : Config :=
  {| Shape_kContiguous := 128;
     Shape_kStrided := 32;
     kAdvanceRank := 0;
     ThreadMap := strip_map;
     AccessType_kElements := 1;
     sizeof_bits_Element := 32;
     sizeof_AccessType := 4;
     OffsetBytes := fun i => 4 * i;
     Gather := true;
     Permute := false;
     permute_layout := fun _ stride c => PitchLinear_offset stride c |}.

(** Parameters of a tensor with 130 elements per row, for [strip_cfg]. *)
Definition strip_params : Params :=
  {| stride_ := 130;
     inc_strided_ := 4 * (130 * 16);
     inc_next_ := 4 * 128 - 4 * (130 * 16);
     inc_advance_ := 4 * 128 |}.

Definition strip_extent : PitchLinearCoord := make_Coord 130 64.

Definition origin : PitchLinearCoord := make_Coord 0 0.

(** The calls that move an iterator through its tile sequence. *)
Definition traversal_op (op : Op) : bool :=
  match op with
  | OpIncr | OpAddTileOffset _ => true
  | _ => false
  end.

(** Validity of the access under the cursor of the first tile: both axes
    against the residue-adjusted extent. *)
Definition first_tile_check (cfg : Config) (extent tb : PitchLinearCoord)
           (coord : PitchLinearCoord) : bool :=
  (strided coord <? strided (UnderlyingPredicates.residue_extent_of
                               cfg extent tb))
  && (contiguous coord <? contiguous (UnderlyingPredicates.residue_extent_of
                                        cfg extent tb)).

(** Validity of an access of a later tile: the axis that is not advanced
    along, against the extent. *)
Definition steady_tile_check (cfg : Config) (extent : PitchLinearCoord)
           (coord : PitchLinearCoord) : bool :=
  if kAdvanceRank cfg =? 0 then strided coord <? strided extent
  else contiguous coord <? contiguous extent.

(** Thread 5 of the strip map on the tensor of 130 x 64 elements: its first
    access has coordinate (5, 0). *)
Definition strip_it : Iterator :=
  PitchLinear.ctor strip_cfg strip_params 4096 strip_extent 5 origin
                   null_indices.

(** The number of contiguous iterations of the current strided row and
    vector whose predicate is set: the valid positions of the mask along the
    contiguous axis. *)
Definition valid_contiguous_positions (cfg : Config) (it : Iterator) : nat :=
  length
    (List.filter
       (fun c : nat =>
          UnderlyingPredicates.valid
            cfg (with_cursor (iteration_vector_ (the_predicates it))
                             (Z.of_nat c)
                             (iteration_strided_ (the_predicates it))
                             (the_predicates it)))
       (seq 0 (Z.to_nat (Iterations_kContiguous (ThreadMap cfg))))).

(** One thread reading eight neighbouring elements of a row. *)
Definition dense_map : ThreadMapT :=
  {| kElementsPerAccess := 1;
     Iterations_kContiguous := 8;
     Iterations_kStrided := 1;
     Delta_kContiguous := 1;
     Delta_kStrided := 1;
     initial_offset := fun _ => make_Coord 0 0 |}.

Definition dense_cfg : Config :=
  {| Shape_kContiguous := 128;
     Shape_kStrided := 32;
     kAdvanceRank := 0;
     ThreadMap := dense_map;
     AccessType_kElements := 1;
     sizeof_bits_Element := 32;
     sizeof_AccessType := 4;
     OffsetBytes := fun i => 4 * i;
     Gather := false;
     Permute := false;
     permute_layout := fun _ stride c => PitchLinear_offset stride c |}.

(** The tile size and the coordinates along the advance axis, and along the
    other one. *)
Definition advance_tile (cfg : Config) : Z :=
  if kAdvanceRank cfg =? 0 then Shape_kContiguous cfg else Shape_kStrided cfg.

Definition advance_axis (cfg : Config) (a : PitchLinearCoord) : Z :=
  if kAdvanceRank cfg =? 0 then contiguous a else strided a.

Definition other_axis (cfg : Config) (a : PitchLinearCoord) : Z :=
  if kAdvanceRank cfg =? 0 then strided a else contiguous a.

(** A gather index array that maps every row to itself. *)
Definition identity_indices : Z -> Z := fun s => s.

(* ------------------------------------------------------------------------- *)
(** ** Adapters against the canonical iterator *)

(** The calls a kernel loop can make on an adapter; tile offsets are matrix
    coordinates. *)
Inductive MatrixOp : Type :=
| MIncr
| MAddTileOffset (tile_offset : MatrixCoord)
| MAddPointerOffset (pointer_offset : Z)
| MSetIterationIndex (index : Z)
| MClearMask (enable : bool)
| MEnableMask
| MSetMask (mask : list Z).

Definition RowMajor_step (mc : MatrixConfig) (a : RowMajor.t) (op : MatrixOp)
  : RowMajor.t :=
  match op with
  | MIncr => RowMajor.incr mc a
  | MAddTileOffset t => RowMajor.add_tile_offset mc t a
  | MAddPointerOffset o => RowMajor.add_pointer_offset mc o a
  | MSetIterationIndex i => RowMajor.set_iteration_index mc i a
  | MClearMask b => RowMajor.clear_mask mc b a
  | MEnableMask => RowMajor.enable_mask mc a
  | MSetMask m => RowMajor.set_mask mc m a
  end.

Definition RowMajorInterleaved_step (K : Z) (mc : MatrixConfig)
           (a : RowMajorInterleaved.t) (op : MatrixOp)
  : RowMajorInterleaved.t :=
  match op with
  | MIncr => RowMajorInterleaved.incr K mc a
  | MAddTileOffset t => RowMajorInterleaved.add_tile_offset K mc t a
  | MAddPointerOffset o => RowMajorInterleaved.add_pointer_offset K mc o a
  | MSetIterationIndex i => RowMajorInterleaved.set_iteration_index K mc i a
  | MClearMask b => RowMajorInterleaved.clear_mask K mc b a
  | MEnableMask => RowMajorInterleaved.enable_mask K mc a
  | MSetMask m => RowMajorInterleaved.set_mask K mc m a
  end.

Definition ColumnMajorInterleaved_step (K : Z) (mc : MatrixConfig)
           (a : ColumnMajorInterleaved.t) (op : MatrixOp)
  : ColumnMajorInterleaved.t :=
  match op with
  | MIncr => ColumnMajorInterleaved.incr K mc a
  | MAddTileOffset t => ColumnMajorInterleaved.add_tile_offset K mc t a
  | MAddPointerOffset o => ColumnMajorInterleaved.add_pointer_offset K mc o a
  | MSetIterationIndex i =>
      ColumnMajorInterleaved.set_iteration_index K mc i a
  | MClearMask b => ColumnMajorInterleaved.clear_mask K mc b a
  | MEnableMask => ColumnMajorInterleaved.enable_mask K mc a
  | MSetMask m => ColumnMajorInterleaved.set_mask K mc m a
  end.

(** The coordinate maps the adapters are described by: exchanging row and
    column; multiplying one axis by the interleave factor and dividing the
    other by it. *)
Definition swap_axes (m : MatrixCoord) : PitchLinearCoord :=
  make_Coord (column m) (row m).

Definition keep_axes (m : MatrixCoord) : PitchLinearCoord :=
  make_Coord (row m) (column m).

Definition interleave_rows (K : Z) (m : MatrixCoord) : PitchLinearCoord :=
  make_Coord (row m * K) (Z.quot (column m) K).

Definition interleave_columns (K : Z) (m : MatrixCoord) : PitchLinearCoord :=
  make_Coord (column m * K) (Z.quot (row m) K).

(** The call on the canonical iterator that stands for a call on an adapter,
    given the map applied to tile offsets. *)
Definition canonical_op (f : MatrixCoord -> PitchLinearCoord) (op : MatrixOp)
  : Op :=
  match op with
  | MIncr => OpIncr
  | MAddTileOffset t => OpAddTileOffset (f t)
  | MAddPointerOffset o => OpAddPointerOffset o
  | MSetIterationIndex i => OpSetIterationIndex i
  | MClearMask b => OpClearMask b
  | MEnableMask => OpEnableMask
  | MSetMask m => OpSetMask m
  end.

(** The template arguments of the canonical iterator an adapter stands for,
    given its tile, its advance rank and whether gather and permutation are
    passed through. *)
Definition canonical_cfg (mc : MatrixConfig) (tile : PitchLinearCoord)
           (rank : Z) (pass_addressing : bool) : Config :=
  {| Shape_kContiguous := contiguous tile;
     Shape_kStrided := strided tile;
     kAdvanceRank := rank;
     ThreadMap := m_ThreadMap mc;
     AccessType_kElements := m_AccessType_kElements mc;
     sizeof_bits_Element := m_sizeof_bits_Element mc;
     sizeof_AccessType := m_sizeof_AccessType mc;
     OffsetBytes := m_OffsetBytes mc;
     Gather := pass_addressing && m_Gather mc;
     Permute := pass_addressing && m_Permute mc;
     permute_layout := m_permute_layout mc |}.

Definition tile_of (mc : MatrixConfig) : MatrixCoord :=
  make_MatrixCoord (Shape_kRow mc) (Shape_kColumn mc).

(** Advance rank 0 of the matrix becomes rank 1 of the swapped tile and
    conversely. *)
Definition swapped_rank (mc : MatrixConfig) : Z :=
  if m_kAdvanceRank mc =? 0 then 1 else 0.

Definition kept_rank (mc : MatrixConfig) : Z :=
  if m_kAdvanceRank mc =? 0 then 0 else 1.

(* ------------------------------------------------------------------------- *)
(** ** The other specializations *)

(** Specialization for [layout::ColumnMajor]. *)
Module ColumnMajor.

Record t : Type := { iterator_ : Iterator }.

(** [UnderlyingIterator]:
    [PitchLinearShape<Shape::kRow, Shape::kColumn>], advance rank
    [(kAdvanceRank == 0 ? 0 : 1)]. *)
Definition Underlying (mc : MatrixConfig) : Config :=
  {| Shape_kContiguous := Shape_kRow mc;
     Shape_kStrided := Shape_kColumn mc;
     kAdvanceRank := if m_kAdvanceRank mc =? 0 then 0 else 1;
     ThreadMap := m_ThreadMap mc;
     AccessType_kElements := m_AccessType_kElements mc;
     sizeof_bits_Element := m_sizeof_bits_Element mc;
     sizeof_AccessType := m_sizeof_AccessType mc;
     OffsetBytes := m_OffsetBytes mc;
     Gather := m_Gather mc;
     Permute := m_Permute mc;
     permute_layout := m_permute_layout mc |}.

Section Ops.
Variable mc : MatrixConfig.

Definition ctor (params : Params) (pointer : Z) (extent : MatrixCoord)
           (thread_id : Z) (threadblock_offset : MatrixCoord)
           (indices : Z -> Z) : t :=
  {| iterator_ :=
       PitchLinear.ctor (Underlying mc) params pointer
         (make_Coord (row extent) (column extent))
         thread_id
         (make_Coord (row threadblock_offset) (column threadblock_offset))
         indices |}.

Definition set_iteration_index (index : Z) (a : t) : t :=
  {| iterator_ :=
       PitchLinear.set_iteration_index (Underlying mc) index (iterator_ a) |}.

Definition add_pointer_offset (pointer_offset : Z) (a : t) : t :=
  {| iterator_ :=
       PitchLinear.add_pointer_offset (Underlying mc) pointer_offset
                                      (iterator_ a) |}.

Definition add_tile_offset (tile_offset : MatrixCoord) (a : t) : t :=
  {| iterator_ :=
       PitchLinear.add_tile_offset (Underlying mc)
         (make_Coord (row tile_offset) (column tile_offset))
         (iterator_ a) |}.

Definition get (a : t) : option Z :=
  PitchLinear.get (Underlying mc) (iterator_ a).

Definition incr (a : t) : t :=
  {| iterator_ := PitchLinear.incr (Underlying mc) (iterator_ a) |}.

Definition clear_mask (enable : bool) (a : t) : t :=
  {| iterator_ := PitchLinear.clear_mask (Underlying mc) enable (iterator_ a) |}.

Definition enable_mask (a : t) : t :=
  {| iterator_ := PitchLinear.enable_mask (Underlying mc) (iterator_ a) |}.

Definition set_mask (mask : list Z) (a : t) : t :=
  {| iterator_ := PitchLinear.set_mask (Underlying mc) mask (iterator_ a) |}.

Definition get_mask (mask : list Z) (a : t) : list Z :=
  PitchLinear.get_mask (Underlying mc) mask (iterator_ a).

Definition valid (a : t) : bool :=
  PitchLinear.valid (Underlying mc) (iterator_ a).
End Ops.

End ColumnMajor.

(** [layout::AffineRankN<2>::operator()], declared in
    [cutlass/layout/matrix.h]: the offset, in elements, of a coordinate is
    its inner product with the two strides.  The increments of
    [AffineRank2.Params_ctor] are written against the same map. *)
Definition AffineRankN_offset (stride : Z * Z) (coord : PitchLinearCoord) : Z :=
  contiguous coord * fst stride + strided coord * snd stride.

(** Specialization for [layout::AffineRankN<2>].  It exists for
    [Gather = false] and [NoPermute] only; those fields of the
    configuration are not read. *)
Module AffineRank2.

Record Params : Type := {
  stride_ : Z * Z;
  inc_contiguous_ : Z;
  inc_strided_ : Z;
  inc_next_strided_ : Z;
  inc_next_ : Z;
  inc_advance_ : Z
}.

Record Iterator : Type := {
  params_ : Params;
  pointer_ : Z;
  the_predicates : Predicates;
  is_residue_tile_ : bool
}.

Definition with_pointer (a : Z) (it : Iterator) : Iterator :=
  {| params_ := params_ it;
     pointer_ := a;
     the_predicates := the_predicates it;
     is_residue_tile_ := is_residue_tile_ it |}.

Definition with_the_predicates (p : Predicates) (it : Iterator) : Iterator :=
  {| params_ := params_ it;
     pointer_ := pointer_ it;
     the_predicates := p;
     is_residue_tile_ := is_residue_tile_ it |}.

Definition with_is_residue_tile (b : bool) (it : Iterator) : Iterator :=
  {| params_ := params_ it;
     pointer_ := pointer_ it;
     the_predicates := the_predicates it;
     is_residue_tile_ := b |}.

Section Ops.

Variable cfg : Config.

Let tm := ThreadMap cfg.

Definition kAccessesPerVector : Z :=
  Z.quot (kElementsPerAccess tm) (AccessType_kElements cfg).

(** [Params(Layout const &layout)], lines 1134-1153. *)
Definition Params_ctor (layout_stride : Z * Z) : Params :=
  let stride := layout_stride in
  let inc_contiguous :=
    Z.quot ((fst stride * Delta_kContiguous tm) * sizeof_bits_Element cfg) 8 in
  let inc_strided :=
    Z.quot ((snd stride * Delta_kStrided tm) * sizeof_bits_Element cfg) 8 in
  let inc_next_strided :=
    inc_strided - (Iterations_kContiguous tm - 1) * inc_contiguous in
  let inc_advance :=
    if negb (kAdvanceRank cfg =? 0) then
      Z.quot (Shape_kStrided cfg * snd stride * sizeof_bits_Element cfg) 8
    else
      Z.quot (Shape_kContiguous cfg * fst stride * sizeof_bits_Element cfg) 8
  in
  {| stride_ := stride;
     inc_contiguous_ := inc_contiguous;
     inc_strided_ := inc_strided;
     inc_next_strided_ := inc_next_strided;
     inc_next_ :=
       inc_advance - (Iterations_kContiguous tm - 1) * inc_contiguous
       - (Iterations_kStrided tm - 1) * inc_strided;
     inc_advance_ := inc_advance |}.

Definition advance_pointer (n : Z) (it : Iterator) : Iterator :=
  with_pointer (pointer_ it + n) it.

Definition add_pointer_offset (pointer_offset : Z) (it : Iterator)
  : Iterator :=
  advance_pointer (Z.quot (sizeof_bits_Element cfg * pointer_offset) 8) it.

Definition ctor (params : Params) (pointer : Z) (extent : PitchLinearCoord)
           (thread_id : Z) (threadblock_offset : PitchLinearCoord)
  : Iterator :=
  let it0 :=
    {| params_ := params;
       pointer_ := pointer;
       the_predicates :=
         UnderlyingPredicates.set_predicates
           cfg thread_id threadblock_offset
           (UnderlyingPredicates.Predicates_ctor cfg extent);
       is_residue_tile_ := true |} in
  add_pointer_offset
    (AffineRankN_offset (stride_ params) (thread_offset_ (the_predicates it0)))
    it0.

Definition set_iteration_index (index : Z) (it : Iterator) : Iterator :=
  with_the_predicates
    (UnderlyingPredicates.set_iteration_index cfg index (the_predicates it))
    it.

Definition add_tile_offset (tile_offset : PitchLinearCoord) (it : Iterator)
  : Iterator :=
  with_is_residue_tile false
    (if is_residue_tile_ it then
       let p0 := the_predicates it in
       let p1 :=
         with_thread_offset
           (coord_add (thread_offset_ p0) (residue_offset_ p0)) p0 in
       let it1 :=
         add_pointer_offset
           (AffineRankN_offset (stride_ (params_ it)) (residue_offset_ p1))
           (with_the_predicates p1 it) in
       let it2 :=
         with_the_predicates
           (UnderlyingPredicates.compute_predicates_
              cfg (extent_ p1) true (the_predicates it1))
           it1 in
       if negb (kAdvanceRank cfg =? 0) then
         advance_pointer
           (Shape_kContiguous cfg * contiguous tile_offset)
           (advance_pointer
              (inc_advance_ (params_ it) * (strided tile_offset - 1)) it2)
       else
         advance_pointer
           (Shape_kStrided cfg * strided tile_offset)
           (advance_pointer
              (inc_advance_ (params_ it) * (contiguous tile_offset - 1)) it2)
     else
       if negb (kAdvanceRank cfg =? 0) then
         advance_pointer
           (Shape_kContiguous cfg * contiguous tile_offset)
           (advance_pointer
              (inc_advance_ (params_ it) * strided tile_offset) it)
       else
         advance_pointer
           (Shape_kStrided cfg * strided tile_offset)
           (advance_pointer
              (inc_advance_ (params_ it) * contiguous tile_offset) it)).

(** [get] never returns a null pointer in this specialization; the result
    is the address. *)
Definition get (it : Iterator) : Z :=
  pointer_ it + iteration_vector_ (the_predicates it) * sizeof_AccessType cfg.

(** [operator++] *)
Definition incr (it : Iterator) : Iterator :=
  let p := UnderlyingPredicates.incr (the_predicates it) in
  let v := iteration_vector_ p + 1 in
  if v <? kAccessesPerVector then
    with_the_predicates
      (with_cursor v (iteration_contiguous_ p) (iteration_strided_ p) p) it
  else
    let c := iteration_contiguous_ p + 1 in
    if c <? Iterations_kContiguous tm then
      advance_pointer
        (inc_contiguous_ (params_ it))
        (with_the_predicates (with_cursor 0 c (iteration_strided_ p) p) it)
    else
      let s := iteration_strided_ p + 1 in
      if s <? Iterations_kStrided tm then
        advance_pointer
          (inc_next_strided_ (params_ it))
          (with_the_predicates (with_cursor 0 0 s p) it)
      else
        advance_pointer
          (- inc_advance_ (params_ it))
          (advance_pointer
             (inc_next_ (params_ it))
             (with_the_predicates (with_cursor 0 0 0 p) it)).

Definition clear_mask (enable : bool) (it : Iterator) : Iterator :=
  with_the_predicates
    (UnderlyingPredicates.clear_mask cfg enable (the_predicates it)) it.

Definition enable_mask (it : Iterator) : Iterator :=
  with_the_predicates
    (UnderlyingPredicates.enable_mask cfg (the_predicates it)) it.

Definition set_mask (mask : list Z) (it : Iterator) : Iterator :=
  with_the_predicates
    (UnderlyingPredicates.set_mask cfg mask (the_predicates it)) it.

Definition get_mask (mask : list Z) (it : Iterator) : list Z :=
  UnderlyingPredicates.get_mask cfg mask (the_predicates it).

Definition valid (it : Iterator) : bool :=
  UnderlyingPredicates.valid cfg (the_predicates it).

End Ops.

End AffineRank2.

(** The linear index of the access under the cursor, as [valid] computes
    it. *)
Definition cursor_index (cfg : Config) (p : Predicates) : Z :=
  UnderlyingPredicates.pred_idx_of
    cfg (iteration_vector_ p) (iteration_contiguous_ p)
    (iteration_strided_ p).

(** On the fast path, [inc_next_ - inc_advance_] undoes the strided steps of
    one tile. *)
Definition sweep_consistent (cfg : Config) (params : Params) : Prop :=
  PitchLinear.fast_path cfg = true ->
  inc_next_ params - inc_advance_ params
  = - ((Iterations_kStrided (ThreadMap cfg) - 1) * inc_strided_ params).

(** One tile along the advance axis. *)
Definition unit_tile (cfg : Config) : PitchLinearCoord :=
  if kAdvanceRank cfg =? 0 then make_Coord 1 0 else make_Coord 0 1.

Definition coord_sub (a b : PitchLinearCoord) : PitchLinearCoord :=
  make_Coord (contiguous a - contiguous b) (strided a - strided b).

(** [inc_advance_] is the byte distance between two tiles along the advance
    axis. *)
Definition advance_consistent (cfg : Config) (esz : Z) (params : Params)
  : Prop :=
  inc_advance_ params
  = esz * (if kAdvanceRank cfg =? 0 then Shape_kContiguous cfg
           else Shape_kStrided cfg * stride_ params).

(** A jump that stays on the advance axis. *)
Definition along_advance_axis (cfg : Config) (op : Op) : bool :=
  match op with
  | OpAddTileOffset t => other_axis cfg t =? 0
  | _ => true
  end.

(** The number of tiles jumped along the advance axis by a sequence of
    calls. *)
Definition tiles_jumped (cfg : Config) (ops : list Op) : Z :=
  fold_left
    (fun n op =>
       match op with
       | OpAddTileOffset t => n + advance_axis cfg t
       | _ => n
       end)
    ops 0.

(** The coordinate distance of [n] tiles along the advance axis. *)
Definition tile_shift (cfg : Config) (n : Z) : PitchLinearCoord :=
  if kAdvanceRank cfg =? 0 then make_Coord (n * Shape_kContiguous cfg) 0
  else make_Coord 0 (n * Shape_kStrided cfg).

(** The coordinate of the access under the cursor in the tile the iterator
    is on: the cursor coordinate of the first steady tile, moved by the
    tiles jumped after it. *)
Definition current_coord (cfg : Config) (ops : list Op) (it : Iterator)
  : PitchLinearCoord :=
  if existsb is_add_tile_offset ops then
    coord_add (cursor_coord cfg it) (tile_shift cfg (tiles_jumped cfg ops - 1))
  else cursor_coord cfg it.

(* ------------------------------------------------------------------------- *)
(** ** Driving the affine iterator *)

Definition affine_step (cfg : Config) (it : AffineRank2.Iterator) (op : Op)
  : AffineRank2.Iterator :=
  match op with
  | OpIncr => AffineRank2.incr cfg it
  | OpAddTileOffset t => AffineRank2.add_tile_offset cfg t it
  | OpAddPointerOffset o => AffineRank2.add_pointer_offset cfg o it
  | OpSetIterationIndex i => AffineRank2.set_iteration_index cfg i it
  | OpClearMask b => AffineRank2.clear_mask cfg b it
  | OpEnableMask => AffineRank2.enable_mask cfg it
  | OpSetMask m => AffineRank2.set_mask cfg m it
  end.

Definition affine_run (cfg : Config) (ops : list Op)
           (it : AffineRank2.Iterator) : AffineRank2.Iterator :=
  fold_left (affine_step cfg) ops it.

Definition affine_advance (cfg : Config) (k : nat)
           (it : AffineRank2.Iterator) : AffineRank2.Iterator :=
  Nat.iter k (AffineRank2.incr cfg) it.

Definition affine_cursor_ok (cfg : Config) (it : AffineRank2.Iterator)
  : Prop :=
  cursor_in_range cfg (iteration_vector_ (AffineRank2.the_predicates it))
                  (iteration_contiguous_ (AffineRank2.the_predicates it))
                  (iteration_strided_ (AffineRank2.the_predicates it)).

(** The coordinate of the access under the cursor in the tile the affine
    iterator is on. *)
Definition affine_current_coord (cfg : Config) (ops : list Op)
           (it : AffineRank2.Iterator) : PitchLinearCoord :=
  let p := AffineRank2.the_predicates it in
  let coord :=
    UnderlyingPredicates.access_coord
      cfg (thread_offset_ p) (iteration_vector_ p) (iteration_contiguous_ p)
      (iteration_strided_ p) in
  if existsb is_add_tile_offset ops then
    coord_add coord (tile_shift cfg (tiles_jumped cfg ops - 1))
  else coord.

(** Directly indexing an affine tensor of elements of [esz] bytes. *)
Definition affine_address (esz : Z) (stride : Z * Z) (pointer : Z)
           (coord : PitchLinearCoord) : Z :=
  pointer + esz * AffineRankN_offset stride coord.

(** A unit-stride contiguous axis, 4-byte elements, rows 130 elements
    apart. *)
Definition strip_affine_it : AffineRank2.Iterator :=
  AffineRank2.ctor strip_cfg (AffineRank2.Params_ctor strip_cfg (1, 130))
                   4096 strip_extent 5 origin.

(* ------------------------------------------------------------------------- *)
(** ** The affine matrix specializations *)

(** Specialization for [layout::AffineRank2ColumnMajor]: the affine
    iterator over [PitchLinearShape<Shape::kRow, Shape::kColumn>], advance
    rank [(kAdvanceRank == 0 ? 0 : 1)]. *)
Module AffineRank2ColumnMajor.

Record t : Type := { iterator_ : AffineRank2.Iterator }.

Definition Underlying (mc : MatrixConfig) : Config :=
  {| Shape_kContiguous := Shape_kRow mc;
     Shape_kStrided := Shape_kColumn mc;
     kAdvanceRank := if m_kAdvanceRank mc =? 0 then 0 else 1;
     ThreadMap := m_ThreadMap mc;
     AccessType_kElements := m_AccessType_kElements mc;
     sizeof_bits_Element := m_sizeof_bits_Element mc;
     sizeof_AccessType := m_sizeof_AccessType mc;
     OffsetBytes := m_OffsetBytes mc;
     Gather := false;
     Permute := false;
     permute_layout := m_permute_layout mc |}.

Section Ops.
Variable mc : MatrixConfig.

(** [Params(Layout const &layout)]:
    [AffineRankN<2>(layout.stride(0), layout.stride(1))]. *)
Definition Params_ctor (layout_stride : Z * Z) : AffineRank2.Params :=
  AffineRank2.Params_ctor (Underlying mc)
                          (fst layout_stride, snd layout_stride).

Definition ctor (params : AffineRank2.Params) (pointer : Z)
           (extent : MatrixCoord) (thread_id : Z)
           (threadblock_offset : MatrixCoord) : t :=
  {| iterator_ :=
       AffineRank2.ctor (Underlying mc) params pointer
         (make_Coord (row extent) (column extent))
         thread_id
         (make_Coord (row threadblock_offset) (column threadblock_offset)) |}.

Definition set_iteration_index (index : Z) (a : t) : t :=
  {| iterator_ :=
       AffineRank2.set_iteration_index (Underlying mc) index (iterator_ a) |}.

Definition add_pointer_offset (pointer_offset : Z) (a : t) : t :=
  {| iterator_ :=
       AffineRank2.add_pointer_offset (Underlying mc) pointer_offset
                                      (iterator_ a) |}.

Definition add_tile_offset (tile_offset : MatrixCoord) (a : t) : t :=
  {| iterator_ :=
       AffineRank2.add_tile_offset (Underlying mc)
         (make_Coord (row tile_offset) (column tile_offset))
         (iterator_ a) |}.

Definition get (a : t) : Z := AffineRank2.get (Underlying mc) (iterator_ a).

Definition incr (a : t) : t :=
  {| iterator_ := AffineRank2.incr (Underlying mc) (iterator_ a) |}.

Definition clear_mask (enable : bool) (a : t) : t :=
  {| iterator_ := AffineRank2.clear_mask (Underlying mc) enable (iterator_ a) |}.

Definition enable_mask (a : t) : t :=
  {| iterator_ := AffineRank2.enable_mask (Underlying mc) (iterator_ a) |}.

Definition set_mask (mask : list Z) (a : t) : t :=
  {| iterator_ := AffineRank2.set_mask (Underlying mc) mask (iterator_ a) |}.

Definition get_mask (mask : list Z) (a : t) : list Z :=
  AffineRank2.get_mask (Underlying mc) mask (iterator_ a).

Definition valid (a : t) : bool :=
  AffineRank2.valid (Underlying mc) (iterator_ a).
End Ops.

End AffineRank2ColumnMajor.

(** Specialization for [layout::AffineRank2RowMajor]: the affine iterator
    over [PitchLinearShape<Shape::kColumn, Shape::kRow>], advance rank
    [(kAdvanceRank == 0 ? 1 : 0)]. *)
Module AffineRank2RowMajor.

Record t : Type := { iterator_ : AffineRank2.Iterator }.

Definition Underlying (mc : MatrixConfig) : Config :=
  {| Shape_kContiguous := Shape_kColumn mc;
     Shape_kStrided := Shape_kRow mc;
     kAdvanceRank := if m_kAdvanceRank mc =? 0 then 1 else 0;
     ThreadMap := m_ThreadMap mc;
     AccessType_kElements := m_AccessType_kElements mc;
     sizeof_bits_Element := m_sizeof_bits_Element mc;
     sizeof_AccessType := m_sizeof_AccessType mc;
     OffsetBytes := m_OffsetBytes mc;
     Gather := false;
     Permute := false;
     permute_layout := m_permute_layout mc |}.

Section Ops.
Variable mc : MatrixConfig.

(** [Params(Layout const &layout)]:
    [AffineRankN<2>(layout.stride(1), layout.stride(0))]. *)
Definition Params_ctor (layout_stride : Z * Z) : AffineRank2.Params :=
  AffineRank2.Params_ctor (Underlying mc)
                          (snd layout_stride, fst layout_stride).

Definition ctor (params : AffineRank2.Params) (pointer : Z)
           (extent : MatrixCoord) (thread_id : Z)
           (threadblock_offset : MatrixCoord) : t :=
  {| iterator_ :=
       AffineRank2.ctor (Underlying mc) params pointer
         (make_Coord (column extent) (row extent))
         thread_id
         (make_Coord (column threadblock_offset) (row threadblock_offset)) |}.

Definition set_iteration_index (index : Z) (a : t) : t :=
  {| iterator_ :=
       AffineRank2.set_iteration_index (Underlying mc) index (iterator_ a) |}.

Definition add_pointer_offset (pointer_offset : Z) (a : t) : t :=
  {| iterator_ :=
       AffineRank2.add_pointer_offset (Underlying mc) pointer_offset
                                      (iterator_ a) |}.

Definition add_tile_offset (tile_offset : MatrixCoord) (a : t) : t :=
  {| iterator_ :=
       AffineRank2.add_tile_offset (Underlying mc)
         (make_Coord (column tile_offset) (row tile_offset))
         (iterator_ a) |}.

Definition get (a : t) : Z := AffineRank2.get (Underlying mc) (iterator_ a).

Definition incr (a : t) : t :=
  {| iterator_ := AffineRank2.incr (Underlying mc) (iterator_ a) |}.

Definition clear_mask (enable : bool) (a : t) : t :=
  {| iterator_ := AffineRank2.clear_mask (Underlying mc) enable (iterator_ a) |}.

Definition enable_mask (a : t) : t :=
  {| iterator_ := AffineRank2.enable_mask (Underlying mc) (iterator_ a) |}.

Definition set_mask (mask : list Z) (a : t) : t :=
  {| iterator_ := AffineRank2.set_mask (Underlying mc) mask (iterator_ a) |}.

Definition get_mask (mask : list Z) (a : t) : list Z :=
  AffineRank2.get_mask (Underlying mc) mask (iterator_ a).

Definition valid (a : t) : bool :=
  AffineRank2.valid (Underlying mc) (iterator_ a).
End Ops.

End AffineRank2RowMajor.

(* ------------------------------------------------------------------------- *)
(** ** Driving the matrix specializations *)

Definition ColumnMajor_step (mc : MatrixConfig) (a : ColumnMajor.t)
           (op : MatrixOp) : ColumnMajor.t :=
  match op with
  | MIncr => ColumnMajor.incr mc a
  | MAddTileOffset t => ColumnMajor.add_tile_offset mc t a
  | MAddPointerOffset o => ColumnMajor.add_pointer_offset mc o a
  | MSetIterationIndex i => ColumnMajor.set_iteration_index mc i a
  | MClearMask b => ColumnMajor.clear_mask mc b a
  | MEnableMask => ColumnMajor.enable_mask mc a
  | MSetMask m => ColumnMajor.set_mask mc m a
  end.

Definition AffineRank2ColumnMajor_step (mc : MatrixConfig)
           (a : AffineRank2ColumnMajor.t) (op : MatrixOp)
  : AffineRank2ColumnMajor.t :=
  match op with
  | MIncr => AffineRank2ColumnMajor.incr mc a
  | MAddTileOffset t => AffineRank2ColumnMajor.add_tile_offset mc t a
  | MAddPointerOffset o => AffineRank2ColumnMajor.add_pointer_offset mc o a
  | MSetIterationIndex i => AffineRank2ColumnMajor.set_iteration_index mc i a
  | MClearMask b => AffineRank2ColumnMajor.clear_mask mc b a
  | MEnableMask => AffineRank2ColumnMajor.enable_mask mc a
  | MSetMask m => AffineRank2ColumnMajor.set_mask mc m a
  end.

Definition AffineRank2RowMajor_step (mc : MatrixConfig)
           (a : AffineRank2RowMajor.t) (op : MatrixOp)
  : AffineRank2RowMajor.t :=
  match op with
  | MIncr => AffineRank2RowMajor.incr mc a
  | MAddTileOffset t => AffineRank2RowMajor.add_tile_offset mc t a
  | MAddPointerOffset o => AffineRank2RowMajor.add_pointer_offset mc o a
  | MSetIterationIndex i => AffineRank2RowMajor.set_iteration_index mc i a
  | MClearMask b => AffineRank2RowMajor.clear_mask mc b a
  | MEnableMask => AffineRank2RowMajor.enable_mask mc a
  | MSetMask m => AffineRank2RowMajor.set_mask mc m a
  end.

(** The transposed problem: rows and columns exchanged in the tile, in the
    coordinates and in the direction of advance. *)
Definition transpose_coord (m : MatrixCoord) : MatrixCoord :=
  make_MatrixCoord (column m) (row m).

Definition transpose_config (mc : MatrixConfig) : MatrixConfig :=
  {| Shape_kRow := Shape_kColumn mc;
     Shape_kColumn := Shape_kRow mc;
     m_kAdvanceRank := if m_kAdvanceRank mc =? 0 then 1 else 0;
     m_ThreadMap := m_ThreadMap mc;
     m_AccessType_kElements := m_AccessType_kElements mc;
     m_sizeof_bits_Element := m_sizeof_bits_Element mc;
     m_sizeof_AccessType := m_sizeof_AccessType mc;
     m_OffsetBytes := m_OffsetBytes mc;
     m_Gather := m_Gather mc;
     m_Permute := m_Permute mc;
     m_permute_layout := m_permute_layout mc |}.

Definition transpose_op (op : MatrixOp) : MatrixOp :=
  match op with
  | MAddTileOffset t => MAddTileOffset (transpose_coord t)
  | _ => op
  end.

Definition transpose_stride (s : Z * Z) : Z * Z := (snd s, fst s).

(* ------------------------------------------------------------------------- *)
(** ** Matrix coordinates *)

(** The matrix coordinate a pitch-linear coordinate stands for: in a
    column-major matrix the contiguous axis runs down a column, so it is the
    row index; in a row-major matrix it runs along a row. *)
Definition column_major_coord (p : PitchLinearCoord) : MatrixCoord :=
  make_MatrixCoord (contiguous p) (strided p).

Definition row_major_coord (p : PitchLinearCoord) : MatrixCoord :=
  make_MatrixCoord (strided p) (contiguous p).

(** [layout::ColumnMajor::operator()], [layout::RowMajor::operator()] and
    the [operator()] of [layout::AffineRank2ColumnMajor] and
    [layout::AffineRank2RowMajor], declared in [cutlass/layout/matrix.h]:
    the offset, in elements, of a matrix coordinate.  The leading dimension
    multiplies the column of a column-major matrix and the row of a
    row-major one; the affine layouts take the inner product of the
    coordinate (row, column) with the two strides. *)
Definition ColumnMajor_offset (ld : Z) (m : MatrixCoord) : Z :=
  column m * ld + row m.

Definition RowMajor_offset (ld : Z) (m : MatrixCoord) : Z :=
  row m * ld + column m.

Definition AffineRank2_offset (stride : Z * Z) (m : MatrixCoord) : Z :=
  row m * fst stride + column m * snd stride.

(** A traversal of a matrix iterator: [operator++] and jumps by whole tiles
    along the advance axis, rows for advance rank 0 and columns
    otherwise. *)
Definition matrix_traversal (mc : MatrixConfig) (ops : list MatrixOp) : bool :=
  forallb
    (fun op =>
       match op with
       | MIncr => true
       | MAddTileOffset t =>
           if m_kAdvanceRank mc =? 0 then column t =? 0 else row t =? 0
       | _ => false
       end)
    ops.

(** The strip tile as a tile of a row-major matrix, 32 rows of 128 columns
    advancing along the columns, and as a tile of a column-major matrix,
    128 rows of 32 columns advancing along the rows. *)
Definition row_strip : MatrixConfig :=
  {| Shape_kRow := 32;
     Shape_kColumn := 128;
     m_kAdvanceRank := 1;
     m_ThreadMap := strip_map;
     m_AccessType_kElements := 1;
     m_sizeof_bits_Element := 32;
     m_sizeof_AccessType := 4;
     m_OffsetBytes := fun i => 4 * i;
     m_Gather := false;
     m_Permute := false;
     m_permute_layout := fun _ stride c => PitchLinear_offset stride c |}.

Definition column_strip : MatrixConfig :=
  {| Shape_kRow := 128;
     Shape_kColumn := 32;
     m_kAdvanceRank := 0;
     m_ThreadMap := strip_map;
     m_AccessType_kElements := 1;
     m_sizeof_bits_Element := 32;
     m_sizeof_AccessType := 4;
     m_OffsetBytes := fun i => 4 * i;
     m_Gather := false;
     m_Permute := false;
     m_permute_layout := fun _ stride c => PitchLinear_offset stride c |}.

(** A thread map with vector accesses: thread [t] of 32 starts at contiguous
    position [4 t] and reads four elements at a time, on two rows 16 apart;
    a 128 x 32 tile of 4-byte elements read through 16-byte accesses, on a
    tensor of 136 x 64 elements stored with stride 136. *)
Definition vector_map : ThreadMapT :=
  {| kElementsPerAccess := 4;
     Iterations_kContiguous := 1;
     Iterations_kStrided := 2;
     Delta_kContiguous := 128;
     Delta_kStrided := 16;
     initial_offset := fun t => make_Coord (4 * Z.rem t 32) (Z.quot t 32) |}.

Definition vector_cfg : Config :=
  {| Shape_kContiguous := 128;
     Shape_kStrided := 32;
     kAdvanceRank := 0;
     ThreadMap := vector_map;
     AccessType_kElements := 4;
     sizeof_bits_Element := 32;
     sizeof_AccessType := 16;
     OffsetBytes := fun i => 4 * i;
     Gather := false;
     Permute := false;
     permute_layout := fun _ stride c => PitchLinear_offset stride c |}.

Definition vector_params : Params :=
  {| stride_ := 136;
     inc_strided_ := 4 * (136 * 16);
     inc_next_ := 4 * 128 - 4 * (136 * 16);
     inc_advance_ := 4 * 128 |}.

Definition vector_extent : PitchLinearCoord := make_Coord 136 64.

(* ------------------------------------------------------------------------- *)
(** * Properties *)

Ltac zdiv := Z.to_euclidean_division_equations; nia.
Ltac zlin := Z.to_euclidean_division_equations; lia.

(** Decide every integer comparison in the goal. *)
Ltac cmp_step :=
  match goal with
  | |- context [?a <=? ?b] => destruct (Z.leb_spec a b)
  | |- context [?a <? ?b] => destruct (Z.ltb_spec a b)
  | |- context [?a =? ?b] => destruct (Z.eqb_spec a b)
  end.
Ltac cmp := repeat cmp_step; simpl; try reflexivity; try lia.

(** ** Loops and arrays *)

Lemma for_loop_succ {S : Type} (n : Z) (body : Z -> S -> S) (s : S) :
  0 <= n -> for_loop (n + 1) body s = body n (for_loop n body s).
Proof.
  intros Hn. unfold for_loop.
  replace (Z.to_nat (n + 1)) with (Datatypes.S (Z.to_nat n)) by lia.
  simpl. f_equal. lia.
Qed.

Lemma for_loop_nonpos {S : Type} (n : Z) (body : Z -> S -> S) (s : S) :
  n <= 0 -> for_loop n body s = s.
Proof.
  intros Hn. unfold for_loop. replace (Z.to_nat n) with O by lia. reflexivity.
Qed.

(** Induction over the trip count of a loop. *)
Lemma for_loop_ind {S : Type} (P : Z -> S -> Prop) (body : Z -> S -> S)
      (s : S) (n : Z) :
  P 0 s ->
  (forall i a, 0 <= i < n -> P i a -> P (i + 1) (body i a)) ->
  0 <= n -> P n (for_loop n body s).
Proof.
  intros H0 Hstep Hn.
  assert (forall k : nat, Z.of_nat k <= n -> P (Z.of_nat k) (for_upto k body s))
    as Hk.
  { induction k as [|k IH]; intros Hle; simpl.
    - exact H0.
    - replace (Z.of_nat (Datatypes.S k)) with (Z.of_nat k + 1) by lia.
      apply Hstep; [lia|]. apply IH. lia. }
  unfold for_loop. specialize (Hk (Z.to_nat n)).
  rewrite Z2Nat.id in Hk by lia. apply Hk. lia.
Qed.

Lemma array_set_length (a : list Z) (i x : Z) :
  length (array_set a i x) = length a.
Proof.
  unfold array_set. destruct (0 <=? i); [apply length_insert | reflexivity].
Qed.

Lemma array_get_set_eq (a : list Z) (i x : Z) :
  0 <= i < Z.of_nat (length a) -> array_get (array_set a i x) i = x.
Proof.
  intros Hi. unfold array_get, array_set.
  destruct (Z.leb_spec 0 i); [|lia].
  rewrite list_lookup_insert_eq by lia. reflexivity.
Qed.

Lemma array_get_set_ne (a : list Z) (i j x : Z) :
  i <> j -> array_get (array_set a i x) j = array_get a j.
Proof.
  intros Hne. unfold array_get, array_set.
  destruct (Z.leb_spec 0 j); [|reflexivity].
  destruct (Z.leb_spec 0 i); [|reflexivity].
  rewrite list_lookup_insert_ne by lia. reflexivity.
Qed.

Lemma array_get_out (a : list Z) (i : Z) :
  i < 0 \/ Z.of_nat (length a) <= i -> array_get a i = 0.
Proof.
  intros Hi. unfold array_get.
  destruct (Z.leb_spec 0 i); [|reflexivity].
  rewrite lookup_ge_None_2 by lia. reflexivity.
Qed.

Lemma array_set_same (a : list Z) (i : Z) :
  array_set a i (array_get a i) = a.
Proof.
  unfold array_set, array_get.
  destruct (Z.leb_spec 0 i); [|reflexivity].
  destruct (a !! Z.to_nat i) as [x|] eqn:E; simpl.
  - apply list_insert_id. exact E.
  - apply list_insert_ge. apply lookup_ge_None_1. exact E.
Qed.

(** Two arrays of the same length with the same elements are equal. *)
Lemma array_ext (a b : list Z) :
  length a = length b ->
  (forall i, 0 <= i < Z.of_nat (length a) -> array_get a i = array_get b i) ->
  a = b.
Proof.
  intros Hlen Hget. apply list_eq_same_length with (n := length a); auto.
  intros i x y Hi Hx Hy.
  specialize (Hget (Z.of_nat i) ltac:(lia)).
  unfold array_get in Hget.
  destruct (Z.leb_spec 0 (Z.of_nat i)); [|lia].
  rewrite Nat2Z.id, Hx, Hy in Hget. simpl in Hget. exact Hget.
Qed.

(** A loop that assigns [a[i] = h i a[i]] for every [i] below [n]. *)
Lemma pointwise_loop (h : Z -> Z -> Z) (n : Z) (a : list Z) :
  let r := for_loop n (fun i b => array_set b i (h i (array_get b i))) a in
  length r = length a
  /\ forall j, array_get r j =
               if (0 <=? j) && (j <? n) && (j <? Z.of_nat (length a))
               then h j (array_get a j) else array_get a j.
Proof.
  destruct (Z.le_gt_cases 0 n) as [Hn|Hn].
  2:{ simpl. rewrite for_loop_nonpos by lia. split; [reflexivity|].
      intros j. cmp. }
  apply (for_loop_ind
           (fun m r => length r = length a
              /\ forall j, array_get r j =
                   if (0 <=? j) && (j <? m) && (j <? Z.of_nat (length a))
                   then h j (array_get a j) else array_get a j)); [| |exact Hn].
  - split; [reflexivity|]. intros j. cmp.
  - intros i b Hi [Hlen Hget]. split.
    + rewrite array_set_length. exact Hlen.
    + intros j. destruct (Z.eq_dec i j) as [->|Hne].
      * destruct (Z.lt_ge_cases j (Z.of_nat (length a))).
        -- rewrite array_get_set_eq by lia. rewrite Hget. cmp.
        -- rewrite (array_get_out (array_set _ _ _)), (array_get_out a);
             rewrite ?array_set_length; try lia.
           cmp.
      * rewrite array_get_set_ne by exact Hne. rewrite Hget. cmp.
Qed.

(** ** Predicate words *)

Lemma u32_testbit (x i : Z) :
  Z.testbit (u32 x) i = (i <? 32) && Z.testbit x i.
Proof. unfold u32. apply Z.testbit_mod_pow2. lia. Qed.

Lemma shiftl_b2z_testbit (g : bool) (pos i : Z) :
  0 <= pos -> Z.testbit (Z.shiftl (Z.b2z g) pos) i = g && (i =? pos).
Proof.
  intros Hpos. destruct (Z.lt_ge_cases i 0) as [Hi|Hi].
  - rewrite Z.testbit_neg_r by exact Hi.
    destruct (Z.eqb_spec i pos); [lia|]. rewrite andb_false_r. reflexivity.
  - rewrite Z.shiftl_spec by exact Hi. destruct g; simpl.
    + change 1 with (2 ^ 0). rewrite Z.pow2_bits_eqb by lia.
      destruct (Z.eqb_spec 0 (i - pos)), (Z.eqb_spec i pos);
        try reflexivity; lia.
    + apply Z.bits_0.
Qed.

(** Testing a word against a one-bit mask reads that bit. *)
Lemma mask_test_testbit (w pos : Z) :
  pos < 32 ->
  negb (Z.land w (u32 (Z.shiftl 1 pos)) =? 0) = Z.testbit w pos.
Proof.
  intros Hpos. rewrite Z.shiftl_1_l.
  destruct (Z.lt_ge_cases pos 0) as [Hneg|Hnn].
  - rewrite Z.pow_neg_r by exact Hneg. unfold u32. rewrite Z.mod_0_l by lia.
    rewrite Z.land_0_r, Z.testbit_neg_r by exact Hneg. reflexivity.
  - assert (u32 (2 ^ pos) = 2 ^ pos) as ->.
    { unfold u32. apply Z.mod_small. split; [lia|].
      apply Z.pow_lt_mono_r; lia. }
    destruct (Z.testbit w pos) eqn:Hb.
    + destruct (Z.eqb_spec (Z.land w (2 ^ pos)) 0) as [E|E]; [|reflexivity].
      assert (Z.testbit (Z.land w (2 ^ pos)) pos = true) as Hc.
      { rewrite Z.land_spec, Hb, Z.pow2_bits_true by lia. reflexivity. }
      rewrite E, Z.bits_0 in Hc. discriminate.
    + assert (Z.land w (2 ^ pos) = 0) as ->; [|reflexivity].
      apply Z.bits_inj'. intros k Hk.
      rewrite Z.land_spec, Z.bits_0, Z.pow2_bits_eqb by lia.
      destruct (Z.eqb_spec pos k) as [<-|]; [rewrite Hb|rewrite andb_false_r];
        reflexivity.
Qed.

Lemma pred_bit_pos_range (i : Z) :
  0 <= i -> 0 <= UnderlyingPredicates.pred_bit_pos i < 32.
Proof.
  intros Hi. unfold UnderlyingPredicates.pred_bit_pos, kPredicatesPerWord,
    kPredicatesPerByte. zlin.
Qed.

Lemma pred_bit_pos_bound (i : Z) : UnderlyingPredicates.pred_bit_pos i < 32.
Proof.
  unfold UnderlyingPredicates.pred_bit_pos, kPredicatesPerWord,
    kPredicatesPerByte. zlin.
Qed.

(** On non-negative indices the C++ quotients are the floor ones. *)
Lemma pred_word_idx_div (i : Z) :
  0 <= i -> UnderlyingPredicates.pred_word_idx i = i / 16.
Proof.
  intros Hi. unfold UnderlyingPredicates.pred_word_idx, kPredicatesPerWord,
    kPredicatesPerByte. zlin.
Qed.

Lemma pred_bit_pos_div (i : Z) :
  0 <= i ->
  UnderlyingPredicates.pred_bit_pos i = (i mod 16 / 4) * 8 + i mod 4.
Proof.
  intros Hi. unfold UnderlyingPredicates.pred_bit_pos, kPredicatesPerWord,
    kPredicatesPerByte. zlin.
Qed.

(** A predicate index is determined by its word and its bit position. *)
Lemma pred_slot_inj (i j : Z) :
  0 <= i -> 0 <= j ->
  UnderlyingPredicates.pred_word_idx i = UnderlyingPredicates.pred_word_idx j ->
  UnderlyingPredicates.pred_bit_pos i = UnderlyingPredicates.pred_bit_pos j ->
  i = j.
Proof.
  intros Hi Hj. rewrite !pred_word_idx_div, !pred_bit_pos_div by assumption.
  intros Hw Hb. zlin.
Qed.

(** Only the low four bits of every byte are used. *)
Lemma pred_bit_pos_low (i : Z) :
  0 <= i -> UnderlyingPredicates.pred_bit_pos i mod 8 < 4.
Proof.
  intros Hi. rewrite pred_bit_pos_div by assumption. zlin.
Qed.

(** The filling loop, over an arbitrary guard per predicate index. *)
Lemma or_loop (g : Z -> bool) (n : Z) (a0 : list Z) :
  (forall j, array_get a0 j = 0) ->
  0 <= n -> n <= 16 * Z.of_nat (length a0) ->
  let r :=
    for_loop n
      (fun i a =>
         array_set a (UnderlyingPredicates.pred_word_idx i)
           (u32 (Z.lor (array_get a (UnderlyingPredicates.pred_word_idx i))
                       (u32 (Z.shiftl (Z.b2z (g i))
                                      (UnderlyingPredicates.pred_bit_pos i))))))
      a0 in
  length r = length a0
  /\ forall w b,
       Z.testbit (array_get r w) b = true <->
       exists i, 0 <= i < n
                 /\ UnderlyingPredicates.pred_word_idx i = w
                 /\ UnderlyingPredicates.pred_bit_pos i = b
                 /\ g i = true.
Proof.
  intros Hzero Hn Hlen. simpl.
  apply (for_loop_ind
           (fun m r => length r = length a0
              /\ forall w b,
                   Z.testbit (array_get r w) b = true <->
                   exists i, 0 <= i < m
                     /\ UnderlyingPredicates.pred_word_idx i = w
                     /\ UnderlyingPredicates.pred_bit_pos i = b
                     /\ g i = true)); [| |exact Hn].
  - split; [reflexivity|]. intros w b. rewrite Hzero, Z.bits_0. split.
    + discriminate.
    + intros (i & Hi & _). lia.
  - intros i a Hi [Hl Hinv]. split; [rewrite array_set_length; exact Hl|].
    intros w b.
    destruct (Z.eq_dec (UnderlyingPredicates.pred_word_idx i) w) as [Hw|Hw].
    + subst w. rewrite array_get_set_eq.
      2:{ rewrite Hl, pred_word_idx_div by lia. zlin. }
      rewrite u32_testbit, Z.lor_spec, u32_testbit, shiftl_b2z_testbit
        by (apply pred_bit_pos_range; lia).
      split.
      * intros H. apply andb_true_iff in H as [_ H].
        apply orb_true_iff in H as [H|H].
        -- apply Hinv in H as (j & Hj & Hjw & Hjb & Hg).
           exists j. repeat split; auto; lia.
        -- apply andb_true_iff in H as [_ H].
           apply andb_true_iff in H as [Hg H].
           apply Z.eqb_eq in H. exists i. repeat split; auto; lia.
      * intros (j & Hj & Hjw & Hjb & Hg).
        assert (b < 32) as Hb by (subst b; apply pred_bit_pos_bound).
        destruct (Z.ltb_spec b 32); [simpl|lia].
        destruct (Z.eq_dec j i) as [->|Hne].
        -- rewrite Hg. subst b. rewrite Z.eqb_refl. apply orb_true_r.
        -- apply orb_true_iff. left. apply Hinv. exists j.
           repeat split; auto; lia.
    + rewrite array_get_set_ne by exact Hw. rewrite Hinv. split.
      * intros (j & Hj & Hjw & Hjb & Hg). exists j. repeat split; auto; lia.
      * intros (j & Hj & Hjw & Hjb & Hg).
        destruct (Z.eq_dec j i) as [->|Hne]; [contradiction|].
        exists j. repeat split; auto; lia.
Qed.

Lemma for_loop_ext {S : Type} (n : Z) (body1 body2 : Z -> S -> S) (s : S) :
  (forall i a, 0 <= i < n -> body1 i a = body2 i a) ->
  for_loop n body1 s = for_loop n body2 s.
Proof.
  intros Hext. destruct (Z.le_gt_cases 0 n) as [Hn|Hn].
  - apply (for_loop_ind (fun m a => a = for_loop m body2 s)); auto.
    intros i a Hi ->. rewrite for_loop_succ by lia. apply Hext. exact Hi.
  - rewrite !for_loop_nonpos by lia. reflexivity.
Qed.

(** ** Access indices and cursors *)

Section AccessIndex.

Variable cfg : Config.

Let APV := UnderlyingPredicates.kAccessesPerVector cfg.
Let IC := Iterations_kContiguous (ThreadMap cfg).
Let IS := Iterations_kStrided (ThreadMap cfg).

(** The decomposition of an access index made by [compute_predicates_]. *)
Lemma access_decompose (i : Z) :
  0 < APV -> 0 < IC -> 0 <= i ->
  let s := Z.quot i (IC * APV) in
  let r := Z.rem i (IC * APV) in
  let c := Z.quot r APV in
  let v := Z.rem r APV in
  v + APV * (c + IC * s) = i
  /\ 0 <= v < APV /\ 0 <= c < IC /\ 0 <= s
  /\ (i < IC * IS * APV -> s < IS).
Proof.
  intros HA HC Hi. simpl.
  assert (0 < IC * APV) as Hp by nia.
  rewrite (Z.quot_div_nonneg i), (Z.rem_mod_nonneg i) by lia.
  pose proof (Z.mod_pos_bound i (IC * APV) Hp) as Hr.
  pose proof (Z.div_mod i (IC * APV) ltac:(lia)) as Hdm.
  set (r := i mod (IC * APV)) in *.
  set (s := i / (IC * APV)) in *.
  rewrite (Z.quot_div_nonneg r), (Z.rem_mod_nonneg r) by lia.
  pose proof (Z.mod_pos_bound r APV HA) as Hv.
  pose proof (Z.div_mod r APV ltac:(lia)) as Hdr.
  set (v := r mod APV) in *.
  set (c := r / APV) in *.
  assert (0 <= s) by (apply Z.div_pos; lia).
  assert (0 <= c) by (apply Z.div_pos; lia).
  repeat split; try lia; try nia.
Qed.

(** The linear index of a cursor, and the cursor it decomposes into. *)
Lemma access_compose (v c s : Z) :
  cursor_in_range cfg v c s ->
  let i := v + APV * (c + IC * s) in
  0 <= i < IC * IS * APV
  /\ Z.quot i (IC * APV) = s
  /\ Z.quot (Z.rem i (IC * APV)) APV = c
  /\ Z.rem (Z.rem i (IC * APV)) APV = v.
Proof.
  intros (Hv & Hc & Hs). change (0 <= v < APV) in Hv.
  change (0 <= c < IC) in Hc. change (0 <= s < IS) in Hs. simpl.
  assert (0 <= IC * s) as Hcs by (apply Z.mul_nonneg_nonneg; lia).
  assert (0 <= APV * (c + IC * s)) as Has
    by (apply Z.mul_nonneg_nonneg; lia).
  assert (0 <= v + APV * (c + IC * s)) as Hi by lia.
  assert (0 < IC * APV) as Hp by (apply Z.mul_pos_pos; lia).
  assert (0 <= APV * c) as Hac by (apply Z.mul_nonneg_nonneg; lia).
  assert (APV * c <= APV * (IC - 1)) as Hac'
    by (apply Z.mul_le_mono_nonneg_l; lia).
  assert (0 <= v + APV * c < IC * APV) as Hr by lia.
  rewrite (Z.quot_div_nonneg (v + _)), (Z.rem_mod_nonneg (v + _)) by lia.
  replace (v + APV * (c + IC * s)) with ((v + APV * c) + s * (IC * APV))
    by ring.
  rewrite Z.div_add, Z.mod_add by lia.
  rewrite Z.div_small, Z.mod_small by lia.
  rewrite Z.quot_div_nonneg, Z.rem_mod_nonneg by lia.
  replace (v + APV * c) with (v + c * APV) by ring.
  rewrite Z.div_add, Z.mod_add by lia.
  rewrite Z.div_small, Z.mod_small by lia.
  repeat split; try lia; nia.
Qed.

Lemma cursor_index_inj (v c s v' c' s' : Z) :
  cursor_in_range cfg v c s -> cursor_in_range cfg v' c' s' ->
  v + APV * (c + IC * s) = v' + APV * (c' + IC * s') ->
  v = v' /\ c = c' /\ s = s'.
Proof.
  intros H1 H2 E.
  destruct (access_compose _ _ _ H1) as (_ & Hs & Hc & Hv).
  destruct (access_compose _ _ _ H2) as (_ & Hs' & Hc' & Hv').
  simpl in *. rewrite E in Hs, Hc, Hv. repeat split; congruence.
Qed.

Lemma word_count_covers :
  0 <= UnderlyingPredicates.kPredicateCount cfg ->
  UnderlyingPredicates.kPredicateCount cfg
  <= 16 * UnderlyingPredicates.kPredicateWordCount cfg.
Proof.
  unfold UnderlyingPredicates.kPredicateWordCount,
    UnderlyingPredicates.kPredicateByteCount, kPredicatesPerByte.
  intros H. zlin.
Qed.

(** ** What [compute_predicates_] stores *)

Lemma compute_predicates_frame (extent : PitchLinearCoord) (ss : bool)
      (p : Predicates) :
  let p' := UnderlyingPredicates.compute_predicates_ cfg extent ss p in
  extent_ p' = extent_ p
  /\ thread_offset_ p' = thread_offset_ p
  /\ residue_offset_ p' = residue_offset_ p
  /\ cursor_of p' = cursor_of p
  /\ compute_predicates_calls p' = Datatypes.S (compute_predicates_calls p).
Proof. simpl. repeat split. Qed.

Lemma compute_predicates_bits (extent : PitchLinearCoord) (ss : bool)
      (p : Predicates) :
  config_positive cfg -> mask_sized cfg (predicates_ p) ->
  let p' := UnderlyingPredicates.compute_predicates_ cfg extent ss p in
  mask_sized cfg (predicates_ p')
  /\ forall w b,
       Z.testbit (array_get (predicates_ p') w) b = true <->
       exists v c s,
         cursor_in_range cfg v c s
         /\ UnderlyingPredicates.pred_word_idx (v + APV * (c + IC * s)) = w
         /\ UnderlyingPredicates.pred_bit_pos (v + APV * (c + IC * s)) = b
         /\ UnderlyingPredicates.guard_of cfg
              (UnderlyingPredicates.access_coord cfg (thread_offset_ p) v c s)
              extent ss = true.
Proof.
  intros (HA & HC & HS) Hsz. fold APV in HA. fold IC in HC. fold IS in HS.
  unfold mask_sized in Hsz.
  unfold UnderlyingPredicates.compute_predicates_. simpl.
  set (zeroed := for_loop _ _ (predicates_ p)).
  destruct (pointwise_loop (fun _ _ => 0)
              (UnderlyingPredicates.kPredicateWordCount cfg) (predicates_ p))
    as [Hzl Hzg]. fold zeroed in Hzl, Hzg.
  assert (forall j, array_get zeroed j = 0) as Hzero.
  { intros j. rewrite Hzg.
    destruct (Z.leb_spec 0 j), (Z.ltb_spec j (Z.of_nat (length (predicates_ p))));
      simpl; rewrite ?andb_false_r; try (apply array_get_out; lia).
    destruct (Z.ltb_spec j (UnderlyingPredicates.kPredicateWordCount cfg));
      [reflexivity|lia]. }
  set (g := fun i =>
              let s := Z.quot i (IC * APV) in
              let r := Z.rem i (IC * APV) in
              UnderlyingPredicates.guard_of cfg
                (UnderlyingPredicates.access_coord cfg (thread_offset_ p)
                   (Z.rem r APV) (Z.quot r APV) s) extent ss).
  assert (0 <= UnderlyingPredicates.kPredicateCount cfg) as Hcnt.
  { unfold UnderlyingPredicates.kPredicateCount,
      UnderlyingPredicates.Iterations_kCount. fold APV IC IS. nia. }
  pose proof (word_count_covers Hcnt) as Hcov.
  unfold UnderlyingPredicates.kPredicateCount in Hcnt, Hcov.
  rewrite (for_loop_ext _ _
             (fun i a =>
                array_set a (UnderlyingPredicates.pred_word_idx i)
                  (u32 (Z.lor
                          (array_get a (UnderlyingPredicates.pred_word_idx i))
                          (u32 (Z.shiftl (Z.b2z (g i))
                                  (UnderlyingPredicates.pred_bit_pos i))))))).
  2:{ intros i a Hi. unfold UnderlyingPredicates.compute_predicates_body.
      fold APV IC.
      destruct (access_decompose i HA HC ltac:(lia)) as (E & _).
      simpl in E. rewrite E. reflexivity. }
  match goal with
  | |- context [for_loop ?n ?b zeroed] =>
      pose proof (or_loop g n zeroed Hzero Hcnt ltac:(lia)) as Hor;
      set (filled := for_loop n b zeroed) in *
  end.
  destruct Hor as [Hl Hbits].
  split.
  - unfold mask_sized. rewrite Hl, Hzl. exact Hsz.
  - intros w b. rewrite Hbits. split.
    + intros (i & Hi & Hw & Hb & Hg).
      destruct (access_decompose i HA HC ltac:(lia)) as (E & Hv & Hc & Hs & Hlt).
      simpl in E, Hv, Hc, Hs, Hlt.
      eexists _, _, _. split; [|rewrite E; repeat split; eauto].
      unfold cursor_in_range. fold APV IC IS.
      unfold UnderlyingPredicates.Iterations_kCount in Hi. fold IC IS in Hi.
      repeat split; try lia; apply Hlt; lia.
    + intros (v & c & s & Hin & Hw & Hb & Hg).
      destruct (access_compose _ _ _ Hin) as (Hi & Es & Ec & Ev).
      simpl in Hi, Es, Ec, Ev.
      exists (v + APV * (c + IC * s)). repeat split; auto.
      * lia.
      * unfold UnderlyingPredicates.Iterations_kCount. fold IC IS. lia.
      * unfold g. simpl. rewrite Es, Ec, Ev. exact Hg.
Qed.

(** [valid] reads the bit of the current cursor. *)
Lemma valid_reads_bit (p : Predicates) :
  UnderlyingPredicates.valid cfg p =
  Z.testbit
    (array_get (predicates_ p)
       (UnderlyingPredicates.pred_word_idx
          (UnderlyingPredicates.pred_idx_of cfg (iteration_vector_ p)
             (iteration_contiguous_ p) (iteration_strided_ p))))
    (UnderlyingPredicates.pred_bit_pos
       (UnderlyingPredicates.pred_idx_of cfg (iteration_vector_ p)
          (iteration_contiguous_ p) (iteration_strided_ p))).
Proof.
  unfold UnderlyingPredicates.valid. apply mask_test_testbit.
  apply pred_bit_pos_bound.
Qed.

Lemma pred_idx_of_eq (v c s : Z) :
  UnderlyingPredicates.pred_idx_of cfg v c s = v + APV * (c + IC * s).
Proof. unfold UnderlyingPredicates.pred_idx_of. fold APV IC. ring. Qed.

(** After a recomputation, [valid] at an in-range cursor is the guard of that
    access. *)
Lemma valid_after_compute (extent : PitchLinearCoord) (ss : bool)
      (p : Predicates) (v c s : Z) :
  config_positive cfg -> mask_sized cfg (predicates_ p) ->
  cursor_in_range cfg v c s ->
  UnderlyingPredicates.valid cfg
    (with_cursor v c s
       (UnderlyingPredicates.compute_predicates_ cfg extent ss p))
  = UnderlyingPredicates.guard_of cfg
      (UnderlyingPredicates.access_coord cfg (thread_offset_ p) v c s)
      extent ss.
Proof.
  intros Hpos Hsz Hin.
  destruct (compute_predicates_bits extent ss p Hpos Hsz) as [_ Hbits].
  rewrite valid_reads_bit. cbn [with_cursor predicates_ iteration_vector_
    iteration_contiguous_ iteration_strided_].
  rewrite pred_idx_of_eq.
  apply eq_true_iff_eq. rewrite Hbits. split.
  - intros (v' & c' & s' & Hin' & Hw & Hb & Hg).
    destruct (access_compose _ _ _ Hin) as (Hi & _).
    destruct (access_compose _ _ _ Hin') as (Hi' & _).
    simpl in Hi, Hi'.
    assert (v' + APV * (c' + IC * s') = v + APV * (c + IC * s)) as E
      by (apply pred_slot_inj; [lia|lia|exact Hw|exact Hb]).
    destruct (cursor_index_inj _ _ _ _ _ _ Hin' Hin E) as (-> & -> & ->).
    exact Hg.
  - intros Hg. exists v, c, s. repeat split; auto; apply Hin.
Qed.

End AccessIndex.

(** ** The cursor under [operator++] *)

Section IteratorFacts.

Variable cfg : Config.

Lemma incr_frame (it : Iterator) :
  frame_of (PitchLinear.incr cfg it) = frame_of it.
Proof.
  unfold PitchLinear.incr, UnderlyingPredicates.incr.
  repeat match goal with
         | |- context [if ?b then _ else _] => destruct b
         end; reflexivity.
Qed.

Lemma incr_cursor (it : Iterator) :
  cursor_of (the_predicates (PitchLinear.incr cfg it))
  = next_cursor cfg (cursor_of (the_predicates it)).
Proof.
  unfold PitchLinear.incr, UnderlyingPredicates.incr, next_cursor, cursor_of,
    PitchLinear.kAccessesPerVector, UnderlyingPredicates.kAccessesPerVector.
  repeat match goal with
         | |- context [if ?b then _ else _] => destruct b
         end; reflexivity.
Qed.

Lemma next_cursor_in_range (v c s : Z) :
  config_positive cfg -> cursor_in_range cfg v c s ->
  let '(v', c', s') := next_cursor cfg (v, c, s) in
  cursor_in_range cfg v' c' s'.
Proof.
  intros (HA & HC & HS) (Hv & Hc & Hs). unfold next_cursor, cursor_in_range.
  repeat cmp_step; lia.
Qed.

Lemma incr_cursor_ok (it : Iterator) :
  config_positive cfg -> cursor_ok cfg it ->
  cursor_ok cfg (PitchLinear.incr cfg it).
Proof.
  intros Hpos Hok. unfold cursor_ok in *.
  pose proof (incr_cursor it) as E. unfold cursor_of in E.
  pose proof (next_cursor_in_range _ _ _ Hpos Hok) as Hn.
  rewrite <- E in Hn. exact Hn.
Qed.

Lemma advance_succ (k : nat) (it : Iterator) :
  advance cfg (Datatypes.S k) it = PitchLinear.incr cfg (advance cfg k it).
Proof. reflexivity. Qed.

Lemma advance_frame (k : nat) (it : Iterator) :
  frame_of (advance cfg k it) = frame_of it.
Proof.
  induction k as [|k IH]; [reflexivity|].
  rewrite advance_succ, incr_frame. exact IH.
Qed.

Lemma advance_cursor_ok (k : nat) (it : Iterator) :
  config_positive cfg -> cursor_ok cfg it -> cursor_ok cfg (advance cfg k it).
Proof.
  intros Hpos Hok. induction k as [|k IH]; [exact Hok|].
  rewrite advance_succ. apply incr_cursor_ok; assumption.
Qed.

(** The constructor leaves the cursor at the first access. *)
Lemma ctor_cursor (params : Params) (pointer : Z) (extent : PitchLinearCoord)
      (thread_id : Z) (tb : PitchLinearCoord) (indices : Z -> Z) :
  cursor_of (the_predicates
               (PitchLinear.ctor cfg params pointer extent thread_id tb
                                 indices))
  = (0, 0, 0).
Proof.
  unfold PitchLinear.ctor.
  destruct (PitchLinear.fast_path cfg); [reflexivity|].
  destruct (negb (Permute cfg)); reflexivity.
Qed.

Lemma ctor_cursor_ok (params : Params) (pointer : Z)
      (extent : PitchLinearCoord) (thread_id : Z) (tb : PitchLinearCoord)
      (indices : Z -> Z) :
  config_positive cfg ->
  cursor_ok cfg (PitchLinear.ctor cfg params pointer extent thread_id tb
                                  indices).
Proof.
  intros (HA & HC & HS). unfold cursor_ok.
  pose proof (ctor_cursor params pointer extent thread_id tb indices) as E.
  unfold cursor_of in E. injection E as -> -> ->.
  unfold cursor_in_range. lia.
Qed.

(** [valid] depends on the predicate words and the cursor only. *)
Lemma valid_with_cursor (p q : Predicates) :
  predicates_ p = predicates_ q ->
  UnderlyingPredicates.valid cfg p
  = UnderlyingPredicates.valid
      cfg (with_cursor (iteration_vector_ p) (iteration_contiguous_ p)
                       (iteration_strided_ p) q).
Proof.
  intros E. unfold UnderlyingPredicates.valid. simpl. rewrite E. reflexivity.
Qed.

End IteratorFacts.

(* ------------------------------------------------------------------------- *)
(** * Properties of the specification *)

Lemma pred_word_in_array (cfg : Config) (v c s : Z) :
  cursor_in_range cfg v c s ->
  0 <= UnderlyingPredicates.pred_word_idx
         (UnderlyingPredicates.pred_idx_of cfg v c s)
    < UnderlyingPredicates.kPredicateWordCount cfg.
Proof.
  intros Hin. rewrite pred_idx_of_eq.
  destruct (access_compose cfg _ _ _ Hin) as (Hi & _). simpl in Hi.
  rewrite pred_word_idx_div by lia.
  assert (0 <= UnderlyingPredicates.kPredicateCount cfg) as Hc.
  { unfold UnderlyingPredicates.kPredicateCount,
      UnderlyingPredicates.Iterations_kCount. lia. }
  pose proof (word_count_covers cfg Hc) as Hcov.
  unfold UnderlyingPredicates.kPredicateCount,
    UnderlyingPredicates.Iterations_kCount in Hcov.
  zlin.
Qed.

(** C10.  Cursor invariant.  The constructor leaves the cursor at
    (0, 0, 0) because [set_predicates] ends with [set_iteration_index(0)]:
    this holds whatever the members held before, which the constructor of
    the predicates does not initialise.  [operator++] keeps every cursor
    that names an access of the tile inside the tile,
    [0 <= iteration_vector < kAccessesPerVector],
    [0 <= iteration_contiguous < Iterations::kContiguous] and
    [0 <= iteration_strided < Iterations::kStrided], so that this holds
    after construction and any number of applications; from the last access
    of a tile, in any state, it wraps the cursor to (0, 0, 0); and for a
    cursor inside the tile the word that [valid] reads lies inside the
    predicate array. *)
Theorem cursor_stays_in_tile (cfg : Config) (params : Params) (pointer : Z)
        (extent : PitchLinearCoord) (thread_id : Z) (tb : PitchLinearCoord)
        (indices : Z -> Z) (k : nat) (p0 : Predicates) (it1 : Iterator) :
  config_positive cfg ->
  let it0 :=
    PitchLinear.ctor cfg params pointer extent thread_id tb indices in
  let it := advance cfg k it0 in
  let p := the_predicates it in
  let p1 := the_predicates it1 in
  cursor_of (UnderlyingPredicates.set_predicates cfg thread_id tb p0)
  = (0, 0, 0)
  /\ cursor_of (the_predicates it0) = (0, 0, 0)
  /\ cursor_in_range cfg (iteration_vector_ p) (iteration_contiguous_ p)
                     (iteration_strided_ p)
  /\ (cursor_of p
      = (UnderlyingPredicates.kAccessesPerVector cfg - 1,
         Iterations_kContiguous (ThreadMap cfg) - 1,
         Iterations_kStrided (ThreadMap cfg) - 1) ->
      cursor_of (the_predicates (PitchLinear.incr cfg it)) = (0, 0, 0))
  /\ 0 <= UnderlyingPredicates.pred_word_idx
            (UnderlyingPredicates.pred_idx_of
               cfg (iteration_vector_ p) (iteration_contiguous_ p)
               (iteration_strided_ p))
       < UnderlyingPredicates.kPredicateWordCount cfg
  /\ (cursor_ok cfg it1 -> cursor_ok cfg (PitchLinear.incr cfg it1))
  /\ (cursor_of p1
      = (UnderlyingPredicates.kAccessesPerVector cfg - 1,
         Iterations_kContiguous (ThreadMap cfg) - 1,
         Iterations_kStrided (ThreadMap cfg) - 1) ->
      cursor_of (the_predicates (PitchLinear.incr cfg it1)) = (0, 0, 0))
  /\ (cursor_ok cfg it1 ->
      0 <= UnderlyingPredicates.pred_word_idx
             (UnderlyingPredicates.pred_idx_of
                cfg (iteration_vector_ p1) (iteration_contiguous_ p1)
                (iteration_strided_ p1))
        < UnderlyingPredicates.kPredicateWordCount cfg).
Proof.
  intros Hpos it0 it p p1.
  assert (cursor_ok cfg it) as Hok
    by (apply advance_cursor_ok, ctor_cursor_ok; assumption).
  assert (forall j : Iterator,
             cursor_of (the_predicates j)
             = (UnderlyingPredicates.kAccessesPerVector cfg - 1,
                Iterations_kContiguous (ThreadMap cfg) - 1,
                Iterations_kStrided (ThreadMap cfg) - 1) ->
             cursor_of (the_predicates (PitchLinear.incr cfg j)) = (0, 0, 0))
    as Hwrap.
  { intros j E. rewrite incr_cursor, E. unfold next_cursor.
    repeat cmp_step; try reflexivity; lia. }
  split; [reflexivity|]. split; [apply ctor_cursor|]. split; [exact Hok|].
  split; [apply Hwrap|].
  split; [apply pred_word_in_array; exact Hok|].
  split; [intros H1; apply incr_cursor_ok; assumption|].
  split; [apply Hwrap|].
  intros H1. apply pred_word_in_array. exact H1.
Qed.

Lemma cursor_stays_in_tile_witness :
  config_positive strip_cfg
  /\ cursor_in_range strip_cfg
       (iteration_vector_
          (the_predicates
             (advance strip_cfg 11
                (PitchLinear.ctor strip_cfg strip_params 4096 strip_extent 5
                                  origin null_indices))))
       (iteration_contiguous_
          (the_predicates
             (advance strip_cfg 11
                (PitchLinear.ctor strip_cfg strip_params 4096 strip_extent 5
                                  origin null_indices))))
       (iteration_strided_
          (the_predicates
             (advance strip_cfg 11
                (PitchLinear.ctor strip_cfg strip_params 4096 strip_extent 5
                                  origin null_indices))))
  /\ cursor_of (the_predicates (advance strip_cfg 7 strip_it)) = (0, 3, 1)
  /\ cursor_of
       (the_predicates
          (PitchLinear.incr strip_cfg (advance strip_cfg 7 strip_it)))
     = (0, 0, 0).
Proof.
  assert (config_positive strip_cfg) as H1 by (repeat split).
  assert (cursor_of (the_predicates (advance strip_cfg 7 strip_it))
          = (0, 3, 1)) as H2 by reflexivity.
  refine (conj H1 _).
  destruct (cursor_stays_in_tile
              strip_cfg strip_params 4096 strip_extent 5 origin null_indices
              11 (UnderlyingPredicates.Predicates_ctor strip_cfg strip_extent)
              (advance strip_cfg 7 strip_it) H1)
    as (_ & _ & Hrange & _ & _ & _ & Hwrap & _).
  exact (conj Hrange (conj H2 (Hwrap H2))).
Defined.

(** C6.  Bit-packing contract: after a recomputation the predicate of the
    access (v, c, s) is the bit with linear index
    [v + kAccessesPerVector * (c + Iterations::kContiguous * s)], kept in
    word [index / 16] at bit position [byte * 8 + bit] with
    [byte = (index mod 16) / 4] and [bit = index mod 4]; only the low four
    bits of every byte of a 32-bit word are used; and [valid], in any state
    with that cursor, reads exactly that bit of the words held. *)
Theorem predicate_bit_packing (cfg : Config) (extent : PitchLinearCoord)
        (is_steady_state : bool) (p : Predicates) (v c s : Z) :
  config_positive cfg -> mask_sized cfg (predicates_ p) ->
  cursor_in_range cfg v c s ->
  let p' :=
    UnderlyingPredicates.compute_predicates_ cfg extent is_steady_state p in
  let idx :=
    v + UnderlyingPredicates.kAccessesPerVector cfg
        * (c + Iterations_kContiguous (ThreadMap cfg) * s) in
  let word_idx := idx / 16 in
  let byte_idx := idx mod 16 / 4 in
  let bit_idx := idx mod 4 in
  Z.testbit (array_get (predicates_ p') word_idx) (byte_idx * 8 + bit_idx)
  = UnderlyingPredicates.guard_of
      cfg (UnderlyingPredicates.access_coord cfg (thread_offset_ p) v c s)
      extent is_steady_state
  /\ 0 <= word_idx < UnderlyingPredicates.kPredicateWordCount cfg
  /\ (forall w b, 4 <= b mod 8 \/ 32 <= b ->
                  Z.testbit (array_get (predicates_ p') w) b = false)
  /\ (forall q, cursor_of q = (v, c, s) ->
                UnderlyingPredicates.valid cfg q
                = Z.testbit (array_get (predicates_ q) word_idx)
                            (byte_idx * 8 + bit_idx)).
Proof.
  intros Hpos Hsz Hin p' idx word_idx byte_idx bit_idx.
  destruct (access_compose cfg _ _ _ Hin) as (Hi & _). simpl in Hi.
  fold idx in Hi.
  assert (UnderlyingPredicates.pred_idx_of cfg v c s = idx) as Eidx
    by apply pred_idx_of_eq.
  assert (UnderlyingPredicates.pred_word_idx idx = word_idx) as Ew
    by (apply pred_word_idx_div; lia).
  assert (UnderlyingPredicates.pred_bit_pos idx = byte_idx * 8 + bit_idx)
    as Eb by (apply pred_bit_pos_div; lia).
  assert (forall q, cursor_of q = (v, c, s) ->
                    UnderlyingPredicates.valid cfg q
                    = Z.testbit (array_get (predicates_ q) word_idx)
                                (byte_idx * 8 + bit_idx)) as Hread.
  { intros q Hq. unfold cursor_of in Hq. injection Hq as Hv Hc Hs.
    rewrite valid_reads_bit, Hv, Hc, Hs, Eidx, Ew, Eb. reflexivity. }
  destruct (compute_predicates_bits cfg extent is_steady_state p Hpos Hsz)
    as [_ Hbits]. fold p' in Hbits.
  repeat split.
  - pose proof (Hread (with_cursor v c s p') eq_refl) as Hr.
    cbn [predicates_ with_cursor] in Hr. rewrite <- Hr.
    apply valid_after_compute; assumption.
  - rewrite <- Ew, <- Eidx. apply pred_word_in_array. exact Hin.
  - rewrite <- Ew, <- Eidx. apply pred_word_in_array. exact Hin.
  - intros w b Hb.
    destruct (Z.testbit (array_get (predicates_ p') w) b) eqn:E;
      [|reflexivity].
    apply Hbits in E as (v' & c' & s' & Hin' & _ & Hpos' & _).
    destruct (access_compose cfg _ _ _ Hin') as (Hi' & _). simpl in Hi'.
    pose proof (pred_bit_pos_low _ (proj1 Hi')) as Hlow.
    pose proof (pred_bit_pos_bound
                  (v' + UnderlyingPredicates.kAccessesPerVector cfg
                        * (c' + Iterations_kContiguous (ThreadMap cfg) * s')))
      as Hhigh.
    rewrite Hpos' in Hlow, Hhigh. lia.
  - exact Hread.
Qed.

(** C5.  Steady-state asymmetry: after a recomputation with the steady-state
    flag set, the predicate of every access is the bounds check of one axis
    only: the strided coordinate against the strided extent for advance
    rank 0, the contiguous coordinate against the contiguous extent
    otherwise.  The advance-rank axis is not checked. *)
Theorem steady_state_checks_one_axis (cfg : Config)
        (extent : PitchLinearCoord) (p : Predicates) (v c s : Z) :
  config_positive cfg -> mask_sized cfg (predicates_ p) ->
  cursor_in_range cfg v c s ->
  let coord :=
    UnderlyingPredicates.access_coord cfg (thread_offset_ p) v c s in
  UnderlyingPredicates.valid
    cfg (with_cursor v c s
           (UnderlyingPredicates.compute_predicates_ cfg extent true p))
  = if kAdvanceRank cfg =? 0 then strided coord <? strided extent
    else contiguous coord <? contiguous extent.
Proof.
  intros Hpos Hsz Hin coord.
  rewrite valid_after_compute by assumption. reflexivity.
Qed.

Lemma predicate_bit_packing_witness :
  config_positive strip_cfg
  /\ mask_sized strip_cfg
       (predicates_
          (UnderlyingPredicates.Predicates_ctor strip_cfg strip_extent))
  /\ cursor_in_range strip_cfg 0 1 1
  /\ Z.testbit
       (array_get
          (predicates_
             (UnderlyingPredicates.compute_predicates_
                strip_cfg strip_extent false
                (UnderlyingPredicates.Predicates_ctor strip_cfg strip_extent)))
          0)
       9
     = UnderlyingPredicates.guard_of
         strip_cfg
         (UnderlyingPredicates.access_coord strip_cfg origin 0 1 1)
         strip_extent false.
Proof.
  assert (config_positive strip_cfg) as H1 by (repeat split).
  assert (mask_sized strip_cfg
            (predicates_
               (UnderlyingPredicates.Predicates_ctor strip_cfg strip_extent)))
    as H2 by reflexivity.
  assert (cursor_in_range strip_cfg 0 1 1) as H3
    by (vm_compute; intuition congruence).
  refine (conj H1 (conj H2 (conj H3 _))).
  exact (proj1 (predicate_bit_packing
                  strip_cfg strip_extent false
                  (UnderlyingPredicates.Predicates_ctor strip_cfg strip_extent)
                  0 1 1 H1 H2 H3)).
Defined.

Lemma steady_state_checks_one_axis_witness :
  config_positive strip_cfg
  /\ mask_sized strip_cfg
       (predicates_
          (UnderlyingPredicates.Predicates_ctor strip_cfg strip_extent))
  /\ cursor_in_range strip_cfg 0 3 1
  /\ UnderlyingPredicates.valid
       strip_cfg
       (with_cursor 0 3 1
          (UnderlyingPredicates.compute_predicates_
             strip_cfg (make_Coord 2 64) true
             (UnderlyingPredicates.Predicates_ctor strip_cfg strip_extent)))
     = true.
Proof.
  assert (config_positive strip_cfg) as H1 by (repeat split).
  assert (mask_sized strip_cfg
            (predicates_
               (UnderlyingPredicates.Predicates_ctor strip_cfg strip_extent)))
    as H2 by reflexivity.
  assert (cursor_in_range strip_cfg 0 3 1) as H3
    by (vm_compute; intuition congruence).
  refine (conj H1 (conj H2 (conj H3 _))).
  exact (steady_state_checks_one_axis
           strip_cfg (make_Coord 2 64)
           (UnderlyingPredicates.Predicates_ctor strip_cfg strip_extent)
           0 3 1 H1 H2 H3).
Defined.

(** ** Mask operations *)

Section MaskFacts.

Variable cfg : Config.

Lemma valid_all_zero (p : Predicates) :
  (forall j, array_get (predicates_ p) j = 0) ->
  UnderlyingPredicates.valid cfg p = false.
Proof.
  intros Hz. unfold UnderlyingPredicates.valid. rewrite Hz. reflexivity.
Qed.

Lemma valid_at_cursor (p : Predicates) (v c s : Z) :
  cursor_of p = (v, c, s) ->
  UnderlyingPredicates.valid cfg p
  = Z.testbit
      (array_get (predicates_ p)
         (UnderlyingPredicates.pred_word_idx
            (UnderlyingPredicates.pred_idx_of cfg v c s)))
      (UnderlyingPredicates.pred_bit_pos
         (UnderlyingPredicates.pred_idx_of cfg v c s)).
Proof.
  intros E. rewrite valid_reads_bit. unfold cursor_of in E.
  injection E as Hv Hc Hs. rewrite Hv, Hc, Hs. reflexivity.
Qed.

Lemma clear_mask_true_words (p : Predicates) (j : Z) :
  mask_sized cfg (predicates_ p) ->
  array_get (predicates_ (UnderlyingPredicates.clear_mask cfg true p)) j = 0.
Proof.
  intros Hsz. unfold mask_sized in Hsz.
  destruct (pointwise_loop (fun _ _ => 0)
              (UnderlyingPredicates.kPredicateWordCount cfg) (predicates_ p))
    as [_ Hget].
  cbn [UnderlyingPredicates.clear_mask predicates_ with_predicates].
  rewrite Hget.
  destruct (Z.leb_spec 0 j),
    (Z.ltb_spec j (UnderlyingPredicates.kPredicateWordCount cfg)),
    (Z.ltb_spec j (Z.of_nat (length (predicates_ p))));
    simpl; try reflexivity; apply array_get_out; lia.
Qed.

Lemma clear_mask_false_id (p : Predicates) :
  UnderlyingPredicates.clear_mask cfg false p = p.
Proof.
  unfold UnderlyingPredicates.clear_mask.
  assert (for_loop (UnderlyingPredicates.kPredicateWordCount cfg)
            (fun i a => array_set a i (array_get a i)) (predicates_ p)
          = predicates_ p) as ->.
  { unfold for_loop.
    induction (Z.to_nat (UnderlyingPredicates.kPredicateWordCount cfg))
      as [|k IH]; simpl; [reflexivity|].
    rewrite IH. apply array_set_same. }
  destruct p; reflexivity.
Qed.

Lemma enable_mask_words (p : Predicates) (j : Z) :
  mask_sized cfg (predicates_ p) ->
  0 <= j < UnderlyingPredicates.kPredicateWordCount cfg ->
  array_get (predicates_ (UnderlyingPredicates.enable_mask cfg p)) j
  = 4294967295.
Proof.
  intros Hsz Hj. unfold mask_sized in Hsz.
  destruct (pointwise_loop (fun _ _ => 4294967295)
              (UnderlyingPredicates.kPredicateWordCount cfg) (predicates_ p))
    as [_ Hget].
  cbn [UnderlyingPredicates.enable_mask predicates_ with_predicates].
  rewrite Hget. cmp.
Qed.

Lemma set_get_mask (mask mask0 : list Z) (p : Predicates) :
  mask_sized cfg (predicates_ p) -> mask_sized cfg mask ->
  mask_sized cfg mask0 ->
  UnderlyingPredicates.get_mask
    cfg mask0 (UnderlyingPredicates.set_mask cfg mask p) = mask.
Proof.
  unfold mask_sized. intros Hp Hm Hm0.
  destruct (pointwise_loop (fun i _ => array_get mask i)
              (UnderlyingPredicates.kPredicateWordCount cfg) (predicates_ p))
    as [Hsl Hsg].
  set (p' := UnderlyingPredicates.set_mask cfg mask p).
  destruct (pointwise_loop (fun i _ => array_get (predicates_ p') i)
              (UnderlyingPredicates.kPredicateWordCount cfg) mask0)
    as [Hgl Hgg].
  unfold UnderlyingPredicates.get_mask.
  apply array_ext; [lia|].
  intros i Hi. rewrite Hgg. rewrite Hgl in Hi.
  destruct (Z.leb_spec 0 i); [|lia].
  destruct (Z.ltb_spec i (UnderlyingPredicates.kPredicateWordCount cfg));
    [|lia].
  destruct (Z.ltb_spec i (Z.of_nat (length mask0))); [|lia]. simpl.
  unfold p'. cbn [UnderlyingPredicates.set_mask predicates_ with_predicates].
  rewrite Hsg. cmp.
Qed.

End MaskFacts.

(** Once the first tile is left, neither [operator++] nor [add_tile_offset]
    writes the predicate words. *)
Lemma steady_words_kept (cfg : Config) (ops : list Op) (it : Iterator) :
  is_residue_tile_ it = false ->
  forallb traversal_op ops = true ->
  is_residue_tile_ (run cfg ops it) = false
  /\ predicates_ (the_predicates (run cfg ops it))
     = predicates_ (the_predicates it).
Proof.
  intros Hres. induction ops as [|op ops IH] using rev_ind; intros Hops.
  - split; [exact Hres | reflexivity].
  - rewrite forallb_app in Hops. apply andb_true_iff in Hops as [Hops Hop].
    destruct (IH Hops) as [IHf IHw].
    unfold run in *. rewrite fold_left_app. simpl.
    simpl in Hop. rewrite andb_true_r in Hop.
    destruct op; try discriminate; simpl.
    + pose proof (incr_frame cfg (fold_left (step cfg) ops it)) as F.
      unfold frame_of in F. injection F as Fw _ _ _ _ Ff _ _ _ _.
      rewrite Fw, Ff. split; assumption.
    + split; [reflexivity|].
      unfold PitchLinear.add_tile_offset. rewrite IHf.
      cbn [the_predicates with_is_residue_tile].
      unfold PitchLinear.add_tile_offset_steady.
      destruct (PitchLinear.fast_path cfg).
      * destruct (negb (kAdvanceRank cfg =? 0)); exact IHw.
      * destruct (negb (Permute cfg)); exact IHw.
Qed.

(** C9.  With gather or permute addressing, [get] returns a null pointer
    exactly when [valid] is false at the current cursor; with both disabled
    [get] never returns null and its result does not depend on the predicate
    words at all. *)
Theorem get_null_iff_invalid (cfg : Config) (it : Iterator) :
  (PitchLinear.get cfg it = None <->
   Gather cfg || Permute cfg = true /\ PitchLinear.valid cfg it = false)
  /\ (Gather cfg = false -> Permute cfg = false ->
      PitchLinear.get cfg it <> None
      /\ forall mask,
           PitchLinear.get cfg (PitchLinear.set_mask cfg mask it)
           = PitchLinear.get cfg it).
Proof.
  split.
  - unfold PitchLinear.get.
    destruct (Gather cfg || Permute cfg); simpl.
    + destruct (PitchLinear.valid cfg it); simpl; split.
      * discriminate.
      * intros [_ H]. discriminate.
      * auto.
      * reflexivity.
    + split; [discriminate|]. intros [H _]. discriminate.
  - intros HG HP. unfold PitchLinear.get. rewrite HG, HP. simpl.
    split; [discriminate|]. reflexivity.
Qed.

Lemma get_null_iff_invalid_witness :
  Gather strip_cfg = false /\ Permute strip_cfg = false
  /\ PitchLinear.get
       strip_cfg
       (PitchLinear.ctor strip_cfg strip_params 4096 strip_extent 5 origin
                         null_indices)
     <> None.
Proof.
  refine (conj eq_refl (conj eq_refl _)).
  exact (proj1 (proj2 (get_null_iff_invalid
                         strip_cfg
                         (PitchLinear.ctor strip_cfg strip_params 4096
                                           strip_extent 5 origin null_indices))
                      eq_refl eq_refl)).
Defined.

(** ** Traversals *)

Lemma run_snoc (cfg : Config) (ops : list Op) (op : Op) (it : Iterator) :
  run cfg (ops ++ [op]) it = step cfg (run cfg ops it) op.
Proof. unfold run. rewrite fold_left_app. reflexivity. Qed.

Lemma word_count_nonneg (cfg : Config) :
  config_positive cfg -> 0 <= UnderlyingPredicates.kPredicateWordCount cfg.
Proof.
  intros (HA & HC & HS).
  assert (0 <= UnderlyingPredicates.kPredicateCount cfg) as Hc.
  { unfold UnderlyingPredicates.kPredicateCount,
      UnderlyingPredicates.Iterations_kCount. nia. }
  pose proof (word_count_covers cfg Hc). lia.
Qed.

Lemma Predicates_ctor_sized (cfg : Config) (extent : PitchLinearCoord) :
  config_positive cfg ->
  mask_sized cfg (predicates_ (UnderlyingPredicates.Predicates_ctor cfg extent)).
Proof.
  intros Hpos. unfold mask_sized. simpl. rewrite length_replicate.
  pose proof (word_count_nonneg cfg Hpos). lia.
Qed.

Section Traversal.

Variable cfg : Config.
Variable params : Params.
Variable pointer : Z.
Variable extent : PitchLinearCoord.
Variable thread_id : Z.
Variable tb : PitchLinearCoord.
Variable indices : Z -> Z.
Hypothesis Hpos : config_positive cfg.

Let it0 := PitchLinear.ctor cfg params pointer extent thread_id tb indices.
Let first := coord_add tb (initial_offset (ThreadMap cfg) thread_id).
Let residue := UnderlyingPredicates.residue_offset_of cfg extent tb.

(** The state of the predicates during the first tile. *)
Let InvFirst (it : Iterator) : Prop :=
  cursor_ok cfg it
  /\ is_residue_tile_ it = true
  /\ thread_offset_ (the_predicates it) = first
  /\ residue_offset_ (the_predicates it) = residue
  /\ extent_ (the_predicates it) = extent
  /\ compute_predicates_calls (the_predicates it) = 1%nat
  /\ mask_sized cfg (predicates_ (the_predicates it))
  /\ forall v c s,
       cursor_in_range cfg v c s ->
       UnderlyingPredicates.valid cfg (with_cursor v c s (the_predicates it))
       = first_tile_check
           cfg extent tb (UnderlyingPredicates.access_coord cfg first v c s).

(** The state of the predicates from the first [add_tile_offset] on. *)
Let InvSteady (it : Iterator) : Prop :=
  cursor_ok cfg it
  /\ is_residue_tile_ it = false
  /\ thread_offset_ (the_predicates it) = coord_add first residue
  /\ compute_predicates_calls (the_predicates it) = 2%nat
  /\ forall v c s,
       cursor_in_range cfg v c s ->
       UnderlyingPredicates.valid cfg (with_cursor v c s (the_predicates it))
       = steady_tile_check
           cfg extent
           (UnderlyingPredicates.access_coord cfg (coord_add first residue)
                                              v c s).

Lemma ctor_predicates :
  the_predicates it0
  = UnderlyingPredicates.set_predicates
      cfg thread_id tb (UnderlyingPredicates.Predicates_ctor cfg extent).
Proof.
  unfold it0, PitchLinear.ctor.
  destruct (PitchLinear.fast_path cfg); [reflexivity|].
  destruct (negb (Permute cfg)); reflexivity.
Qed.

Lemma ctor_is_residue_tile : is_residue_tile_ it0 = true.
Proof.
  unfold it0, PitchLinear.ctor.
  destruct (PitchLinear.fast_path cfg); [reflexivity|].
  destruct (negb (Permute cfg)); reflexivity.
Qed.

Lemma ctor_first : InvFirst it0.
Proof.
  unfold InvFirst. split; [apply ctor_cursor_ok; exact Hpos|].
  split; [apply ctor_is_residue_tile|].
  rewrite ctor_predicates.
  set (p2 := with_thread_offset first
               (with_residue_offset residue
                  (UnderlyingPredicates.Predicates_ctor cfg extent))).
  assert (mask_sized cfg (predicates_ p2)) as Hsz
    by (apply Predicates_ctor_sized; exact Hpos).
  repeat (split; [reflexivity|]). split.
  - apply (proj1 (compute_predicates_bits
                    cfg (UnderlyingPredicates.residue_extent_of cfg extent tb)
                    false p2 Hpos Hsz)).
  - intros v c s Hin.
    change (UnderlyingPredicates.valid
              cfg (with_cursor v c s
                     (UnderlyingPredicates.compute_predicates_
                        cfg (UnderlyingPredicates.residue_extent_of
                               cfg extent tb) false p2))
            = first_tile_check
                cfg extent tb
                (UnderlyingPredicates.access_coord cfg first v c s)).
    rewrite valid_after_compute by assumption. reflexivity.
Qed.

Lemma valid_frame (it it' : Iterator) (v c s : Z) :
  frame_of it' = frame_of it ->
  UnderlyingPredicates.valid cfg (with_cursor v c s (the_predicates it'))
  = UnderlyingPredicates.valid cfg (with_cursor v c s (the_predicates it)).
Proof.
  intros F. unfold frame_of in F. injection F as Hw _.
  unfold UnderlyingPredicates.valid. simpl. rewrite Hw. reflexivity.
Qed.

Lemma incr_first (it : Iterator) :
  InvFirst it -> InvFirst (PitchLinear.incr cfg it).
Proof.
  intros (Hc & Hr & Ht & Hres & He & Hn & Hsz & Hv).
  pose proof (incr_frame cfg it) as F.
  pose proof F as F'. unfold frame_of in F'.
  injection F' as Fw Fe Ft Fr Fn Ff _ _ _ _.
  unfold InvFirst. rewrite Fw, Fe, Ft, Fr, Fn, Ff.
  split; [apply incr_cursor_ok; assumption|].
  repeat (split; [assumption|]).
  intros v c s Hin. rewrite (valid_frame it _ v c s F). apply Hv. exact Hin.
Qed.

Lemma incr_steady (it : Iterator) :
  InvSteady it -> InvSteady (PitchLinear.incr cfg it).
Proof.
  intros (Hc & Hr & Ht & Hn & Hv).
  pose proof (incr_frame cfg it) as F.
  pose proof F as F'. unfold frame_of in F'.
  injection F' as Fw Fe Ft Fr Fn Ff _ _ _ _.
  unfold InvSteady. rewrite Ft, Fn, Ff.
  split; [apply incr_cursor_ok; assumption|].
  repeat (split; [assumption|]).
  intros v c s Hin. rewrite (valid_frame it _ v c s F). apply Hv. exact Hin.
Qed.

(** Whatever the addressing mode, the first [add_tile_offset] leaves the
    predicate state recomputed in steady-state mode at the shifted thread
    offset. *)
Lemma add_tile_offset_residue_predicates (t : PitchLinearCoord)
      (it : Iterator) :
  the_predicates (PitchLinear.add_tile_offset_residue cfg t it)
  = UnderlyingPredicates.compute_predicates_
      cfg (extent_ (the_predicates it)) true
      (with_thread_offset
         (coord_add (thread_offset_ (the_predicates it))
                    (residue_offset_ (the_predicates it)))
         (the_predicates it)).
Proof.
  unfold PitchLinear.add_tile_offset_residue.
  destruct (PitchLinear.fast_path cfg).
  - destruct (negb (kAdvanceRank cfg =? 0)); reflexivity.
  - destruct (negb (Permute cfg)); reflexivity.
Qed.

Lemma add_tile_offset_steady_predicates (t : PitchLinearCoord)
      (it : Iterator) :
  the_predicates (PitchLinear.add_tile_offset_steady cfg t it)
  = the_predicates it.
Proof.
  unfold PitchLinear.add_tile_offset_steady.
  destruct (PitchLinear.fast_path cfg).
  - destruct (negb (kAdvanceRank cfg =? 0)); reflexivity.
  - destruct (negb (Permute cfg)); reflexivity.
Qed.

Lemma add_tile_offset_first (t : PitchLinearCoord) (it : Iterator) :
  InvFirst it -> InvSteady (PitchLinear.add_tile_offset cfg t it).
Proof.
  intros (Hc & Hr & Ht & Hres & He & Hn & Hsz & Hv).
  unfold InvSteady, cursor_ok, PitchLinear.add_tile_offset.
  rewrite Hr. cbn [the_predicates with_is_residue_tile is_residue_tile_].
  rewrite add_tile_offset_residue_predicates, Ht, Hres, He.
  split; [exact Hc|]. split; [reflexivity|]. split; [reflexivity|].
  split; [cbn; rewrite Hn; reflexivity|].
  intros v c s Hin. rewrite valid_after_compute by assumption. reflexivity.
Qed.

Lemma add_tile_offset_later (t : PitchLinearCoord) (it : Iterator) :
  InvSteady it -> InvSteady (PitchLinear.add_tile_offset cfg t it).
Proof.
  intros (Hc & Hr & Ht & Hn & Hv).
  unfold InvSteady, cursor_ok, PitchLinear.add_tile_offset.
  rewrite Hr. cbn [the_predicates with_is_residue_tile is_residue_tile_].
  rewrite add_tile_offset_steady_predicates.
  split; [exact Hc|]. split; [reflexivity|]. auto.
Qed.

(** The phase of the iterator after a traversal is decided by whether
    [add_tile_offset] has been called. *)
Lemma traversal_phase (ops : list Op) :
  forallb traversal_op ops = true ->
  if existsb is_add_tile_offset ops then InvSteady (run cfg ops it0)
  else InvFirst (run cfg ops it0).
Proof.
  induction ops as [|op ops IH] using rev_ind; intros Hops.
  - exact ctor_first.
  - rewrite forallb_app in Hops. apply andb_true_iff in Hops as [Hops Hop].
    specialize (IH Hops). rewrite run_snoc, existsb_app.
    simpl in Hop. rewrite andb_true_r in Hop.
    destruct op; try discriminate; simpl; rewrite ?orb_false_r.
    + destruct (existsb is_add_tile_offset ops);
        [apply incr_steady | apply incr_first]; exact IH.
    + rewrite orb_true_r.
      destruct (existsb is_add_tile_offset ops);
        [apply add_tile_offset_later | apply add_tile_offset_first]; exact IH.
Qed.

Lemma valid_at_own_cursor (it : Iterator) :
  PitchLinear.valid cfg it
  = UnderlyingPredicates.valid
      cfg (with_cursor (iteration_vector_ (the_predicates it))
                       (iteration_contiguous_ (the_predicates it))
                       (iteration_strided_ (the_predicates it))
                       (the_predicates it)).
Proof. unfold PitchLinear.valid. apply valid_with_cursor. reflexivity. Qed.

(** The window of the first tile never exceeds the extent. *)
Lemma first_tile_check_in_extent (coord : PitchLinearCoord) :
  first_tile_check cfg extent tb coord = true ->
  contiguous coord < contiguous extent /\ strided coord < strided extent.
Proof.
  unfold first_tile_check, UnderlyingPredicates.residue_extent_of.
  intros H. apply andb_true_iff in H as [Hs Hc].
  apply Z.ltb_lt in Hs, Hc.
  destruct (negb (kAdvanceRank cfg =? 0)); simpl in Hs, Hc; lia.
Qed.

Lemma traversal_valid (ops : list Op) :
  forallb traversal_op ops = true ->
  let it := run cfg ops it0 in
  cursor_ok cfg it
  /\ if existsb is_add_tile_offset ops then
       is_residue_tile_ it = false
       /\ thread_offset_ (the_predicates it) = coord_add first residue
       /\ PitchLinear.valid cfg it
          = steady_tile_check cfg extent (cursor_coord cfg it)
     else
       is_residue_tile_ it = true
       /\ thread_offset_ (the_predicates it) = first
       /\ PitchLinear.valid cfg it
          = first_tile_check cfg extent tb (cursor_coord cfg it).
Proof.
  intros Hops it. pose proof (traversal_phase ops Hops) as H. fold it in H.
  destruct (existsb is_add_tile_offset ops).
  - destruct H as (Hc & Hr & Ht & Hn & Hv).
    split; [exact Hc|]. split; [exact Hr|]. split; [exact Ht|].
    rewrite valid_at_own_cursor, Hv by exact Hc.
    unfold cursor_coord. rewrite Ht. reflexivity.
  - destruct H as (Hc & Hr & Ht & Hres & He & Hn & Hsz & Hv).
    split; [exact Hc|]. split; [exact Hr|]. split; [exact Ht|].
    rewrite valid_at_own_cursor, Hv by exact Hc.
    unfold cursor_coord. rewrite Ht. reflexivity.
Qed.

(** The first tile, as long as only [operator++] is applied. *)
Lemma advance_first (k : nat) :
  InvFirst (advance cfg k it0).
Proof.
  induction k as [|k IH]; [exact ctor_first|].
  rewrite advance_succ. apply incr_first. exact IH.
Qed.

Lemma advance_first_valid (k : nat) :
  let it := advance cfg k it0 in
  cursor_ok cfg it
  /\ thread_offset_ (the_predicates it) = first
  /\ residue_offset_ (the_predicates it) = residue
  /\ PitchLinear.valid cfg it
     = first_tile_check cfg extent tb (cursor_coord cfg it).
Proof.
  destruct (advance_first k) as (Hc & Hr & Ht & Hres & He & Hn & Hsz & Hv).
  simpl. split; [exact Hc|]. split; [exact Ht|]. split; [exact Hres|].
  rewrite valid_at_own_cursor, Hv by exact Hc.
  unfold cursor_coord. rewrite Ht. reflexivity.
Qed.

Lemma traversal_calls (ops : list Op) :
  forallb traversal_op ops = true ->
  compute_predicates_calls (the_predicates (run cfg ops it0))
  = if existsb is_add_tile_offset ops then 2%nat else 1%nat.
Proof.
  intros Hops. pose proof (traversal_phase ops Hops) as H.
  destruct (existsb is_add_tile_offset ops).
  - destruct H as (_ & _ & _ & Hn & _). exact Hn.
  - destruct H as (_ & _ & _ & _ & _ & Hn & _). exact Hn.
Qed.

End Traversal.

(** C1 (amended).  Bounds fidelity.  Along any traversal by [operator++] and
    [add_tile_offset] the cursor names an access of the tile, and [valid] at
    that access is decided by the phase.  Before the first
    [add_tile_offset] (first tile) it is true if and only if the access's
    coordinate (thread offset plus iteration delta) is below the
    residue-adjusted extent on both axes, which implies that it is below the
    tensor extent on both axes.  From the first [add_tile_offset] on (steady
    state) it is true if and only if the coordinate of the axis that is not
    advanced along is below the tensor extent on that axis. *)
Theorem bounds_fidelity (cfg : Config) (params : Params) (pointer : Z)
        (extent : PitchLinearCoord) (thread_id : Z) (tb : PitchLinearCoord)
        (indices : Z -> Z) (ops : list Op) :
  config_positive cfg ->
  forallb traversal_op ops = true ->
  let it :=
    run cfg ops
        (PitchLinear.ctor cfg params pointer extent thread_id tb indices) in
  let coord := cursor_coord cfg it in
  cursor_ok cfg it
  /\ if existsb is_add_tile_offset ops then
       PitchLinear.valid cfg it = steady_tile_check cfg extent coord
     else
       PitchLinear.valid cfg it = first_tile_check cfg extent tb coord
       /\ (PitchLinear.valid cfg it = true ->
           contiguous coord < contiguous extent
           /\ strided coord < strided extent).
Proof.
  intros Hpos Hops it coord.
  pose proof (traversal_valid cfg params pointer extent thread_id tb indices
                              Hpos ops Hops) as [Hc H].
  fold it in Hc, H. split; [exact Hc|].
  destruct (existsb is_add_tile_offset ops).
  - apply H.
  - destruct H as (_ & _ & Hv). split; [exact Hv|].
    intros Ht. rewrite Hv in Ht.
    apply (first_tile_check_in_extent cfg extent tb). exact Ht.
Qed.

Lemma bounds_fidelity_witness :
  config_positive strip_cfg
  /\ forallb traversal_op [OpIncr; OpAddTileOffset (make_Coord 1 0); OpIncr]
     = true
  /\ PitchLinear.valid
       strip_cfg
       (run strip_cfg [OpIncr; OpAddTileOffset (make_Coord 1 0); OpIncr]
            strip_it)
     = steady_tile_check
         strip_cfg strip_extent
         (cursor_coord
            strip_cfg
            (run strip_cfg [OpIncr; OpAddTileOffset (make_Coord 1 0); OpIncr]
                 strip_it)).
Proof.
  assert (config_positive strip_cfg) as H1 by (repeat split).
  refine (conj H1 (conj eq_refl _)).
  exact (proj2 (bounds_fidelity
                  strip_cfg strip_params 4096 strip_extent 5 origin
                  null_indices
                  [OpIncr; OpAddTileOffset (make_Coord 1 0); OpIncr]
                  H1 eq_refl)).
Defined.

(** C1 as stated fails in the first tile.  Extent 130 x 64, tile 128 x 32
    advancing along the contiguous axis, thread 5: the residue is 2, so the
    first access of the thread, at coordinate (5, 0), lies inside the tensor
    and is nevertheless not valid. *)
Lemma bounds_fidelity_counterexample :
  ~ (PitchLinear.valid strip_cfg strip_it = true <->
     0 <= contiguous (cursor_coord strip_cfg strip_it)
       < contiguous strip_extent
     /\ 0 <= strided (cursor_coord strip_cfg strip_it)
          < strided strip_extent).
Proof.
  intros [_ H].
  assert (PitchLinear.valid strip_cfg strip_it = true) as Hv.
  { apply H. vm_compute. intuition congruence. }
  vm_compute in Hv. discriminate.
Qed.

(** ** Recomputations *)

Section Recomputation.

Variable cfg : Config.




End Recomputation.



(** ** The residue *)

Lemma residue_size_cases (cfg : Config) (extent tb : PitchLinearCoord) :
  kAdvanceRank cfg = 0 \/ kAdvanceRank cfg = 1 ->
  let remaining := advance_axis cfg extent - advance_axis cfg tb in
  let r := UnderlyingPredicates.residue_size_of cfg extent tb in
  r = (if Z.rem remaining (advance_tile cfg) =? 0 then advance_tile cfg
       else Z.rem remaining (advance_tile cfg))
  /\ advance_axis cfg (UnderlyingPredicates.residue_offset_of cfg extent tb)
     = r
  /\ other_axis cfg (UnderlyingPredicates.residue_offset_of cfg extent tb)
     = 0.
Proof.
  intros [H|H]; unfold UnderlyingPredicates.residue_size_of,
    UnderlyingPredicates.residue_offset_of, advance_axis, other_axis,
    advance_tile, coord_at; rewrite H; simpl; repeat split;
    unfold UnderlyingPredicates.residue_size_of, coord_at; rewrite H;
    reflexivity.
Qed.

Lemma residue_window (cfg : Config) (extent tb coord : PitchLinearCoord) :
  kAdvanceRank cfg = 0 \/ kAdvanceRank cfg = 1 ->
  0 < advance_tile cfg ->
  0 < advance_axis cfg extent - advance_axis cfg tb ->
  first_tile_check cfg extent tb coord
  = (advance_axis cfg coord
     <? advance_axis cfg tb + UnderlyingPredicates.residue_size_of cfg extent tb)
    && (other_axis cfg coord <? other_axis cfg extent).
Proof.
  intros Hrank HT Hrem.
  destruct (residue_size_cases cfg extent tb Hrank) as (Hr & _).
  simpl in Hr.
  assert (UnderlyingPredicates.residue_size_of cfg extent tb
          <= advance_axis cfg extent - advance_axis cfg tb) as Hle.
  { rewrite Hr, Z.rem_mod_nonneg by lia.
    destruct (Z.eqb_spec ((advance_axis cfg extent - advance_axis cfg tb)
                          mod advance_tile cfg) 0) as [E|E].
    - apply Z.mod_divide in E; [|lia]. destruct E as [q Eq].
      set (R := advance_axis cfg extent - advance_axis cfg tb) in *.
      set (T := advance_tile cfg) in *.
      assert (1 <= q) by (destruct (Z.le_gt_cases 1 q); [assumption|nia]).
      nia.
    - apply Z.mod_le; lia. }
  clear Hr. revert HT Hrem Hle.
  unfold first_tile_check, UnderlyingPredicates.residue_extent_of,
    advance_axis, other_axis, advance_tile.
  destruct Hrank as [H|H]; rewrite H; simpl; intros HT Hrem Hle.
  - rewrite Z.min_r by lia. apply andb_comm.
  - rewrite Z.min_l by lia. reflexivity.
Qed.

(** C4 (amended).  Residue correctness.  The residue size along the advance
    axis is the remaining extent (extent minus threadblock offset) modulo
    the tile size, or the tile size when that remainder is zero; the residue
    offset is zero along the other axis.  When the remaining extent is
    positive: if it is a multiple of the tile size the first tile has the
    full tile width along the advance axis, otherwise its width is the
    remaining extent modulo the tile size; in both cases an access of the
    first tile is valid if and only if its advance-axis coordinate is below
    the threadblock offset plus that width and its other coordinate is below
    the extent. *)
Theorem residue_correctness (cfg : Config) (params : Params) (pointer : Z)
        (extent : PitchLinearCoord) (thread_id : Z) (tb : PitchLinearCoord)
        (indices : Z -> Z) (k : nat) :
  config_positive cfg ->
  kAdvanceRank cfg = 0 \/ kAdvanceRank cfg = 1 ->
  let T := advance_tile cfg in
  let remaining := advance_axis cfg extent - advance_axis cfg tb in
  let it0 :=
    PitchLinear.ctor cfg params pointer extent thread_id tb indices in
  let r := advance_axis cfg (residue_offset_ (the_predicates it0)) in
  let it := advance cfg k it0 in
  let coord := cursor_coord cfg it in
  r = (if Z.rem remaining T =? 0 then T else Z.rem remaining T)
  /\ other_axis cfg (residue_offset_ (the_predicates it0)) = 0
  /\ (0 < T -> 0 < remaining ->
      ((T | remaining) -> r = T)
      /\ (~ (T | remaining) -> r = remaining mod T /\ 0 < r < T)
      /\ PitchLinear.valid cfg it
         = (advance_axis cfg coord <? advance_axis cfg tb + r)
           && (other_axis cfg coord <? other_axis cfg extent)).
Proof.
  intros Hpos Hrank T remaining it0 r it coord.
  destruct (advance_first_valid cfg params pointer extent thread_id tb indices
                                Hpos 0) as (_ & _ & Hres0 & _).
  destruct (advance_first_valid cfg params pointer extent thread_id tb indices
                                Hpos k) as (_ & _ & _ & Hv).
  simpl in Hres0, Hv. fold it0 in Hres0.
  destruct (residue_size_cases cfg extent tb Hrank) as (Hr & Hadv & Hoth).
  simpl in Hr, Hadv, Hoth. fold T remaining in Hr.
  assert (r = UnderlyingPredicates.residue_size_of cfg extent tb) as Er
    by (unfold r; rewrite Hres0; exact Hadv).
  split; [rewrite Er; exact Hr|].
  split; [rewrite Hres0; exact Hoth|].
  intros HT Hrem. rewrite Er, Hr. repeat split.
  - intros Hdiv. apply Z.mod_divide in Hdiv; [|lia].
    rewrite Z.rem_mod_nonneg by lia. rewrite Hdiv. reflexivity.
  - rewrite Z.rem_mod_nonneg by lia.
    destruct (Z.eqb_spec (remaining mod T) 0) as [E|E]; [|reflexivity].
    exfalso. apply H. apply Z.mod_divide; lia.
  - rewrite Z.rem_mod_nonneg by lia.
    destruct (Z.eqb_spec (remaining mod T) 0) as [E|E].
    + exfalso. apply H. apply Z.mod_divide; lia.
    + pose proof (Z.mod_pos_bound remaining T HT). lia.
  - rewrite Z.rem_mod_nonneg by lia.
    destruct (Z.eqb_spec (remaining mod T) 0) as [E|E].
    + exfalso. apply H. apply Z.mod_divide; lia.
    + pose proof (Z.mod_pos_bound remaining T HT). lia.
  - unfold coord, it, it0. rewrite Hv, <- Hr.
    apply residue_window; assumption.
Qed.

Lemma residue_correctness_witness :
  config_positive strip_cfg
  /\ (kAdvanceRank strip_cfg = 0 \/ kAdvanceRank strip_cfg = 1)
  /\ advance_axis strip_cfg (residue_offset_ (the_predicates strip_it)) = 2.
Proof.
  assert (config_positive strip_cfg) as H1 by (repeat split).
  assert (kAdvanceRank strip_cfg = 0 \/ kAdvanceRank strip_cfg = 1) as H2
    by (left; reflexivity).
  refine (conj H1 (conj H2 _)).
  exact (proj1 (residue_correctness strip_cfg strip_params 4096 strip_extent
                                    5 origin null_indices 0 H1 H2)).
Defined.

(** C4 as stated fails, on two inputs.  (a) Extent 130 x 64, tile 128 x 32,
    zero threadblock offset, thread 0 of the strip map, whose contiguous
    iterations are 32 elements apart: 130 mod 128 = 2, and the mask of the
    thread has one valid position along the contiguous axis.  (b) The same
    extent and tile with threadblock offset (2, 0) and a thread reading
    eight neighbouring elements: the extent is not a multiple of the tile,
    130 mod 128 = 2, and the first tile is a full one: all eight positions
    are valid. *)
Lemma residue_correctness_counterexample :
  Z.rem (contiguous strip_extent) (Shape_kContiguous strip_cfg) = 2
  /\ valid_contiguous_positions
       strip_cfg
       (PitchLinear.ctor strip_cfg strip_params 4096 strip_extent 0 origin
                         null_indices)
     = 1%nat
  /\ valid_contiguous_positions
       dense_cfg
       (PitchLinear.ctor dense_cfg strip_params 4096 strip_extent 0
                         (make_Coord 2 0) null_indices)
     = 8%nat.
Proof. vm_compute. repeat split. Qed.

(** ** Addresses *)

Lemma quot_bytes (esz x : Z) : Z.quot (8 * esz * x) 8 = esz * x.
Proof.
  replace (8 * esz * x) with (esz * x * 8) by ring. apply Z.quot_mul. lia.
Qed.

Section Addresses.

Variable cfg : Config.
Variable esz : Z.
Variable params : Params.
Variable pointer : Z.
Variable extent : PitchLinearCoord.
Variable thread_id : Z.
Variable tb : PitchLinearCoord.
Variable indices : Z -> Z.
Hypothesis Hpos : config_positive cfg.
Hypothesis Hbytes : byte_sized cfg esz.
Hypothesis Hparams : params_consistent cfg esz params.

Let it0 := PitchLinear.ctor cfg params pointer extent thread_id tb indices.
Let first := coord_add tb (initial_offset (ThreadMap cfg) thread_id).

(** The pointer and the tracked coordinate right after construction. *)
Lemma ctor_addressing :
  params_ it0 = params
  /\ indices_ it0 = indices
  /\ permute_layout_ it0 = permute_layout cfg extent (stride_ params)
  /\ thread_offset_ (the_predicates it0) = first
  /\ pointer_ it0
     = (if PitchLinear.fast_path cfg then
          pointer + esz * PitchLinear_offset (stride_ params) first
        else if Permute cfg then pointer
        else pointer + esz * contiguous first)
  /\ (PitchLinear.fast_path cfg = false -> coord_offset_ it0 = first).
Proof.
  destruct Hbytes as (Hbits & _).
  unfold it0, PitchLinear.ctor, PitchLinear.add_pointer_offset,
    PitchLinear.advance_pointer.
  destruct extent as [ec es].
  destruct (PitchLinear.fast_path cfg).
  - cbn. rewrite Hbits, quot_bytes. repeat split. discriminate.
  - destruct (Permute cfg); cbn.
    + repeat split.
    + rewrite Hbits, quot_bytes. unfold PitchLinear_offset. cbn.
      repeat split. f_equal. f_equal. ring.
Qed.

(** How [operator++] moves the pointer. *)
Lemma incr_pointer (it : Iterator) :
  cursor_ok cfg it -> params_ it = params ->
  pointer_ (PitchLinear.incr cfg it)
  = pointer_ it
    + (if PitchLinear.fast_path cfg then
         (iteration_strided_ (the_predicates (PitchLinear.incr cfg it))
          - iteration_strided_ (the_predicates it)) * inc_strided_ params
       else 0).
Proof.
  intros (Hv & Hc & Hs) Hp. destruct Hparams as (_ & Hnext).
  unfold PitchLinear.incr, UnderlyingPredicates.incr,
    PitchLinear.advance_pointer, PitchLinear.kAccessesPerVector.
  fold (UnderlyingPredicates.kAccessesPerVector cfg).
  rewrite Hp.
  repeat cmp_step; destruct (PitchLinear.fast_path cfg); cbn; try lia.
  replace (iteration_strided_ (the_predicates it))
    with (Iterations_kStrided (ThreadMap cfg) - 1) by lia.
  lia.
Qed.

Lemma advance_pointer_inv (k : nat) :
  let it := advance cfg k it0 in
  cursor_ok cfg it
  /\ frame_of it = frame_of it0
  /\ pointer_ it
     = pointer_ it0
       + (if PitchLinear.fast_path cfg then
            iteration_strided_ (the_predicates it) * inc_strided_ params
          else 0).
Proof.
  induction k as [|k IH]; simpl.
  - split; [apply ctor_cursor_ok; exact Hpos|]. split; [reflexivity|].
    pose proof (ctor_cursor cfg params pointer extent thread_id tb indices)
      as E. unfold cursor_of in E. injection E as _ _ Es.
    fold it0 in Es. rewrite Es. destruct (PitchLinear.fast_path cfg); lia.
  - destruct IH as (Hc & F & Hptr).
    change (Nat.iter k (PitchLinear.incr cfg) it0) with (advance cfg k it0).
    split; [apply incr_cursor_ok; assumption|].
    split; [rewrite incr_frame; exact F|].
    rewrite incr_pointer; [rewrite Hptr|exact Hc|].
    + destruct (PitchLinear.fast_path cfg); lia.
    + unfold frame_of in F. injection F as _ _ _ _ _ _ Fp _ _ _.
      rewrite Fp. apply ctor_addressing.
Qed.

Lemma advance_get (k : nat) :
  let it := advance cfg k it0 in
  PitchLinear.get cfg it
  = if PitchLinear.fast_path cfg || PitchLinear.valid cfg it then
      Some (tensor_address cfg params pointer extent indices
                           (cursor_coord cfg it))
    else None.
Proof.
  destruct (advance_pointer_inv k) as (Hc & F & Hptr). simpl in *.
  set (it := advance cfg k it0) in *.
  destruct ctor_addressing as (Hp0 & Hi0 & Hl0 & Ht0 & Hptr0 & Hco0).
  unfold frame_of in F. injection F as _ _ Ft _ _ _ Fp Fi Fl Fc.
  destruct Hbytes as (Hbits & Hoff & Hacc).
  destruct Hparams as (Hstr & _).
  unfold PitchLinear.get, tensor_address, tensor_offset, cursor_coord,
    UnderlyingPredicates.access_coord.
  rewrite Hptr, Hptr0, Fp, Fi, Fl, Fc, Ft, Hp0, Hi0, Hl0, Ht0.
  unfold PitchLinear.fast_path in *.
  destruct (Gather cfg), (Permute cfg); cbn [negb andb orb] in *;
    try (rewrite (Hco0 eq_refl));
    try (destruct (PitchLinear.valid cfg it); cbn [negb]; [|reflexivity]);
    f_equal; rewrite ?Hoff, ?Hacc, ?Hbits, ?Hstr; cbn [contiguous strided coord_add];
    unfold PitchLinear_offset; cbn [contiguous strided].
  all: rewrite ?Z.add_0_r, ?Z.add_assoc; try reflexivity; try ring.
  replace (iteration_contiguous_ (the_predicates it)
           * (Delta_kContiguous (ThreadMap cfg) * (8 * esz)))
    with (8 * esz * (iteration_contiguous_ (the_predicates it)
                     * Delta_kContiguous (ThreadMap cfg))) by ring.
  rewrite quot_bytes. ring.
Qed.

End Addresses.

(** C2 (amended).  Pointer/coordinate agreement, for elements of whole bytes
    and increments in [Params] that fit the thread map.  After any number
    [k] of applications of [operator++] to a freshly constructed iterator:
    on the fast path (no gather, no permutation) [get] returns the address
    obtained by directly indexing the tensor at the cursor's logical
    coordinate; on the gather/permute path it returns that address, resolved
    through the index array or the permutation function, when the access is
    valid, and the null pointer when it is not. *)
Theorem pointer_coordinate_agreement (cfg : Config) (esz : Z)
        (params : Params) (pointer : Z) (extent : PitchLinearCoord)
        (thread_id : Z) (tb : PitchLinearCoord) (indices : Z -> Z)
        (k : nat) :
  config_positive cfg -> byte_sized cfg esz ->
  params_consistent cfg esz params ->
  let it :=
    advance cfg k
            (PitchLinear.ctor cfg params pointer extent thread_id tb indices)
  in
  PitchLinear.get cfg it
  = if PitchLinear.fast_path cfg || PitchLinear.valid cfg it then
      Some (tensor_address cfg params pointer extent indices
                           (cursor_coord cfg it))
    else None.
Proof.
  intros Hpos Hbytes Hparams. apply advance_get with (esz := esz); assumption.
Qed.

Lemma pointer_coordinate_agreement_witness :
  config_positive strip_cfg /\ byte_sized strip_cfg 4
  /\ params_consistent strip_cfg 4 strip_params
  /\ PitchLinear.get strip_cfg (advance strip_cfg 6 strip_it)
     = Some (tensor_address
               strip_cfg strip_params 4096 strip_extent null_indices
               (cursor_coord strip_cfg (advance strip_cfg 6 strip_it))).
Proof.
  assert (config_positive strip_cfg) as H1 by (repeat split).
  assert (byte_sized strip_cfg 4) as H2 by (repeat split).
  assert (params_consistent strip_cfg 4 strip_params) as H3
    by (repeat split).
  refine (conj H1 (conj H2 (conj H3 _))).
  exact (pointer_coordinate_agreement strip_cfg 4 strip_params 4096
                                      strip_extent 5 origin null_indices 6
                                      H1 H2 H3).
Defined.

(** C2 as stated fails on the gather path.  Thread 5 of the strip map on the
    tensor of 130 x 64 elements, read through an index array: its first
    access, at coordinate (5, 0), is not valid in the first tile, and [get]
    returns the null pointer, not the address of the element. *)
Lemma pointer_coordinate_agreement_counterexample :
  PitchLinear.get
    gather_cfg
    (PitchLinear.ctor gather_cfg strip_params 4096 strip_extent 5 origin
                      identity_indices)
  = None
  /\ PitchLinear.get
       gather_cfg
       (PitchLinear.ctor gather_cfg strip_params 4096 strip_extent 5 origin
                         identity_indices)
     <> Some (tensor_address
                gather_cfg strip_params 4096 strip_extent identity_indices
                (cursor_coord
                   gather_cfg
                   (PitchLinear.ctor gather_cfg strip_params 4096 strip_extent
                                     5 origin identity_indices))).
Proof. split; [vm_compute; reflexivity | vm_compute; discriminate]. Qed.

(** ** Adapters *)

Lemma RowMajor_run (mc : MatrixConfig) (ops : list MatrixOp) (a : RowMajor.t) :
  RowMajor.iterator_ (fold_left (RowMajor_step mc) ops a)
  = run (RowMajor.Underlying mc) (List.map (canonical_op swap_axes) ops)
        (RowMajor.iterator_ a).
Proof.
  revert a. induction ops as [|op ops IH]; intros a; [reflexivity|].
  simpl fold_left. rewrite IH. unfold run. simpl. f_equal.
  destruct op; reflexivity.
Qed.

Lemma RowMajorInterleaved_run (K : Z) (mc : MatrixConfig)
      (ops : list MatrixOp) (a : RowMajorInterleaved.t) :
  RowMajorInterleaved.iterator_
    (fold_left (RowMajorInterleaved_step K mc) ops a)
  = run (RowMajorInterleaved.Underlying K mc)
        (List.map (canonical_op swap_axes) ops)
        (RowMajorInterleaved.iterator_ a).
Proof.
  revert a. induction ops as [|op ops IH]; intros a; [reflexivity|].
  simpl fold_left. rewrite IH. unfold run. simpl. f_equal.
  destruct op; reflexivity.
Qed.

Lemma ColumnMajorInterleaved_run (K : Z) (mc : MatrixConfig)
      (ops : list MatrixOp) (a : ColumnMajorInterleaved.t) :
  ColumnMajorInterleaved.iterator_
    (fold_left (ColumnMajorInterleaved_step K mc) ops a)
  = run (ColumnMajorInterleaved.Underlying K mc)
        (List.map (canonical_op keep_axes) ops)
        (ColumnMajorInterleaved.iterator_ a).
Proof.
  revert a. induction ops as [|op ops IH]; intros a; [reflexivity|].
  simpl fold_left. rewrite IH. unfold run. simpl. f_equal.
  destruct op; reflexivity.
Qed.

(** C8.  Layout-adapter refinement.  For every sequence of calls
    (construction, then any of [operator++], [add_tile_offset],
    [add_pointer_offset], [set_iteration_index] and the mask operations),
    what [get], [valid] and [get_mask] return on the row-major iterator is
    what they return on the canonical pitch-linear iterator of the swapped
    tile, constructed on the extent and threadblock offset with row and
    column exchanged and driven with the tile offsets exchanged likewise.
    The interleaved iterators do the same on the canonical iterator without
    gather or permutation whose tile, extent and threadblock offset have one
    axis multiplied by the interleave factor and the other divided by it;
    their tile offsets are passed in units of tiles, exchanged for row-major
    interleaved and unchanged for column-major interleaved. *)
Theorem layout_adapters (mc : MatrixConfig) (K : Z) (params : Params)
        (pointer : Z) (extent : MatrixCoord) (thread_id : Z)
        (tb : MatrixCoord) (indices : Z -> Z) (ops : list MatrixOp)
        (mask0 : list Z) :
  (let U := canonical_cfg mc (swap_axes (tile_of mc)) (swapped_rank mc) true in
   let a :=
     fold_left (RowMajor_step mc) ops
               (RowMajor.ctor mc params pointer extent thread_id tb indices) in
   (RowMajor.get mc a, RowMajor.valid mc a, RowMajor.get_mask mc mask0 a)
   = observe U mask0
       (run U (List.map (canonical_op swap_axes) ops)
            (PitchLinear.ctor U params pointer (swap_axes extent) thread_id
                              (swap_axes tb) indices)))
  /\ (let U :=
        canonical_cfg mc (interleave_columns K (tile_of mc)) (swapped_rank mc)
                      false in
      let a :=
        fold_left (RowMajorInterleaved_step K mc) ops
                  (RowMajorInterleaved.ctor K mc params pointer extent
                                            thread_id tb indices) in
      (RowMajorInterleaved.get K mc a, RowMajorInterleaved.valid K mc a,
       RowMajorInterleaved.get_mask K mc mask0 a)
      = observe U mask0
          (run U (List.map (canonical_op swap_axes) ops)
               (PitchLinear.ctor U params pointer
                                 (interleave_columns K extent) thread_id
                                 (interleave_columns K tb) null_indices)))
  /\ (let U :=
        canonical_cfg mc (interleave_rows K (tile_of mc)) (kept_rank mc)
                      false in
      let a :=
        fold_left (ColumnMajorInterleaved_step K mc) ops
                  (ColumnMajorInterleaved.ctor K mc params pointer extent
                                               thread_id tb indices) in
      (ColumnMajorInterleaved.get K mc a,
       ColumnMajorInterleaved.valid K mc a,
       ColumnMajorInterleaved.get_mask K mc mask0 a)
      = observe U mask0
          (run U (List.map (canonical_op keep_axes) ops)
               (PitchLinear.ctor U params pointer
                                 (interleave_rows K extent) thread_id
                                 (interleave_rows K tb) null_indices))).
Proof.
  split; [|split]; cbv zeta.
  - unfold RowMajor.get, RowMajor.valid, RowMajor.get_mask.
    rewrite RowMajor_run. reflexivity.
  - unfold RowMajorInterleaved.get, RowMajorInterleaved.valid,
      RowMajorInterleaved.get_mask.
    rewrite RowMajorInterleaved_run. reflexivity.
  - unfold ColumnMajorInterleaved.get, ColumnMajorInterleaved.valid,
      ColumnMajorInterleaved.get_mask.
    rewrite ColumnMajorInterleaved_run. reflexivity.
Qed.

(* ------------------------------------------------------------------------- *)
(** * Further properties of the code *)

(** ** The iteration index *)

Section IterationIndex.

Variable cfg : Config.
Hypothesis Hpos : config_positive cfg.

Let APV := UnderlyingPredicates.kAccessesPerVector cfg.
Let IC := Iterations_kContiguous (ThreadMap cfg).
Let IS := Iterations_kStrided (ThreadMap cfg).

Lemma predicate_count_eq :
  UnderlyingPredicates.kPredicateCount cfg = IC * IS * APV.
Proof. reflexivity. Qed.

Lemma predicate_count_pos : 0 < UnderlyingPredicates.kPredicateCount cfg.
Proof.
  destruct Hpos as (HA & HC & HS). rewrite predicate_count_eq.
  apply Z.mul_pos_pos; [apply Z.mul_pos_pos|]; assumption.
Qed.

(** The split of an index made by [set_iteration_index] always recombines
    to the index. *)
Lemma iteration_index_recombine (index : Z) :
  let v := Z.rem index APV in
  let ra := Z.quot index APV in
  let c := Z.rem ra IC in
  let s := Z.quot ra IC in
  v + APV * (c + IC * s) = index.
Proof.
  simpl.
  pose proof (Z.quot_rem' index APV) as H1.
  pose proof (Z.quot_rem' (Z.quot index APV) IC) as H2.
  rewrite H1 at 4. rewrite H2 at 3. ring.
Qed.

Lemma iteration_index_in_range (index : Z) :
  0 <= index < UnderlyingPredicates.kPredicateCount cfg ->
  cursor_in_range cfg (Z.rem index APV) (Z.rem (Z.quot index APV) IC)
                  (Z.quot (Z.quot index APV) IC).
Proof.
  destruct Hpos as (HA & HC & HS). rewrite predicate_count_eq. intros Hi.
  change (0 < APV) in HA. change (0 < IC) in HC. change (0 < IS) in HS.
  rewrite (Z.rem_mod_nonneg index), (Z.quot_div_nonneg index) by lia.
  assert (0 <= index / APV) as Hra by (apply Z.div_pos; lia).
  rewrite Z.rem_mod_nonneg, Z.quot_div_nonneg by lia.
  unfold cursor_in_range. fold APV IC IS.
  pose proof (Z.mod_pos_bound index APV HA).
  pose proof (Z.mod_pos_bound (index / APV) IC HC).
  assert (0 <= index / APV / IC) by (apply Z.div_pos; lia).
  assert (index / APV / IC < IS).
  { rewrite Z.div_div by lia. apply Z.div_lt_upper_bound; [nia|].
    replace (APV * IC * IS) with (IC * IS * APV) by ring. lia. }
  lia.
Qed.

Lemma cursor_from_index (v c s : Z) :
  cursor_in_range cfg v c s ->
  (Z.rem (v + APV * (c + IC * s)) APV,
   Z.rem (Z.quot (v + APV * (c + IC * s)) APV) IC,
   Z.quot (Z.quot (v + APV * (c + IC * s)) APV) IC) = (v, c, s).
Proof.
  intros Hin.
  destruct (access_compose cfg _ _ _ Hin) as (Hi & _). simpl in Hi.
  fold APV IC IS in Hi.
  assert (cursor_in_range cfg
            (Z.rem (v + APV * (c + IC * s)) APV)
            (Z.rem (Z.quot (v + APV * (c + IC * s)) APV) IC)
            (Z.quot (Z.quot (v + APV * (c + IC * s)) APV) IC)) as Hin'
    by (apply iteration_index_in_range; rewrite predicate_count_eq; lia).
  pose proof (iteration_index_recombine (v + APV * (c + IC * s))) as E.
  simpl in E.
  destruct (cursor_index_inj cfg _ _ _ _ _ _ Hin' Hin E) as (-> & -> & ->).
  reflexivity.
Qed.

(** One application of [operator++] adds one to the linear index of the
    cursor, modulo the number of accesses of the tile. *)
Lemma next_cursor_index (v c s : Z) :
  cursor_in_range cfg v c s ->
  let '(v', c', s') := next_cursor cfg (v, c, s) in
  v' + APV * (c' + IC * s')
  = (v + APV * (c + IC * s) + 1) mod (IC * IS * APV).
Proof.
  intros Hin. pose proof Hin as (Hv & Hc & Hs).
  change (0 <= v < APV) in Hv. change (0 <= c < IC) in Hc.
  change (0 <= s < IS) in Hs.
  destruct (access_compose cfg _ _ _ Hin) as (Hi & _). simpl in Hi.
  fold APV IC IS in Hi.
  unfold next_cursor. fold APV IC IS.
  destruct (Z.ltb_spec (v + 1) APV).
  { symmetry. rewrite Z.mod_small; [ring|].
    assert (cursor_in_range cfg (v + 1) c s) as Hin'
      by (unfold cursor_in_range; fold APV IC IS; lia).
    destruct (access_compose cfg _ _ _ Hin') as (Hi' & _). simpl in Hi'.
    fold APV IC IS in Hi'. lia. }
  assert (v = APV - 1) as -> by lia.
  destruct (Z.ltb_spec (c + 1) IC).
  { symmetry. rewrite Z.mod_small; [ring|].
    assert (cursor_in_range cfg 0 (c + 1) s) as Hin'
      by (unfold cursor_in_range; fold APV IC IS; lia).
    destruct (access_compose cfg _ _ _ Hin') as (Hi' & _). simpl in Hi'.
    fold APV IC IS in Hi'. lia. }
  assert (c = IC - 1) as -> by lia.
  destruct (Z.ltb_spec (s + 1) IS).
  { symmetry. rewrite Z.mod_small; [ring|].
    assert (cursor_in_range cfg 0 0 (s + 1)) as Hin'
      by (unfold cursor_in_range; fold APV IC IS; lia).
    destruct (access_compose cfg _ _ _ Hin') as (Hi' & _). simpl in Hi'.
    fold APV IC IS in Hi'. lia. }
  assert (s = IS - 1) as -> by lia.
  replace (APV - 1 + APV * (IC - 1 + IC * (IS - 1)) + 1)
    with (1 * (IC * IS * APV)) by ring.
  rewrite Z.mod_mul by lia. ring.
Qed.

End IterationIndex.

Lemma iterator_eq (it it' : Iterator) :
  frame_of it' = frame_of it ->
  cursor_of (the_predicates it') = cursor_of (the_predicates it) ->
  pointer_ it' = pointer_ it ->
  it' = it.
Proof.
  destruct it as [p pa ptr r i pl co], it' as [p' pa' ptr' r' i' pl' co'].
  destruct p, p'. unfold frame_of, cursor_of. simpl.
  intros F C P. injection F as -> -> -> -> -> -> -> -> -> ->.
  injection C as -> -> ->. subst. reflexivity.
Qed.

Lemma iterator_ext (a b : Iterator) :
  the_predicates a = the_predicates b -> params_ a = params_ b ->
  pointer_ a = pointer_ b -> is_residue_tile_ a = is_residue_tile_ b ->
  indices_ a = indices_ b -> permute_layout_ a = permute_layout_ b ->
  coord_offset_ a = coord_offset_ b -> a = b.
Proof.
  destruct a, b. simpl. intros -> -> -> -> -> -> ->. reflexivity.
Qed.

(** X1.  [set_iteration_index(index)] puts the cursor on the access whose
    linear predicate index is [index], whatever the index; the cursor names
    an access of the tile exactly when [0 <= index < kPredicateCount]; the
    predicate words are not touched, so for a non-negative index [valid]
    afterwards reads bit [index] of the packed mask. *)
Theorem set_iteration_index_selects (cfg : Config) (index : Z)
        (p : Predicates) :
  config_positive cfg ->
  let p' := UnderlyingPredicates.set_iteration_index cfg index p in
  cursor_index cfg p' = index
  /\ (cursor_in_range cfg (iteration_vector_ p') (iteration_contiguous_ p')
                      (iteration_strided_ p')
      <-> 0 <= index < UnderlyingPredicates.kPredicateCount cfg)
  /\ predicates_ p' = predicates_ p
  /\ (0 <= index ->
      UnderlyingPredicates.valid cfg p'
      = Z.testbit (array_get (predicates_ p) (index / 16))
                  ((index mod 16 / 4) * 8 + index mod 4)).
Proof.
  intros Hpos p'.
  assert (cursor_index cfg p' = index) as Hidx.
  { unfold cursor_index. rewrite pred_idx_of_eq.
    apply (iteration_index_recombine cfg index). }
  split; [exact Hidx|]. split; [|split; [reflexivity|]].
  - split.
    + intros Hin. destruct (access_compose cfg _ _ _ Hin) as (Hi & _).
      cbv zeta in Hi. unfold cursor_index in Hidx.
      rewrite pred_idx_of_eq in Hidx. rewrite Hidx in Hi.
      rewrite predicate_count_eq. exact Hi.
    + intros Hi. apply iteration_index_in_range; assumption.
  - intros Hi. rewrite valid_reads_bit.
    unfold cursor_index in Hidx. rewrite Hidx.
    rewrite pred_word_idx_div, pred_bit_pos_div by exact Hi. reflexivity.
Qed.

Lemma set_iteration_index_selects_witness :
  config_positive strip_cfg
  /\ cursor_index
       strip_cfg
       (UnderlyingPredicates.set_iteration_index
          strip_cfg 6 (the_predicates strip_it))
     = 6.
Proof.
  assert (config_positive strip_cfg) as H1 by (repeat split).
  refine (conj H1 _).
  exact (proj1 (set_iteration_index_selects strip_cfg 6
                                            (the_predicates strip_it) H1)).
Defined.

Section Walk.

Variable cfg : Config.
Hypothesis Hpos : config_positive cfg.

Let count := UnderlyingPredicates.kPredicateCount cfg.

Lemma cursor_of_index (p : Predicates) :
  cursor_in_range cfg (iteration_vector_ p) (iteration_contiguous_ p)
                  (iteration_strided_ p) ->
  cursor_of (UnderlyingPredicates.set_iteration_index
               cfg (cursor_index cfg p) p)
  = cursor_of p.
Proof.
  intros Hin. unfold cursor_index. rewrite pred_idx_of_eq.
  apply (cursor_from_index cfg Hpos). exact Hin.
Qed.

Lemma cursor_index_range (p : Predicates) :
  cursor_in_range cfg (iteration_vector_ p) (iteration_contiguous_ p)
                  (iteration_strided_ p) ->
  0 <= cursor_index cfg p < count.
Proof.
  intros Hin. destruct (access_compose cfg _ _ _ Hin) as (Hi & _).
  simpl in Hi. unfold cursor_index. rewrite pred_idx_of_eq.
  unfold count. rewrite predicate_count_eq. exact Hi.
Qed.

Lemma incr_cursor_index (it : Iterator) :
  cursor_ok cfg it ->
  cursor_index cfg (the_predicates (PitchLinear.incr cfg it))
  = (cursor_index cfg (the_predicates it) + 1) mod count.
Proof.
  intros Hok. pose proof (incr_cursor cfg it) as E.
  pose proof (next_cursor_index cfg _ _ _ Hok) as N.
  unfold cursor_of in E. rewrite <- E in N.
  unfold cursor_index. rewrite !pred_idx_of_eq. exact N.
Qed.

Lemma advance_cursor_index (k : nat) (it : Iterator) :
  cursor_ok cfg it ->
  cursor_index cfg (the_predicates (advance cfg k it))
  = (cursor_index cfg (the_predicates it) + Z.of_nat k) mod count.
Proof.
  intros Hok. induction k as [|k IH].
  - simpl. rewrite Z.add_0_r. symmetry. apply Z.mod_small.
    apply cursor_index_range. exact Hok.
  - rewrite advance_succ, incr_cursor_index
      by (apply advance_cursor_ok; assumption).
    rewrite IH, Z.add_mod_idemp_l by (pose proof (predicate_count_pos cfg Hpos); unfold count; lia).
    f_equal. lia.
Qed.

Lemma incr_pointer_gen (it : Iterator) :
  cursor_ok cfg it -> sweep_consistent cfg (params_ it) ->
  pointer_ (PitchLinear.incr cfg it)
  = pointer_ it
    + (if PitchLinear.fast_path cfg then
         (iteration_strided_ (the_predicates (PitchLinear.incr cfg it))
          - iteration_strided_ (the_predicates it))
         * inc_strided_ (params_ it)
       else 0).
Proof.
  intros (Hv & Hc & Hs) Hnext. unfold sweep_consistent in Hnext.
  unfold PitchLinear.incr, UnderlyingPredicates.incr,
    PitchLinear.advance_pointer, PitchLinear.kAccessesPerVector.
  fold (UnderlyingPredicates.kAccessesPerVector cfg).
  repeat cmp_step; destruct (PitchLinear.fast_path cfg); cbn; try lia.
  specialize (Hnext eq_refl).
  replace (iteration_strided_ (the_predicates it))
    with (Iterations_kStrided (ThreadMap cfg) - 1) by lia.
  lia.
Qed.

Lemma advance_pointer_gen (k : nat) (it : Iterator) :
  cursor_ok cfg it -> sweep_consistent cfg (params_ it) ->
  pointer_ (advance cfg k it)
  = pointer_ it
    + (if PitchLinear.fast_path cfg then
         (iteration_strided_ (the_predicates (advance cfg k it))
          - iteration_strided_ (the_predicates it))
         * inc_strided_ (params_ it)
       else 0).
Proof.
  intros Hok Hsw. induction k as [|k IH].
  - simpl. destruct (PitchLinear.fast_path cfg); lia.
  - rewrite advance_succ.
    pose proof (advance_frame cfg k it) as F. unfold frame_of in F.
    injection F as _ _ _ _ _ _ Fp _ _ _.
    rewrite incr_pointer_gen; [rewrite IH, Fp|apply advance_cursor_ok; assumption|rewrite Fp; exact Hsw].
    destruct (PitchLinear.fast_path cfg); lia.
Qed.

End Walk.

(** X2.  The visiting order of [operator++]: from any cursor inside the
    tile, [k] applications leave the cursor where [set_iteration_index]
    puts it for the linear index advanced by [k] modulo the number of
    accesses of the tile. *)
Theorem incr_walks_indices (cfg : Config) (it : Iterator) (k : nat) :
  config_positive cfg -> cursor_ok cfg it ->
  cursor_of (the_predicates (advance cfg k it))
  = cursor_of
      (UnderlyingPredicates.set_iteration_index
         cfg
         ((cursor_index cfg (the_predicates it) + Z.of_nat k)
          mod UnderlyingPredicates.kPredicateCount cfg)
         (the_predicates it)).
Proof.
  intros Hpos Hok.
  pose proof (advance_cursor_ok cfg k it Hpos Hok) as Hk.
  rewrite <- (cursor_of_index cfg Hpos _ Hk).
  rewrite (advance_cursor_index cfg Hpos k it Hok). reflexivity.
Qed.

Lemma incr_walks_indices_witness :
  config_positive strip_cfg /\ cursor_ok strip_cfg strip_it
  /\ cursor_of (the_predicates (advance strip_cfg 13 strip_it)) = (0, 1, 1).
Proof.
  assert (config_positive strip_cfg) as H1 by (repeat split).
  assert (cursor_ok strip_cfg strip_it) as H2
    by (vm_compute; intuition congruence).
  refine (conj H1 (conj H2 _)).
  exact (incr_walks_indices strip_cfg strip_it 13 H1 H2).
Defined.

(** X3.  A full sweep is a round trip: applying [operator++] once per
    access of the tile returns the iterator to exactly the state it started
    from (cursor, pointer, predicates and flags), provided that on the fast
    path [inc_next_ - inc_advance_] undoes the strided steps of one tile. *)
Theorem full_sweep_returns (cfg : Config) (it : Iterator) :
  config_positive cfg -> cursor_ok cfg it ->
  sweep_consistent cfg (params_ it) ->
  advance cfg (Z.to_nat (UnderlyingPredicates.kPredicateCount cfg)) it = it.
Proof.
  intros Hpos Hok Hsw.
  set (n := Z.to_nat (UnderlyingPredicates.kPredicateCount cfg)).
  pose proof (predicate_count_pos cfg Hpos) as Hc.
  assert (cursor_of (the_predicates (advance cfg n it))
          = cursor_of (the_predicates it)) as Hcur.
  { pose proof (advance_cursor_ok cfg n it Hpos Hok) as Hk.
    rewrite <- (cursor_of_index cfg Hpos _ Hk).
    rewrite (advance_cursor_index cfg Hpos n it Hok).
    unfold n. rewrite Z2Nat.id by lia.
    rewrite <- (Z.mul_1_l (UnderlyingPredicates.kPredicateCount cfg)) at 1.
    rewrite Z.mod_add by lia.
    rewrite Z.mod_small by (apply cursor_index_range; assumption).
    rewrite <- (cursor_of_index cfg Hpos (the_predicates it) Hok).
    reflexivity. }
  apply iterator_eq.
  - apply advance_frame.
  - exact Hcur.
  - rewrite advance_pointer_gen by assumption.
    unfold cursor_of in Hcur. injection Hcur as _ _ Hs. rewrite Hs.
    destruct (PitchLinear.fast_path cfg); lia.
Qed.

Lemma full_sweep_returns_witness :
  config_positive strip_cfg /\ cursor_ok strip_cfg strip_it
  /\ sweep_consistent strip_cfg (params_ strip_it)
  /\ advance strip_cfg 8 strip_it = strip_it.
Proof.
  assert (config_positive strip_cfg) as H1 by (repeat split).
  assert (cursor_ok strip_cfg strip_it) as H2
    by (vm_compute; intuition congruence).
  assert (sweep_consistent strip_cfg (params_ strip_it)) as H3
    by (intros _; reflexivity).
  refine (conj H1 (conj H2 (conj H3 _))).
  exact (full_sweep_returns strip_cfg strip_it H1 H2 H3).
Defined.

(** ** Masks *)

Section MaskRoundTrip.

Variable cfg : Config.

Lemma get_mask_words (mask0 : list Z) (p : Predicates) :
  mask_sized cfg (predicates_ p) -> mask_sized cfg mask0 ->
  UnderlyingPredicates.get_mask cfg mask0 p = predicates_ p.
Proof.
  unfold mask_sized. intros Hp Hm.
  destruct (pointwise_loop (fun i _ => array_get (predicates_ p) i)
              (UnderlyingPredicates.kPredicateWordCount cfg) mask0)
    as [Hl Hg].
  unfold UnderlyingPredicates.get_mask. apply array_ext; [lia|].
  intros i Hi. rewrite Hg. rewrite Hl in Hi. cmp.
Qed.

Lemma set_mask_words (mask : list Z) (p : Predicates) :
  mask_sized cfg (predicates_ p) ->
  length (predicates_ (UnderlyingPredicates.set_mask cfg mask p))
  = length (predicates_ p)
  /\ forall j,
       0 <= j < UnderlyingPredicates.kPredicateWordCount cfg ->
       array_get (predicates_ (UnderlyingPredicates.set_mask cfg mask p)) j
       = array_get mask j.
Proof.
  unfold mask_sized. intros Hp.
  destruct (pointwise_loop (fun i _ => array_get mask i)
              (UnderlyingPredicates.kPredicateWordCount cfg) (predicates_ p))
    as [Hl Hg].
  cbn [UnderlyingPredicates.set_mask predicates_ with_predicates].
  split; [exact Hl|]. intros j Hj. rewrite Hg. cmp.
Qed.

Lemma set_mask_exact (mask : list Z) (p : Predicates) :
  mask_sized cfg (predicates_ p) -> mask_sized cfg mask ->
  predicates_ (UnderlyingPredicates.set_mask cfg mask p) = mask.
Proof.
  intros Hp Hm. destruct (set_mask_words mask p Hp) as [Hl Hg].
  unfold mask_sized in *. apply array_ext; [lia|].
  intros i Hi. apply Hg. lia.
Qed.

Lemma clear_mask_sized (b : bool) (p : Predicates) :
  mask_sized cfg (predicates_ p) ->
  mask_sized cfg (predicates_ (UnderlyingPredicates.clear_mask cfg b p)).
Proof.
  unfold mask_sized. intros Hp.
  destruct (pointwise_loop (fun _ x => if b then 0 else x)
              (UnderlyingPredicates.kPredicateWordCount cfg) (predicates_ p))
    as [Hl _].
  cbn [UnderlyingPredicates.clear_mask predicates_ with_predicates].
  rewrite Hl. exact Hp.
Qed.

Lemma enable_mask_sized (p : Predicates) :
  mask_sized cfg (predicates_ p) ->
  mask_sized cfg (predicates_ (UnderlyingPredicates.enable_mask cfg p)).
Proof.
  unfold mask_sized. intros Hp.
  destruct (pointwise_loop (fun _ _ => 4294967295)
              (UnderlyingPredicates.kPredicateWordCount cfg) (predicates_ p))
    as [Hl _].
  cbn [UnderlyingPredicates.enable_mask predicates_ with_predicates].
  rewrite Hl. exact Hp.
Qed.

(** Restoring the words of [it] on an iterator that differs from [it] in its
    words only gives [it] back. *)
Lemma restore_words (it : Iterator) (w : list Z) :
  mask_sized cfg (predicates_ (the_predicates it)) -> mask_sized cfg w ->
  PitchLinear.set_mask
    cfg (predicates_ (the_predicates it))
    (with_the_predicates (with_predicates w (the_predicates it)) it)
  = it.
Proof.
  intros Hp Hw. unfold PitchLinear.set_mask, PitchLinear.map_predicates.
  cbn [the_predicates with_the_predicates].
  pose proof (set_mask_exact (predicates_ (the_predicates it))
                (with_predicates w (the_predicates it)) Hw Hp) as E.
  destruct it as [p pa ptr r i pl co]. destruct p.
  unfold UnderlyingPredicates.set_mask in *. cbn in *. rewrite E.
  reflexivity.
Qed.

End MaskRoundTrip.

(** X4.  [set_mask(m)] decides validity: afterwards [valid] at a cursor
    inside the tile is the bit of the caller's mask [m] at the packed
    position of that access, whatever the predicates were before. *)
Theorem set_mask_decides_valid (cfg : Config) (mask : list Z)
        (it : Iterator) :
  mask_sized cfg (predicates_ (the_predicates it)) ->
  cursor_ok cfg it ->
  let idx := cursor_index cfg (the_predicates it) in
  PitchLinear.valid cfg (PitchLinear.set_mask cfg mask it)
  = Z.testbit (array_get mask (idx / 16))
              ((idx mod 16 / 4) * 8 + idx mod 4).
Proof.
  intros Hsz Hok idx.
  destruct (set_mask_words cfg mask (the_predicates it) Hsz) as [_ Hg].
  pose proof (pred_word_in_array cfg _ _ _ Hok) as Hw.
  destruct (access_compose cfg _ _ _ Hok) as (Hi & _). cbv zeta in Hi.
  rewrite <- pred_idx_of_eq in Hi. fold (cursor_index cfg (the_predicates it)) in Hi, Hw.
  fold idx in Hi, Hw.
  unfold PitchLinear.valid, PitchLinear.set_mask, PitchLinear.map_predicates.
  cbn [the_predicates with_the_predicates].
  rewrite valid_reads_bit.
  change (UnderlyingPredicates.pred_idx_of cfg _ _ _) with idx.
  rewrite Hg by exact Hw.
  rewrite pred_word_idx_div, pred_bit_pos_div by lia. reflexivity.
Qed.

Lemma set_mask_decides_valid_witness :
  mask_sized strip_cfg (predicates_ (the_predicates strip_it))
  /\ cursor_ok strip_cfg strip_it
  /\ PitchLinear.valid strip_cfg (PitchLinear.set_mask strip_cfg [1] strip_it)
     = true.
Proof.
  assert (mask_sized strip_cfg (predicates_ (the_predicates strip_it))) as H1
    by reflexivity.
  assert (cursor_ok strip_cfg strip_it) as H2
    by (vm_compute; intuition congruence).
  refine (conj H1 (conj H2 _)).
  exact (set_mask_decides_valid strip_cfg [1] strip_it H1 H2).
Defined.

(** X5.  Saving and restoring the mask: [set_mask] of what [get_mask]
    returned on [it] undoes [clear_mask], [enable_mask] and any [set_mask]
    made on [it] in between, giving back exactly [it]. *)
Theorem mask_save_restore (cfg : Config) (it : Iterator)
        (mask0 mask : list Z) (enable : bool) :
  mask_sized cfg (predicates_ (the_predicates it)) ->
  mask_sized cfg mask0 -> mask_sized cfg mask ->
  let saved := PitchLinear.get_mask cfg mask0 it in
  saved = predicates_ (the_predicates it)
  /\ PitchLinear.set_mask cfg saved (PitchLinear.clear_mask cfg enable it) = it
  /\ PitchLinear.set_mask cfg saved (PitchLinear.enable_mask cfg it) = it
  /\ PitchLinear.set_mask cfg saved (PitchLinear.set_mask cfg mask it) = it.
Proof.
  intros Hp Hm0 Hm saved.
  assert (saved = predicates_ (the_predicates it)) as ->
    by (apply get_mask_words; assumption).
  split; [reflexivity|]. repeat split.
  - apply (restore_words
             cfg it
             (predicates_ (UnderlyingPredicates.clear_mask
                             cfg enable (the_predicates it))) Hp).
    apply clear_mask_sized. exact Hp.
  - apply (restore_words
             cfg it
             (predicates_ (UnderlyingPredicates.enable_mask
                             cfg (the_predicates it))) Hp).
    apply enable_mask_sized. exact Hp.
  - apply (restore_words
             cfg it
             (predicates_ (UnderlyingPredicates.set_mask
                             cfg mask (the_predicates it))) Hp).
    rewrite set_mask_exact; assumption.
Qed.

Lemma mask_save_restore_witness :
  mask_sized strip_cfg (predicates_ (the_predicates strip_it))
  /\ mask_sized strip_cfg [0] /\ mask_sized strip_cfg [7]
  /\ PitchLinear.set_mask
       strip_cfg (PitchLinear.get_mask strip_cfg [0] strip_it)
       (PitchLinear.clear_mask strip_cfg true strip_it)
     = strip_it.
Proof.
  assert (mask_sized strip_cfg (predicates_ (the_predicates strip_it))) as H1
    by reflexivity.
  assert (mask_sized strip_cfg [0]) as H2 by reflexivity.
  assert (mask_sized strip_cfg [7]) as H3 by reflexivity.
  refine (conj H1 (conj H2 (conj H3 _))).
  exact (proj1 (proj2 (mask_save_restore strip_cfg strip_it [0] [7] true
                                         H1 H2 H3))).
Defined.

(** A recomputation starts from zeroed words, so its result does not depend
    on the words held before. *)
Lemma compute_predicates_forgets (cfg : Config) (extent : PitchLinearCoord)
      (ss : bool) (p : Predicates) (w : list Z) :
  mask_sized cfg (predicates_ p) -> mask_sized cfg w ->
  UnderlyingPredicates.compute_predicates_ cfg extent ss (with_predicates w p)
  = UnderlyingPredicates.compute_predicates_ cfg extent ss p.
Proof.
  unfold mask_sized. intros Hp Hw.
  unfold UnderlyingPredicates.compute_predicates_.
  cbn [predicates_ with_predicates thread_offset_].
  destruct (pointwise_loop (fun _ _ => 0)
              (UnderlyingPredicates.kPredicateWordCount cfg) w) as [Hl1 Hg1].
  destruct (pointwise_loop (fun _ _ => 0)
              (UnderlyingPredicates.kPredicateWordCount cfg) (predicates_ p))
    as [Hl2 Hg2].
  cbv beta in *.
  assert (for_loop (UnderlyingPredicates.kPredicateWordCount cfg)
            (fun i a => array_set a i 0) w
          = for_loop (UnderlyingPredicates.kPredicateWordCount cfg)
              (fun i a => array_set a i 0) (predicates_ p)) as ->.
  { apply array_ext; [lia|]. intros i Hi. rewrite Hg1, Hg2.
    rewrite Hl1 in Hi. cmp. }
  reflexivity.
Qed.

(** X6.  The first [add_tile_offset] discards every mask override: in the
    first-tile phase the iterator it produces is the same whether or not
    the mask was cleared, enabled or set before.  Once the first tile is
    left, [add_tile_offset] keeps the mask: it commutes with [set_mask]. *)
Theorem add_tile_offset_and_masks (cfg : Config) (it : Iterator)
        (t : PitchLinearCoord) (mask : list Z) (enable : bool) :
  mask_sized cfg (predicates_ (the_predicates it)) ->
  mask_sized cfg mask ->
  if is_residue_tile_ it then
    PitchLinear.add_tile_offset cfg t (PitchLinear.set_mask cfg mask it)
    = PitchLinear.add_tile_offset cfg t it
    /\ PitchLinear.add_tile_offset cfg t (PitchLinear.clear_mask cfg enable it)
       = PitchLinear.add_tile_offset cfg t it
    /\ PitchLinear.add_tile_offset cfg t (PitchLinear.enable_mask cfg it)
       = PitchLinear.add_tile_offset cfg t it
  else
    PitchLinear.add_tile_offset cfg t (PitchLinear.set_mask cfg mask it)
    = PitchLinear.set_mask cfg mask (PitchLinear.add_tile_offset cfg t it).
Proof.
  intros Hp Hm.
  assert (forall w, mask_sized cfg w ->
            PitchLinear.add_tile_offset_residue
              cfg t (with_the_predicates
                       (with_predicates w (the_predicates it)) it)
            = PitchLinear.add_tile_offset_residue cfg t it) as Hres.
  { intros w Hw. unfold PitchLinear.add_tile_offset_residue.
    cbn [the_predicates with_the_predicates thread_offset_ residue_offset_
         extent_ with_predicates with_thread_offset params_].
    change (with_thread_offset
              (coord_add (thread_offset_ (the_predicates it))
                         (residue_offset_ (the_predicates it)))
              (with_predicates w (the_predicates it)))
      with (with_predicates
              w (with_thread_offset
                   (coord_add (thread_offset_ (the_predicates it))
                              (residue_offset_ (the_predicates it)))
                   (the_predicates it))).
    rewrite compute_predicates_forgets by assumption.
    reflexivity. }
  destruct (is_residue_tile_ it) eqn:Hr.
  - unfold PitchLinear.add_tile_offset, PitchLinear.set_mask,
      PitchLinear.clear_mask, PitchLinear.enable_mask,
      PitchLinear.map_predicates.
    cbn [is_residue_tile_ with_the_predicates]. rewrite Hr.
    repeat split; f_equal.
    + apply (Hres (predicates_ (UnderlyingPredicates.set_mask
                                  cfg mask (the_predicates it)))).
      rewrite set_mask_exact; assumption.
    + apply (Hres (predicates_ (UnderlyingPredicates.clear_mask
                                  cfg enable (the_predicates it)))).
      apply clear_mask_sized. exact Hp.
    + apply (Hres (predicates_ (UnderlyingPredicates.enable_mask
                                  cfg (the_predicates it)))).
      apply enable_mask_sized. exact Hp.
  - unfold PitchLinear.add_tile_offset, PitchLinear.set_mask,
      PitchLinear.map_predicates.
    cbn [is_residue_tile_ with_the_predicates]. rewrite Hr.
    unfold PitchLinear.add_tile_offset_steady, PitchLinear.add_pointer_offset,
      PitchLinear.advance_pointer.
    destruct (PitchLinear.fast_path cfg).
    + destruct (negb (kAdvanceRank cfg =? 0)); reflexivity.
    + destruct (negb (Permute cfg)); reflexivity.
Qed.

Lemma add_tile_offset_and_masks_witness :
  mask_sized strip_cfg (predicates_ (the_predicates strip_it))
  /\ mask_sized strip_cfg [0]
  /\ PitchLinear.add_tile_offset
       strip_cfg (make_Coord 1 0)
       (PitchLinear.clear_mask strip_cfg true strip_it)
     = PitchLinear.add_tile_offset strip_cfg (make_Coord 1 0) strip_it.
Proof.
  assert (mask_sized strip_cfg (predicates_ (the_predicates strip_it))) as H1
    by reflexivity.
  assert (mask_sized strip_cfg [0]) as H2 by reflexivity.
  refine (conj H1 (conj H2 _)).
  exact (proj1 (proj2 (add_tile_offset_and_masks
                         strip_cfg strip_it (make_Coord 1 0) [0] true H1 H2))).
Defined.

(** X7.  The static bound on the predicate words: the words always have
    room for every predicate, with less than one word to spare, and
    [kPredicateWordCount <= 4], which the class asserts statically, holds
    exactly for thread maps with at most 64 accesses per thread. *)
Theorem predicate_word_budget (cfg : Config) :
  config_positive cfg ->
  let count := UnderlyingPredicates.kPredicateCount cfg in
  let words := UnderlyingPredicates.kPredicateWordCount cfg in
  count <= kPredicatesPerWord * words < count + kPredicatesPerWord
  /\ (words <= 4 <-> count <= 64).
Proof.
  intros Hpos count words.
  pose proof (predicate_count_pos cfg Hpos) as Hc. fold count in Hc.
  unfold words, UnderlyingPredicates.kPredicateWordCount,
    UnderlyingPredicates.kPredicateByteCount, kPredicatesPerWord,
    kPredicatesPerByte.
  fold count. split; [|split]; zlin.
Qed.

Lemma predicate_word_budget_witness :
  config_positive strip_cfg
  /\ (UnderlyingPredicates.kPredicateWordCount strip_cfg <= 4
      <-> UnderlyingPredicates.kPredicateCount strip_cfg <= 64).
Proof.
  assert (config_positive strip_cfg) as H1 by (repeat split).
  refine (conj H1 _).
  exact (proj2 (predicate_word_budget strip_cfg H1)).
Defined.
(** ** Mask overrides and the first jump *)

(** On the residue tile [add_tile_offset] recomputes the predicates, so the
    words held before do not matter. *)
Lemma residue_jump_forgets_words (cfg : Config) (t : PitchLinearCoord)
      (it : Iterator) (w : list Z) :
  mask_sized cfg (predicates_ (the_predicates it)) ->
  mask_sized cfg w ->
  PitchLinear.add_tile_offset_residue
    cfg t (with_the_predicates (with_predicates w (the_predicates it)) it)
  = PitchLinear.add_tile_offset_residue cfg t it.
Proof.
  intros Hp Hw. unfold PitchLinear.add_tile_offset_residue.
  cbn [the_predicates with_the_predicates thread_offset_ residue_offset_
       extent_ with_predicates with_thread_offset params_].
  change (with_thread_offset
            (coord_add (thread_offset_ (the_predicates it))
                       (residue_offset_ (the_predicates it)))
            (with_predicates w (the_predicates it)))
    with (with_predicates
            w (with_thread_offset
                 (coord_add (thread_offset_ (the_predicates it))
                            (residue_offset_ (the_predicates it)))
                 (the_predicates it))).
  rewrite compute_predicates_forgets by assumption.
  reflexivity.
Qed.

(** C7 (amended).  Mask override: after [clear_mask(true)], [valid] is false
    at every cursor position and stays false under any number of
    applications of [operator++] and under [set_iteration_index], and, once
    the first tile is left, under any sequence of [operator++] and
    [add_tile_offset]; [enable_mask] then makes every access of the tile
    valid again; [clear_mask(false)] leaves the iterator unchanged; and
    [get_mask] right after [set_mask(m)] returns [m].  On the residue tile,
    however, [add_tile_offset] recomputes the predicates: applied after
    [clear_mask(true)] it gives the iterator it gives without, so the
    cleared mask does not outlast the first jump. *)
Theorem mask_override (cfg : Config) (it : Iterator) :
  mask_sized cfg (predicates_ (the_predicates it)) ->
  (forall (k : nat) (index : Z),
      PitchLinear.valid cfg (advance cfg k (PitchLinear.clear_mask cfg true it))
      = false
      /\ PitchLinear.valid
           cfg (PitchLinear.set_iteration_index
                  cfg index
                  (advance cfg k (PitchLinear.clear_mask cfg true it)))
         = false)
  /\ (is_residue_tile_ it = false ->
      forall ops,
        forallb traversal_op ops = true ->
        PitchLinear.valid cfg (run cfg ops (PitchLinear.clear_mask cfg true it))
        = false)
  /\ (forall index v c s,
         cursor_of (the_predicates
                      (PitchLinear.set_iteration_index
                         cfg index
                         (PitchLinear.enable_mask
                            cfg (PitchLinear.clear_mask cfg true it))))
         = (v, c, s) ->
         cursor_in_range cfg v c s ->
         PitchLinear.valid
           cfg (PitchLinear.set_iteration_index
                  cfg index
                  (PitchLinear.enable_mask
                     cfg (PitchLinear.clear_mask cfg true it)))
         = true)
  /\ PitchLinear.clear_mask cfg false it = it
  /\ (forall mask mask0,
         mask_sized cfg mask -> mask_sized cfg mask0 ->
         PitchLinear.get_mask cfg mask0 (PitchLinear.set_mask cfg mask it)
         = mask)
  /\ (is_residue_tile_ it = true ->
      forall t,
        PitchLinear.add_tile_offset cfg t (PitchLinear.clear_mask cfg true it)
        = PitchLinear.add_tile_offset cfg t it).
Proof.
  intros Hsz.
  split; [|split; [|split; [|split; [|split]]]]; [repeat split| | | | |].
  - unfold PitchLinear.valid. apply valid_all_zero. intros j.
    pose proof (advance_frame cfg k (PitchLinear.clear_mask cfg true it)) as F.
    unfold frame_of in F. injection F as Hw _. rewrite Hw.
    apply clear_mask_true_words. exact Hsz.
  - unfold PitchLinear.valid. apply valid_all_zero. intros j.
    pose proof (advance_frame cfg k (PitchLinear.clear_mask cfg true it)) as F.
    unfold frame_of in F. injection F as Hw _.
    cbn [PitchLinear.set_iteration_index the_predicates with_the_predicates
         UnderlyingPredicates.set_iteration_index with_cursor predicates_].
    rewrite Hw. apply clear_mask_true_words. exact Hsz.
  - intros Hres ops Hops.
    destruct (steady_words_kept cfg ops (PitchLinear.clear_mask cfg true it)
                                Hres Hops) as [_ Hw].
    unfold PitchLinear.valid. apply valid_all_zero. intros j.
    rewrite Hw. apply clear_mask_true_words. exact Hsz.
  - intros index v c s Hcur Hin.
    unfold PitchLinear.valid. rewrite (valid_at_cursor cfg _ v c s Hcur).
    pose proof (pred_word_in_array cfg v c s Hin) as Hw.
    destruct (access_compose cfg _ _ _ Hin) as (Hi & _). simpl in Hi.
    rewrite <- pred_idx_of_eq in Hi.
    pose proof (pred_bit_pos_range _ (proj1 Hi)) as Hb.
    cbn [PitchLinear.set_iteration_index the_predicates with_the_predicates
         UnderlyingPredicates.set_iteration_index with_cursor predicates_
         PitchLinear.enable_mask PitchLinear.map_predicates].
    rewrite enable_mask_words; [ | | exact Hw ].
    + change 4294967295 with (Z.ones 32). apply Z.ones_spec_low. lia.
    + unfold mask_sized.
      cbn [PitchLinear.clear_mask PitchLinear.map_predicates the_predicates
           with_the_predicates UnderlyingPredicates.clear_mask predicates_
           with_predicates].
      destruct (pointwise_loop (fun _ _ => 0)
                  (UnderlyingPredicates.kPredicateWordCount cfg)
                  (predicates_ (the_predicates it))) as [Hl _].
      rewrite Hl. exact Hsz.
  - unfold PitchLinear.clear_mask, PitchLinear.map_predicates.
    rewrite clear_mask_false_id. destruct it; reflexivity.
  - intros mask mask0 Hm Hm0. unfold PitchLinear.get_mask, PitchLinear.set_mask.
    cbn [PitchLinear.map_predicates the_predicates with_the_predicates].
    apply set_get_mask; assumption.
  - intros Hres t.
    unfold PitchLinear.add_tile_offset, PitchLinear.clear_mask,
      PitchLinear.map_predicates.
    cbn [is_residue_tile_ with_the_predicates]. rewrite Hres. f_equal.
    apply (residue_jump_forgets_words
             cfg t it
             (predicates_ (UnderlyingPredicates.clear_mask
                             cfg true (the_predicates it)))).
    + exact Hsz.
    + apply clear_mask_sized. exact Hsz.
Qed.


Lemma mask_override_witness :
  mask_sized strip_cfg (predicates_ (the_predicates strip_it))
  /\ PitchLinear.valid
       strip_cfg (advance strip_cfg 3 (PitchLinear.clear_mask strip_cfg true
                                                              strip_it))
     = false
  /\ PitchLinear.valid
       strip_cfg
       (PitchLinear.set_iteration_index
          strip_cfg 0
          (PitchLinear.enable_mask
             strip_cfg (PitchLinear.clear_mask strip_cfg true strip_it)))
     = true
  /\ PitchLinear.clear_mask strip_cfg false strip_it = strip_it
  /\ PitchLinear.get_mask strip_cfg [0]
                          (PitchLinear.set_mask strip_cfg [291] strip_it)
     = [291]
  /\ PitchLinear.add_tile_offset
       strip_cfg (make_Coord 1 0)
       (PitchLinear.clear_mask strip_cfg true strip_it)
     = PitchLinear.add_tile_offset strip_cfg (make_Coord 1 0) strip_it.
Proof.
  assert (mask_sized strip_cfg (predicates_ (the_predicates strip_it)))
    as H1 by reflexivity.
  refine (conj H1 _).
  destruct (mask_override strip_cfg strip_it H1)
    as (Hclear & _ & Henable & Hid & Hround & Hjump).
  split; [exact (proj1 (Hclear 3%nat 0))|].
  split.
  { apply (Henable 0 0 0 0); [reflexivity|].
    vm_compute; intuition congruence. }
  split; [exact Hid|].
  split; [apply Hround; reflexivity|].
  apply Hjump. reflexivity.
Defined.

(** C7 as stated fails on the residue tile.  Thread 5 of the strip map
    starts at (5, 0), outside the two residue columns: [valid] is false
    after [clear_mask(true)], and true after the first [add_tile_offset],
    with neither [enable_mask] nor [set_mask] called in between. *)
Lemma mask_override_counterexample :
  is_residue_tile_ strip_it = true
  /\ PitchLinear.valid
       strip_cfg (PitchLinear.clear_mask strip_cfg true strip_it)
     = false
  /\ PitchLinear.valid
       strip_cfg
       (PitchLinear.add_tile_offset
          strip_cfg (make_Coord 1 0)
          (PitchLinear.clear_mask strip_cfg true strip_it))
     = true.
Proof. vm_compute. repeat split. Qed.

(** ** Pointer and tile offsets *)

Ltac split_ifs :=
  repeat match goal with
         | |- context [if ?b then _ else _] => destruct b
         end.

Ltac proj_simpl :=
  cbn [the_predicates params_ pointer_ is_residue_tile_ indices_
       permute_layout_ coord_offset_ contiguous strided].

(** Reduce the projections of an updated iterator, lazily: only the field
    asked for is computed. *)
Ltac fields :=
  lazy beta iota zeta delta
       [the_predicates params_ pointer_ is_residue_tile_ indices_
        permute_layout_ coord_offset_ with_pointer with_the_predicates
        with_coord_offset with_is_residue_tile PitchLinear.advance_pointer
        PitchLinear.add_pointer_offset
        predicates_ extent_ thread_offset_ residue_offset_ iteration_vector_
        iteration_contiguous_ iteration_strided_ compute_predicates_calls
        with_predicates with_cursor with_thread_offset with_residue_offset
        count_recomputation UnderlyingPredicates.compute_predicates_
        contiguous strided coord_add coord_sub].

Section Offsets.

Variable cfg : Config.

(** Nothing reads the pointer but [get]: every call commutes with moving
    it. *)
Lemma step_advance_pointer (d : Z) (op : Op) (it : Iterator) :
  step cfg (PitchLinear.advance_pointer d it) op
  = PitchLinear.advance_pointer d (step cfg it op).
Proof.
  destruct it as [p pa ptr r i pl [cc cs]]. destruct p.
  destruct op; simpl; try reflexivity.
  - unfold PitchLinear.incr, UnderlyingPredicates.incr. fields.
    split_ifs; apply iterator_ext; fields; try reflexivity; lia.
  - unfold PitchLinear.add_tile_offset, PitchLinear.add_tile_offset_residue,
      PitchLinear.add_tile_offset_steady.
    fields.
    split_ifs; apply iterator_ext; fields; try reflexivity; lia.
  - apply iterator_ext; fields; try reflexivity; lia.
Qed.

Lemma run_advance_pointer (d : Z) (ops : list Op) (it : Iterator) :
  run cfg ops (PitchLinear.advance_pointer d it)
  = PitchLinear.advance_pointer d (run cfg ops it).
Proof.
  revert it. induction ops as [|op ops IH]; intros it; [reflexivity|].
  unfold run in *. simpl. rewrite step_advance_pointer. apply IH.
Qed.

End Offsets.

(** X8.  [add_pointer_offset] is a pure translation: it commutes with every
    sequence of calls, leaves [valid] unchanged, and shifts every address
    [get] returns by the same number of bytes (a null pointer stays
    null). *)
Theorem add_pointer_offset_translates (cfg : Config) (pointer_offset : Z)
        (ops : list Op) (it : Iterator) :
  let bytes := Z.quot (sizeof_bits_Element cfg * pointer_offset) 8 in
  let moved := run cfg ops (PitchLinear.add_pointer_offset
                              cfg pointer_offset it) in
  moved = PitchLinear.add_pointer_offset cfg pointer_offset (run cfg ops it)
  /\ PitchLinear.valid cfg moved = PitchLinear.valid cfg (run cfg ops it)
  /\ PitchLinear.get cfg moved
     = option_map (fun a => a + bytes) (PitchLinear.get cfg (run cfg ops it)).
Proof.
  intros bytes moved.
  assert (moved = PitchLinear.add_pointer_offset
                    cfg pointer_offset (run cfg ops it)) as E
    by apply run_advance_pointer.
  split; [exact E|]. rewrite E. split; [reflexivity|].
  unfold PitchLinear.get, PitchLinear.valid, PitchLinear.add_pointer_offset,
    PitchLinear.advance_pointer.
  cbn [the_predicates with_pointer pointer_ params_ indices_ permute_layout_
       coord_offset_].
  fold bytes.
  destruct (Gather cfg || Permute cfg).
  - destruct (negb (UnderlyingPredicates.valid
                      cfg (the_predicates (run cfg ops it))));
      [reflexivity|]. simpl. f_equal. lia.
  - simpl. f_equal. lia.
Qed.

(** X9.  Tile jumps after the first tile form a group action: two jumps
    equal the jump by the sum of the offsets, the zero jump changes nothing,
    and a jump commutes with [operator++].  On the gather path without
    permutation the sum law needs elements of whole bytes, because every
    jump truncates its byte offset separately. *)
Theorem steady_tile_offsets_compose (cfg : Config) (it : Iterator)
        (t1 t2 : PitchLinearCoord) :
  is_residue_tile_ it = false ->
  (PitchLinear.fast_path cfg = false -> Permute cfg = false ->
   (8 | sizeof_bits_Element cfg)) ->
  PitchLinear.add_tile_offset cfg t2 (PitchLinear.add_tile_offset cfg t1 it)
  = PitchLinear.add_tile_offset cfg (coord_add t1 t2) it
  /\ PitchLinear.add_tile_offset cfg (make_Coord 0 0) it = it
  /\ PitchLinear.incr cfg (PitchLinear.add_tile_offset cfg t1 it)
     = PitchLinear.add_tile_offset cfg t1 (PitchLinear.incr cfg it).
Proof.
  intros Hr Hbits.
  assert (forall x y,
            PitchLinear.fast_path cfg = false -> Permute cfg = false ->
            Z.quot (sizeof_bits_Element cfg * (Shape_kContiguous cfg * x)) 8
            + Z.quot (sizeof_bits_Element cfg * (Shape_kContiguous cfg * y)) 8
            = Z.quot (sizeof_bits_Element cfg
                      * (Shape_kContiguous cfg * (x + y))) 8) as Hq.
  { intros x y Hf Hp. destruct (Hbits Hf Hp) as [e He]. rewrite He.
    replace (e * 8 * (Shape_kContiguous cfg * x))
      with (e * (Shape_kContiguous cfg * x) * 8) by ring.
    replace (e * 8 * (Shape_kContiguous cfg * y))
      with (e * (Shape_kContiguous cfg * y) * 8) by ring.
    replace (e * 8 * (Shape_kContiguous cfg * (x + y)))
      with (e * (Shape_kContiguous cfg * (x + y)) * 8) by ring.
    rewrite !Z.quot_mul by lia. ring. }
  destruct it as [p pa ptr r i pl [cc cs]]. destruct p.
  destruct t1 as [c1 s1], t2 as [c2 s2]. cbn [is_residue_tile_] in Hr.
  subst r.
  unfold PitchLinear.add_tile_offset, PitchLinear.add_tile_offset_steady,
    PitchLinear.incr, UnderlyingPredicates.incr.
  split; [|split].
  - fields. destruct (PitchLinear.fast_path cfg) eqn:Hf.
    + destruct (negb (kAdvanceRank cfg =? 0)); apply iterator_ext; fields;
        try reflexivity; lia.
    + destruct (Permute cfg) eqn:Hp; cbn [negb]; apply iterator_ext; fields;
        try reflexivity; try (f_equal; lia).
      rewrite <- Z.add_assoc, (Hq _ _ eq_refl eq_refl). reflexivity.
  - fields. rewrite !Z.mul_0_r. change (Z.quot 0 8) with 0.
    rewrite !Z.add_0_r. split_ifs; reflexivity.
  - fields.
    destruct (PitchLinear.fast_path cfg);
      destruct (negb (kAdvanceRank cfg =? 0));
      destruct (negb (Permute cfg)); fields;
      split_ifs; apply iterator_ext; fields; try reflexivity; lia.
Qed.

Lemma steady_tile_offsets_compose_witness :
  is_residue_tile_
    (PitchLinear.add_tile_offset strip_cfg (make_Coord 1 0) strip_it) = false
  /\ PitchLinear.add_tile_offset
       strip_cfg (make_Coord 2 0)
       (PitchLinear.add_tile_offset
          strip_cfg (make_Coord 3 0)
          (PitchLinear.add_tile_offset strip_cfg (make_Coord 1 0) strip_it))
     = PitchLinear.add_tile_offset
         strip_cfg (make_Coord 5 0)
         (PitchLinear.add_tile_offset strip_cfg (make_Coord 1 0) strip_it).
Proof.
  refine (conj eq_refl _).
  exact (proj1 (steady_tile_offsets_compose
                  strip_cfg
                  (PitchLinear.add_tile_offset strip_cfg (make_Coord 1 0)
                                               strip_it)
                  (make_Coord 3 0) (make_Coord 2 0) eq_refl
                  (fun H => False_ind _ (Bool.diff_true_false H)))).
Defined.

(** X10.  The first jump splits: on the residue tile, [add_tile_offset(t)]
    is a jump of one tile along the advance axis followed by a jump by the
    rest.  On the gather and permute paths this holds for every [t]; on the
    fast path it holds for jumps along the advance axis, where the two
    branches of [add_tile_offset] agree. *)
Theorem first_jump_splits (cfg : Config) (it : Iterator)
        (t : PitchLinearCoord) :
  is_residue_tile_ it = true ->
  kAdvanceRank cfg = 0 \/ kAdvanceRank cfg = 1 ->
  (PitchLinear.fast_path cfg = true -> other_axis cfg t = 0) ->
  PitchLinear.add_tile_offset cfg t it
  = PitchLinear.add_tile_offset
      cfg (coord_sub t (unit_tile cfg))
      (PitchLinear.add_tile_offset cfg (unit_tile cfg) it).
Proof.
  intros Hr Hrank Hother.
  unfold PitchLinear.add_tile_offset.
  cbn [is_residue_tile_ with_is_residue_tile]. rewrite Hr.
  unfold PitchLinear.add_tile_offset_residue,
    PitchLinear.add_tile_offset_steady, unit_tile, other_axis in *.
  destruct it as [p pa ptr r i pl [cc cs]]. destruct p. destruct t as [tc ts].
  cbn [contiguous strided] in Hother.
  destruct (PitchLinear.fast_path cfg) eqn:Hf.
  - specialize (Hother eq_refl).
    destruct Hrank as [H|H]; rewrite H in *; cbn [Z.eqb negb] in *;
      subst; apply iterator_ext; fields; try reflexivity;
      rewrite ?Z.mul_0_r, ?Z.mul_0_l; change (Z.quot 0 8) with 0; lia.
  - clear Hother.
    destruct Hrank as [H|H]; rewrite H in *; cbn [Z.eqb negb] in *;
      destruct (Permute cfg); cbn [negb]; apply iterator_ext; fields;
      try reflexivity;
      repeat (progress (change (1 - 0) with 1; change (1 - 1) with 0;
                        change (0 - 0) with 0;
                        rewrite ?Z.sub_0_r, ?Z.mul_0_r, ?Z.mul_0_l;
                        change (Z.quot 0 8) with 0));
      try lia; f_equal; lia.
Qed.
Lemma first_jump_splits_witness :
  is_residue_tile_ strip_it = true
  /\ (kAdvanceRank strip_cfg = 0 \/ kAdvanceRank strip_cfg = 1)
  /\ PitchLinear.add_tile_offset strip_cfg (make_Coord 3 0) strip_it
     = PitchLinear.add_tile_offset
         strip_cfg (make_Coord 2 0)
         (PitchLinear.add_tile_offset strip_cfg (make_Coord 1 0) strip_it).
Proof.
  refine (conj eq_refl (conj (or_introl eq_refl) _)).
  exact (first_jump_splits strip_cfg strip_it (make_Coord 3 0) eq_refl
                           (or_introl eq_refl) (fun _ => eq_refl)).
Defined.

(** ** Addresses along a traversal *)

Section TraversalAddresses.

Variable cfg : Config.
Variable esz : Z.
Variable params : Params.
Variable pointer : Z.
Variable extent : PitchLinearCoord.
Variable thread_id : Z.
Variable tb : PitchLinearCoord.
Variable indices : Z -> Z.
Hypothesis Hpos : config_positive cfg.
Hypothesis Hrank : kAdvanceRank cfg = 0 \/ kAdvanceRank cfg = 1.
Hypothesis Hbytes : byte_sized cfg esz.
Hypothesis Hparams : params_consistent cfg esz params.
Hypothesis Hadvance : advance_consistent cfg esz params.

Let it0 := PitchLinear.ctor cfg params pointer extent thread_id tb indices.
Let first := coord_add tb (initial_offset (ThreadMap cfg) thread_id).
Let residue := UnderlyingPredicates.residue_offset_of cfg extent tb.

(** The iterator addresses the tile in which the thread starts at [P]. *)
Let At (it : Iterator) (P : PitchLinearCoord) : Prop :=
  cursor_ok cfg it
  /\ params_ it = params
  /\ indices_ it = indices
  /\ permute_layout_ it = permute_layout cfg extent (stride_ params)
  /\ pointer_ it
     = (if PitchLinear.fast_path cfg then
          pointer + esz * PitchLinear_offset (stride_ params) P
          + iteration_strided_ (the_predicates it) * inc_strided_ params
        else if Permute cfg then pointer
        else pointer + esz * contiguous P)
  /\ (PitchLinear.fast_path cfg = false ->
      strided (coord_offset_ it) = strided P
      /\ (Permute cfg = true -> contiguous (coord_offset_ it) = contiguous P)).

Lemma At_get (it : Iterator) (P : PitchLinearCoord) :
  At it P ->
  PitchLinear.get cfg it
  = if PitchLinear.fast_path cfg || PitchLinear.valid cfg it then
      Some (tensor_address
              cfg params pointer extent indices
              (UnderlyingPredicates.access_coord
                 cfg P (iteration_vector_ (the_predicates it))
                 (iteration_contiguous_ (the_predicates it))
                 (iteration_strided_ (the_predicates it))))
    else None.
Proof.
  intros (Hc & Hp & Hi & Hl & Hptr & Hco).
  destruct Hbytes as (Hbits & Hoff & Hacc).
  destruct Hparams as (Hstr & _).
  unfold PitchLinear.get, tensor_address, tensor_offset,
    UnderlyingPredicates.access_coord.
  rewrite Hptr, Hp, Hi, Hl.
  unfold PitchLinear.fast_path in *.
  destruct (Gather cfg), (Permute cfg); cbn [negb andb orb] in *;
    try (destruct (Hco eq_refl) as [Hcs Hcc]; rewrite Hcs);
    try (rewrite (Hcc eq_refl));
    try (destruct (PitchLinear.valid cfg it); cbn [negb]; [|reflexivity]);
    f_equal; rewrite ?Hoff, ?Hacc, ?Hbits, ?Hstr;
    cbn [contiguous strided coord_add];
    unfold PitchLinear_offset; cbn [contiguous strided].
  all: rewrite ?Z.add_0_r, ?Z.add_assoc; try reflexivity; try ring.
  replace (iteration_contiguous_ (the_predicates it)
           * (Delta_kContiguous (ThreadMap cfg) * (8 * esz)))
    with (8 * esz * (iteration_contiguous_ (the_predicates it)
                     * Delta_kContiguous (ThreadMap cfg))) by ring.
  rewrite quot_bytes. ring.
Qed.

Lemma At_incr (it : Iterator) (P : PitchLinearCoord) :
  At it P -> At (PitchLinear.incr cfg it) P.
Proof.
  intros (Hc & Hp & Hi & Hl & Hptr & Hco).
  pose proof (incr_frame cfg it) as F. unfold frame_of in F.
  injection F as _ _ _ _ _ _ Fp Fi Fl Fc.
  unfold At. rewrite Fp, Fi, Fl, Fc.
  split; [apply incr_cursor_ok; assumption|].
  repeat (split; [assumption|]). split; [|exact Hco].
  rewrite (incr_pointer cfg esz params Hparams it Hc Hp), Hptr.
  destruct (PitchLinear.fast_path cfg); [|destruct (Permute cfg)]; lia.
Qed.

Lemma At_ctor : At it0 first.
Proof.
  destruct (ctor_addressing cfg esz params pointer extent thread_id tb indices
                            Hbytes)
    as (Hp0 & Hi0 & Hl0 & Ht0 & Hptr0 & Hco0).
  fold it0 in Hp0, Hi0, Hl0, Ht0, Hptr0, Hco0. fold first in Ht0, Hptr0, Hco0.
  unfold At. split; [apply ctor_cursor_ok; exact Hpos|].
  repeat (split; [assumption|]). split.
  - rewrite Hptr0.
    pose proof (ctor_cursor cfg params pointer extent thread_id tb indices)
      as E. unfold cursor_of in E. injection E as _ _ Es.
    fold it0 in Es. rewrite Es.
    destruct (PitchLinear.fast_path cfg); [lia|reflexivity].
  - intros Hf. rewrite (Hco0 Hf). split; reflexivity.
Qed.

Lemma residue_axes :
  advance_axis cfg residue
  = UnderlyingPredicates.residue_size_of cfg extent tb
  /\ other_axis cfg residue = 0.
Proof.
  destruct (residue_size_cases cfg extent tb Hrank) as (_ & H1 & H2).
  split; assumption.
Qed.

(** The first jump, along the advance axis. *)
Lemma At_first_jump (it : Iterator) (t : PitchLinearCoord) :
  At it first ->
  is_residue_tile_ it = true ->
  thread_offset_ (the_predicates it) = first ->
  residue_offset_ (the_predicates it) = residue ->
  other_axis cfg t = 0 ->
  At (PitchLinear.add_tile_offset cfg t it)
     (coord_add (coord_add first residue)
                (tile_shift cfg (advance_axis cfg t - 1))).
Proof.
  intros (Hc & Hp & Hi & Hl & Hptr & Hco) Hr Ht Hres Hother.
  destruct Hbytes as (Hbits & Hoff & Hacc).
  destruct residue_axes as [Hra Hro].
  unfold advance_consistent in Hadvance.
  unfold At, cursor_ok, PitchLinear.add_tile_offset in *.
  rewrite Hr. clear Hr.
  unfold PitchLinear.add_tile_offset_residue, tile_shift, advance_axis,
    other_axis, PitchLinear_offset in *.
  clearbody first residue.
  destruct it as [p pa ptr r i pl [cc cs]].
  destruct p as [w e th ro iv ic isd n].
  destruct t as [tc ts]. destruct first as [fc fs].
  destruct residue as [rc rs].
  cbn [the_predicates params_ pointer_ indices_ permute_layout_ coord_offset_
       thread_offset_ residue_offset_ iteration_vector_ iteration_contiguous_
       iteration_strided_ contiguous strided] in *.
  subst pa i pl th ro.
  destruct (PitchLinear.fast_path cfg) eqn:Hf.
  - destruct Hrank as [H|H]; rewrite H in *; cbn [Z.eqb negb] in *;
      fields; rewrite Hbits, Hadvance; subst;
      rewrite ?Z.mul_0_r, ?Z.mul_0_l, ?quot_bytes;
      change (Z.quot 0 8) with 0;
      (split; [exact Hc|]); (split; [reflexivity|]);
      (split; [reflexivity|]); (split; [reflexivity|]);
      (split; [ring | intros Hx; discriminate Hx]).
  - specialize (Hco eq_refl). destruct Hco as [Hcs Hcc].
    destruct Hrank as [H|H]; rewrite H in *; cbn [Z.eqb negb] in *;
      destruct (Permute cfg); cbn [negb] in *;
      fields; rewrite ?Hbits; subst;
      rewrite ?Z.mul_0_r, ?Z.mul_0_l, ?quot_bytes;
      change (Z.quot 0 8) with 0;
      (split; [exact Hc|]); (split; [reflexivity|]);
      (split; [reflexivity|]); (split; [reflexivity|]);
      (split; [ring
              | intros _; split;
                [ring | intros Hx; first [discriminate Hx | ring]]]).
Qed.

(** Every later jump along the advance axis. *)
Lemma At_later_jump (it : Iterator) (t P : PitchLinearCoord) :
  At it P ->
  is_residue_tile_ it = false ->
  other_axis cfg t = 0 ->
  At (PitchLinear.add_tile_offset cfg t it)
     (coord_add P (tile_shift cfg (advance_axis cfg t))).
Proof.
  intros (Hc & Hp & Hi & Hl & Hptr & Hco) Hr Hother.
  destruct Hbytes as (Hbits & Hoff & Hacc).
  unfold advance_consistent in Hadvance.
  unfold At, cursor_ok, PitchLinear.add_tile_offset in *.
  rewrite Hr. clear Hr.
  unfold PitchLinear.add_tile_offset_steady, tile_shift, advance_axis,
    other_axis, PitchLinear_offset in *.
  destruct it as [p pa ptr r i pl [cc cs]].
  destruct p as [w e th ro iv ic isd n].
  destruct t as [tc ts]. destruct P as [pc ps].
  cbn [the_predicates params_ pointer_ indices_ permute_layout_ coord_offset_
       thread_offset_ residue_offset_ iteration_vector_ iteration_contiguous_
       iteration_strided_ contiguous strided] in *.
  subst pa i pl.
  destruct (PitchLinear.fast_path cfg) eqn:Hf.
  - destruct Hrank as [H|H]; rewrite H in *; cbn [Z.eqb negb] in *;
      fields; rewrite Hadvance; subst;
      rewrite ?Z.mul_0_r, ?Z.mul_0_l;
      (split; [exact Hc|]); (split; [reflexivity|]);
      (split; [reflexivity|]); (split; [reflexivity|]);
      (split; [ring | intros Hx; discriminate Hx]).
  - specialize (Hco eq_refl). destruct Hco as [Hcs Hcc].
    destruct Hrank as [H|H]; rewrite H in *; cbn [Z.eqb negb] in *;
      destruct (Permute cfg); cbn [negb] in *;
      fields; rewrite ?Hbits; subst;
      rewrite ?Z.mul_0_r, ?Z.mul_0_l, ?quot_bytes;
      change (Z.quot 0 8) with 0;
      (split; [exact Hc|]); (split; [reflexivity|]);
      (split; [reflexivity|]); (split; [reflexivity|]);
      (split; [ring
              | intros _; split;
                [ring | intros Hx;
                        first [discriminate Hx
                              | rewrite (Hcc eq_refl); ring]]]).
Qed.

Lemma tile_shift_add (P : PitchLinearCoord) (n m : Z) :
  coord_add (coord_add P (tile_shift cfg (n - 1))) (tile_shift cfg m)
  = coord_add P (tile_shift cfg (n + m - 1)).
Proof.
  unfold tile_shift, coord_add.
  destruct (kAdvanceRank cfg =? 0); cbn [contiguous strided]; f_equal; ring.
Qed.

Lemma tiles_jumped_snoc (ops : list Op) (op : Op) :
  tiles_jumped cfg (ops ++ [op])
  = match op with
    | OpAddTileOffset t => tiles_jumped cfg ops + advance_axis cfg t
    | _ => tiles_jumped cfg ops
    end.
Proof. unfold tiles_jumped. rewrite fold_left_app. reflexivity. Qed.

(** Where the iterator is after a traversal along the advance axis. *)
Lemma traversal_at (ops : list Op) :
  forallb (fun op => traversal_op op && along_advance_axis cfg op) ops = true ->
  let it := run cfg ops it0 in
  if existsb is_add_tile_offset ops then
    At it (coord_add (coord_add first residue)
                     (tile_shift cfg (tiles_jumped cfg ops - 1)))
    /\ is_residue_tile_ it = false
    /\ thread_offset_ (the_predicates it) = coord_add first residue
  else
    At it first
    /\ is_residue_tile_ it = true
    /\ thread_offset_ (the_predicates it) = first
    /\ residue_offset_ (the_predicates it) = residue
    /\ tiles_jumped cfg ops = 0.
Proof.
  induction ops as [|op ops IH] using rev_ind; intros Hops.
  - simpl.
    destruct (advance_first_valid cfg params pointer extent thread_id tb
                                  indices Hpos 0) as (_ & Ht & Hres & _).
    simpl in Ht, Hres. fold it0 in Ht, Hres.
    split; [exact At_ctor|]. split; [apply ctor_is_residue_tile|].
    split; [exact Ht|]. split; [exact Hres|]. reflexivity.
  - rewrite forallb_app in Hops. apply andb_true_iff in Hops as [Hops Hop].
    specialize (IH Hops). cbv zeta in IH |- *.
    rewrite run_snoc, existsb_app, tiles_jumped_snoc.
    simpl in Hop. rewrite andb_true_r in Hop.
    apply andb_true_iff in Hop as [Hop1 Hop2].
    destruct op; try discriminate; simpl; rewrite ?orb_false_r.
    + pose proof (incr_frame cfg (run cfg ops it0)) as F.
      unfold frame_of in F. injection F as _ _ Ft Fr _ Ff _ _ _ _.
      rewrite Ft, Fr, Ff.
      destruct (existsb is_add_tile_offset ops).
      * destruct IH as (HA & Hr & Ht). split; [apply At_incr; exact HA|].
        split; assumption.
      * destruct IH as (HA & Hr & Ht & Hres & Hn).
        split; [apply At_incr; exact HA|]. repeat split; assumption.
    + rewrite orb_true_r. simpl in Hop2. apply Z.eqb_eq in Hop2.
      destruct (existsb is_add_tile_offset ops).
      * destruct IH as (HA & Hr & Ht).
        split; [|split; [reflexivity|]].
        -- rewrite <- tile_shift_add. apply At_later_jump; assumption.
        -- unfold PitchLinear.add_tile_offset. rewrite Hr.
           cbn [the_predicates with_is_residue_tile].
           rewrite add_tile_offset_steady_predicates. exact Ht.
      * destruct IH as (HA & Hr & Ht & Hres & Hn).
        split; [|split; [reflexivity|]].
        -- rewrite Hn, Z.add_0_l. apply At_first_jump; assumption.
        -- unfold PitchLinear.add_tile_offset. rewrite Hr.
           cbn [the_predicates with_is_residue_tile].
           rewrite add_tile_offset_residue_predicates.
           cbn [UnderlyingPredicates.compute_predicates_ thread_offset_
                count_recomputation with_predicates with_thread_offset].
           rewrite Ht, Hres. reflexivity.
Qed.

Lemma traversal_get (ops : list Op) :
  forallb (fun op => traversal_op op && along_advance_axis cfg op) ops = true ->
  let it := run cfg ops it0 in
  PitchLinear.get cfg it
  = if PitchLinear.fast_path cfg || PitchLinear.valid cfg it then
      Some (tensor_address cfg params pointer extent indices
                           (current_coord cfg ops it))
    else None.
Proof.
  intros Hops it. pose proof (traversal_at ops Hops) as H. fold it in H.
  unfold current_coord. fold it.
  destruct (existsb is_add_tile_offset ops).
  - destruct H as (HA & _ & Ht). rewrite (At_get _ _ HA).
    unfold cursor_coord. rewrite Ht.
    replace (UnderlyingPredicates.access_coord
               cfg (coord_add (coord_add first residue)
                              (tile_shift cfg (tiles_jumped cfg ops - 1)))
               (iteration_vector_ (the_predicates it))
               (iteration_contiguous_ (the_predicates it))
               (iteration_strided_ (the_predicates it)))
      with (coord_add
              (UnderlyingPredicates.access_coord
                 cfg (coord_add first residue)
                 (iteration_vector_ (the_predicates it))
                 (iteration_contiguous_ (the_predicates it))
                 (iteration_strided_ (the_predicates it)))
              (tile_shift cfg (tiles_jumped cfg ops - 1))); [reflexivity|].
    unfold UnderlyingPredicates.access_coord, coord_add.
    cbn [contiguous strided]. f_equal; ring.
  - destruct H as (HA & _ & Ht & _). rewrite (At_get _ _ HA).
    unfold cursor_coord. rewrite Ht. reflexivity.
Qed.

End TraversalAddresses.

(** X11.  Pointer/coordinate agreement along the whole tile sequence.  For
    elements of whole bytes and increments in [Params] that fit the thread
    map and the tile, after construction followed by any sequence of
    [operator++] and of [add_tile_offset] along the advance axis, [get]
    addresses the element at the coordinate of the current access in the
    current tile: the cursor coordinate, moved by the tiles jumped after the
    first.  On the gather/permute path this is so when the access is valid,
    and [get] is null otherwise. *)
Theorem traversal_addresses (cfg : Config) (esz : Z) (params : Params)
        (pointer : Z) (extent : PitchLinearCoord) (thread_id : Z)
        (tb : PitchLinearCoord) (indices : Z -> Z) (ops : list Op) :
  config_positive cfg ->
  kAdvanceRank cfg = 0 \/ kAdvanceRank cfg = 1 ->
  byte_sized cfg esz ->
  params_consistent cfg esz params ->
  advance_consistent cfg esz params ->
  forallb (fun op => traversal_op op && along_advance_axis cfg op) ops = true ->
  let it :=
    run cfg ops
        (PitchLinear.ctor cfg params pointer extent thread_id tb indices) in
  PitchLinear.get cfg it
  = if PitchLinear.fast_path cfg || PitchLinear.valid cfg it then
      Some (tensor_address cfg params pointer extent indices
                           (current_coord cfg ops it))
    else None.
Proof.
  intros Hpos Hrank Hbytes Hparams Hadv Hops.
  apply traversal_get with (esz := esz); assumption.
Qed.

Lemma traversal_addresses_witness :
  config_positive strip_cfg
  /\ (kAdvanceRank strip_cfg = 0 \/ kAdvanceRank strip_cfg = 1)
  /\ byte_sized strip_cfg 4
  /\ params_consistent strip_cfg 4 strip_params
  /\ advance_consistent strip_cfg 4 strip_params
  /\ PitchLinear.get
       strip_cfg
       (run strip_cfg
            [OpIncr; OpAddTileOffset (make_Coord 1 0); OpIncr;
             OpAddTileOffset (make_Coord 2 0); OpIncr]
            strip_it)
     = Some (4096 + 4 * (7 + 3 * 32 + 2 * 128)).
Proof.
  assert (Some (tensor_address
                  strip_cfg strip_params 4096 strip_extent null_indices
                  (current_coord
                     strip_cfg
                     [OpIncr; OpAddTileOffset (make_Coord 1 0); OpIncr;
                      OpAddTileOffset (make_Coord 2 0); OpIncr]
                     (run strip_cfg
                          [OpIncr; OpAddTileOffset (make_Coord 1 0); OpIncr;
                           OpAddTileOffset (make_Coord 2 0); OpIncr]
                          strip_it)))
          = Some (4096 + 4 * (7 + 3 * 32 + 2 * 128))) as Hval
    by (vm_compute; reflexivity).
  assert (config_positive strip_cfg) as H1 by (repeat split).
  assert (kAdvanceRank strip_cfg = 0 \/ kAdvanceRank strip_cfg = 1) as H2
    by (left; reflexivity).
  assert (byte_sized strip_cfg 4) as H3 by (repeat split).
  assert (params_consistent strip_cfg 4 strip_params) as H4
    by (repeat split).
  assert (advance_consistent strip_cfg 4 strip_params) as H5 by reflexivity.
  refine (conj H1 (conj H2 (conj H3 (conj H4 (conj H5 _))))).
  exact (eq_trans
           (traversal_addresses
              strip_cfg 4 strip_params 4096 strip_extent 5 origin null_indices
              [OpIncr; OpAddTileOffset (make_Coord 1 0); OpIncr;
               OpAddTileOffset (make_Coord 2 0); OpIncr]
              H1 H2 H3 H4 H5 eq_refl)
           Hval).
Defined.

(** ** The affine rank-2 iterator *)

(** Reduce the projections of an updated affine iterator. *)
Ltac afields :=
  lazy beta iota zeta delta
       [AffineRank2.the_predicates AffineRank2.params_ AffineRank2.pointer_
        AffineRank2.is_residue_tile_ AffineRank2.with_pointer
        AffineRank2.with_the_predicates AffineRank2.with_is_residue_tile
        AffineRank2.advance_pointer AffineRank2.add_pointer_offset
        predicates_ extent_ thread_offset_ residue_offset_ iteration_vector_
        iteration_contiguous_ iteration_strided_ compute_predicates_calls
        with_predicates with_cursor with_thread_offset with_residue_offset
        count_recomputation UnderlyingPredicates.compute_predicates_
        UnderlyingPredicates.incr
        contiguous strided coord_add coord_sub].

Lemma affine_iterator_ext (a b : AffineRank2.Iterator) :
  AffineRank2.the_predicates a = AffineRank2.the_predicates b ->
  AffineRank2.params_ a = AffineRank2.params_ b ->
  AffineRank2.pointer_ a = AffineRank2.pointer_ b ->
  AffineRank2.is_residue_tile_ a = AffineRank2.is_residue_tile_ b ->
  a = b.
Proof.
  destruct a, b. simpl. intros -> -> -> ->. reflexivity.
Qed.

Lemma quot_bytes_r (esz x : Z) : Z.quot (x * (8 * esz)) 8 = esz * x.
Proof.
  replace (x * (8 * esz)) with (esz * x * 8) by ring. apply Z.quot_mul. lia.
Qed.

Section Affine.

Variable cfg : Config.
Hypothesis Hpos : config_positive cfg.

Let count := UnderlyingPredicates.kPredicateCount cfg.

(** What [operator++] leaves alone. *)
Lemma affine_incr_frame (it : AffineRank2.Iterator) :
  let it' := AffineRank2.incr cfg it in
  predicates_ (AffineRank2.the_predicates it')
  = predicates_ (AffineRank2.the_predicates it)
  /\ extent_ (AffineRank2.the_predicates it')
     = extent_ (AffineRank2.the_predicates it)
  /\ thread_offset_ (AffineRank2.the_predicates it')
     = thread_offset_ (AffineRank2.the_predicates it)
  /\ residue_offset_ (AffineRank2.the_predicates it')
     = residue_offset_ (AffineRank2.the_predicates it)
  /\ compute_predicates_calls (AffineRank2.the_predicates it')
     = compute_predicates_calls (AffineRank2.the_predicates it)
  /\ AffineRank2.params_ it' = AffineRank2.params_ it
  /\ AffineRank2.is_residue_tile_ it' = AffineRank2.is_residue_tile_ it.
Proof.
  destruct it as [pa ptr p r]. destruct p.
  unfold AffineRank2.incr. afields. split_ifs; repeat split.
Qed.

Lemma affine_incr_cursor (it : AffineRank2.Iterator) :
  cursor_of (AffineRank2.the_predicates (AffineRank2.incr cfg it))
  = next_cursor cfg (cursor_of (AffineRank2.the_predicates it)).
Proof.
  destruct it as [pa ptr p r]. destruct p.
  unfold AffineRank2.incr, next_cursor, cursor_of,
    AffineRank2.kAccessesPerVector, UnderlyingPredicates.kAccessesPerVector.
  afields. split_ifs; reflexivity.
Qed.

Lemma affine_incr_cursor_ok (it : AffineRank2.Iterator) :
  affine_cursor_ok cfg it -> affine_cursor_ok cfg (AffineRank2.incr cfg it).
Proof.
  intros Hok. unfold affine_cursor_ok in *.
  pose proof (affine_incr_cursor it) as E. unfold cursor_of in E.
  pose proof (next_cursor_in_range cfg _ _ _ Hpos Hok) as Hn.
  rewrite <- E in Hn. exact Hn.
Qed.

Lemma affine_incr_cursor_index (it : AffineRank2.Iterator) :
  affine_cursor_ok cfg it ->
  cursor_index cfg (AffineRank2.the_predicates (AffineRank2.incr cfg it))
  = (cursor_index cfg (AffineRank2.the_predicates it) + 1) mod count.
Proof.
  intros Hok. pose proof (affine_incr_cursor it) as E.
  pose proof (next_cursor_index cfg _ _ _ Hok) as N.
  unfold cursor_of in E. rewrite <- E in N.
  unfold cursor_index. rewrite !pred_idx_of_eq. exact N.
Qed.

(** The pointer is the start of the tile plus the contiguous and strided
    steps made so far, for the increments computed by [Params]. *)
Lemma affine_incr_pointer (stride : Z * Z) (it : AffineRank2.Iterator) :
  affine_cursor_ok cfg it ->
  AffineRank2.params_ it = AffineRank2.Params_ctor cfg stride ->
  let pa := AffineRank2.Params_ctor cfg stride in
  let p := AffineRank2.the_predicates it in
  let p' := AffineRank2.the_predicates (AffineRank2.incr cfg it) in
  AffineRank2.pointer_ (AffineRank2.incr cfg it)
  - iteration_contiguous_ p' * AffineRank2.inc_contiguous_ pa
  - iteration_strided_ p' * AffineRank2.inc_strided_ pa
  = AffineRank2.pointer_ it
    - iteration_contiguous_ p * AffineRank2.inc_contiguous_ pa
    - iteration_strided_ p * AffineRank2.inc_strided_ pa.
Proof.
  intros (Hv & Hc & Hs) Hp.
  destruct it as [pa ptr p r]. destruct p as [w e th ro iv ic isd n].
  cbn [AffineRank2.params_ AffineRank2.the_predicates iteration_vector_
       iteration_contiguous_ iteration_strided_] in *.
  subst pa. cbv zeta.
  unfold AffineRank2.incr, AffineRank2.kAccessesPerVector.
  fold (UnderlyingPredicates.kAccessesPerVector cfg).
  afields.
  set (incc := AffineRank2.inc_contiguous_ (AffineRank2.Params_ctor cfg stride)).
  set (incs := AffineRank2.inc_strided_ (AffineRank2.Params_ctor cfg stride)).
  assert (AffineRank2.inc_next_strided_ (AffineRank2.Params_ctor cfg stride)
          = incs - (Iterations_kContiguous (ThreadMap cfg) - 1) * incc) as E1
    by reflexivity.
  assert (AffineRank2.inc_next_ (AffineRank2.Params_ctor cfg stride)
          - AffineRank2.inc_advance_ (AffineRank2.Params_ctor cfg stride)
          = - ((Iterations_kContiguous (ThreadMap cfg) - 1) * incc)
            - (Iterations_kStrided (ThreadMap cfg) - 1) * incs) as E2
    by (unfold incc, incs; cbn; ring).
  repeat cmp_step; afields; rewrite ?E1; try lia.
  - replace ic with (Iterations_kContiguous (ThreadMap cfg) - 1) by lia. ring.
  - replace ic with (Iterations_kContiguous (ThreadMap cfg) - 1) by lia.
    replace isd with (Iterations_kStrided (ThreadMap cfg) - 1) by lia.
    ring_simplify. ring_simplify in E2. lia.
Qed.

Lemma affine_advance_succ (k : nat) (it : AffineRank2.Iterator) :
  affine_advance cfg (Datatypes.S k) it
  = AffineRank2.incr cfg (affine_advance cfg k it).
Proof. reflexivity. Qed.

Lemma affine_advance_inv (stride : Z * Z) (k : nat)
      (it : AffineRank2.Iterator) :
  affine_cursor_ok cfg it ->
  AffineRank2.params_ it = AffineRank2.Params_ctor cfg stride ->
  let pa := AffineRank2.Params_ctor cfg stride in
  let it' := affine_advance cfg k it in
  let p := AffineRank2.the_predicates it in
  let p' := AffineRank2.the_predicates it' in
  affine_cursor_ok cfg it'
  /\ cursor_index cfg p' = (cursor_index cfg p + Z.of_nat k) mod count
  /\ predicates_ p' = predicates_ p
  /\ extent_ p' = extent_ p
  /\ thread_offset_ p' = thread_offset_ p
  /\ residue_offset_ p' = residue_offset_ p
  /\ compute_predicates_calls p' = compute_predicates_calls p
  /\ AffineRank2.params_ it' = AffineRank2.params_ it
  /\ AffineRank2.is_residue_tile_ it' = AffineRank2.is_residue_tile_ it
  /\ AffineRank2.pointer_ it'
     - iteration_contiguous_ p' * AffineRank2.inc_contiguous_ pa
     - iteration_strided_ p' * AffineRank2.inc_strided_ pa
     = AffineRank2.pointer_ it
       - iteration_contiguous_ p * AffineRank2.inc_contiguous_ pa
       - iteration_strided_ p * AffineRank2.inc_strided_ pa.
Proof.
  intros Hok Hp. cbv zeta.
  pose proof (predicate_count_pos cfg Hpos) as Hcnt. fold count in Hcnt.
  induction k as [|k IH].
  - simpl. split; [exact Hok|]. split.
    + rewrite Z.add_0_r. symmetry. apply Z.mod_small.
      apply (cursor_index_range cfg). exact Hok.
    + repeat split.
  - destruct IH as (Hok' & Hidx & Hw & He & Ht & Hr & Hn & Hpa & Hf & Hptr).
    rewrite affine_advance_succ.
    destruct (affine_incr_frame (affine_advance cfg k it))
      as (Fw & Fe & Ft & Fr & Fn & Fpa & Ff).
    split; [apply affine_incr_cursor_ok; exact Hok'|].
    split.
    { rewrite affine_incr_cursor_index by exact Hok'.
      rewrite Hidx, Z.add_mod_idemp_l by lia. f_equal. lia. }
    rewrite Fw, Fe, Ft, Fr, Fn, Fpa, Ff.
    repeat (split; [assumption|]).
    rewrite (affine_incr_pointer stride) by (try exact Hok'; congruence).
    exact Hptr.
Qed.

End Affine.

(** X12.  A full sweep of the affine iterator is a round trip whatever the
    element size: with the increments its own [Params] constructor
    computes, applying [operator++] once per access of the tile returns the
    iterator to exactly the state it started from. *)
Theorem affine_full_sweep_returns (cfg : Config) (stride : Z * Z)
        (it : AffineRank2.Iterator) :
  config_positive cfg -> affine_cursor_ok cfg it ->
  AffineRank2.params_ it = AffineRank2.Params_ctor cfg stride ->
  affine_advance cfg (Z.to_nat (UnderlyingPredicates.kPredicateCount cfg)) it
  = it.
Proof.
  intros Hpos Hok Hp.
  set (n := Z.to_nat (UnderlyingPredicates.kPredicateCount cfg)).
  pose proof (predicate_count_pos cfg Hpos) as Hc.
  destruct (affine_advance_inv cfg Hpos stride n it Hok Hp)
    as (Hok' & Hidx & Hw & He & Ht & Hr & Hn & Hpa & Hf & Hptr).
  assert (cursor_of (AffineRank2.the_predicates (affine_advance cfg n it))
          = cursor_of (AffineRank2.the_predicates it)) as Hcur.
  { rewrite <- (cursor_of_index cfg Hpos _ Hok'), Hidx.
    unfold n. rewrite Z2Nat.id by lia.
    rewrite <- (Z.mul_1_l (UnderlyingPredicates.kPredicateCount cfg)) at 1.
    rewrite Z.mod_add by lia.
    rewrite Z.mod_small by (apply cursor_index_range; assumption).
    rewrite <- (cursor_of_index cfg Hpos (AffineRank2.the_predicates it) Hok).
    reflexivity. }
  unfold cursor_of in Hcur. injection Hcur as Hv Hcc Hs.
  rewrite Hcc, Hs in Hptr.
  apply affine_iterator_ext; try assumption; [|lia].
  destruct (AffineRank2.the_predicates (affine_advance cfg n it)),
    (AffineRank2.the_predicates it).
  cbn in *. congruence.
Qed.

Lemma affine_full_sweep_returns_witness :
  config_positive strip_cfg /\ affine_cursor_ok strip_cfg strip_affine_it
  /\ AffineRank2.params_ strip_affine_it
     = AffineRank2.Params_ctor strip_cfg (1, 130)
  /\ affine_advance strip_cfg 8 strip_affine_it = strip_affine_it.
Proof.
  assert (config_positive strip_cfg) as H1 by (repeat split).
  assert (affine_cursor_ok strip_cfg strip_affine_it) as H2
    by (vm_compute; intuition congruence).
  refine (conj H1 (conj H2 (conj eq_refl _))).
  exact (affine_full_sweep_returns strip_cfg (1, 130) strip_affine_it
                                   H1 H2 eq_refl).
Defined.
(** ** The affine iterator against the pitch-linear one *)

Lemma predicates_ext (p q : Predicates) :
  predicates_ p = predicates_ q ->
  extent_ p = extent_ q ->
  thread_offset_ p = thread_offset_ q ->
  residue_offset_ p = residue_offset_ q ->
  cursor_of p = cursor_of q ->
  compute_predicates_calls p = compute_predicates_calls q ->
  p = q.
Proof.
  destruct p, q. unfold cursor_of. simpl. intros -> -> -> -> E ->.
  injection E as -> -> ->. reflexivity.
Qed.

(** The predicate state after [add_tile_offset] of the affine iterator. *)
Lemma affine_add_tile_offset_predicates (cfg : Config) (t : PitchLinearCoord)
      (it : AffineRank2.Iterator) :
  AffineRank2.the_predicates (AffineRank2.add_tile_offset cfg t it)
  = if AffineRank2.is_residue_tile_ it then
      UnderlyingPredicates.compute_predicates_
        cfg (extent_ (AffineRank2.the_predicates it)) true
        (with_thread_offset
           (coord_add (thread_offset_ (AffineRank2.the_predicates it))
                      (residue_offset_ (AffineRank2.the_predicates it)))
           (AffineRank2.the_predicates it))
    else AffineRank2.the_predicates it.
Proof.
  destruct it as [pa ptr p r]. unfold AffineRank2.add_tile_offset.
  cbn [AffineRank2.is_residue_tile_ AffineRank2.the_predicates
       AffineRank2.params_].
  destruct r; destruct (negb (kAdvanceRank cfg =? 0)); reflexivity.
Qed.

Lemma affine_add_tile_offset_flag (cfg : Config) (t : PitchLinearCoord)
      (it : AffineRank2.Iterator) :
  AffineRank2.is_residue_tile_ (AffineRank2.add_tile_offset cfg t it) = false.
Proof. reflexivity. Qed.

Lemma affine_add_tile_offset_params (cfg : Config) (t : PitchLinearCoord)
      (it : AffineRank2.Iterator) :
  AffineRank2.params_ (AffineRank2.add_tile_offset cfg t it)
  = AffineRank2.params_ it.
Proof.
  destruct it as [pa ptr p r]. unfold AffineRank2.add_tile_offset.
  cbn [AffineRank2.is_residue_tile_ AffineRank2.the_predicates
       AffineRank2.params_].
  destruct r; destruct (negb (kAdvanceRank cfg =? 0)); reflexivity.
Qed.

Lemma add_tile_offset_predicates (cfg : Config) (t : PitchLinearCoord)
      (it : Iterator) :
  the_predicates (PitchLinear.add_tile_offset cfg t it)
  = if is_residue_tile_ it then
      UnderlyingPredicates.compute_predicates_
        cfg (extent_ (the_predicates it)) true
        (with_thread_offset
           (coord_add (thread_offset_ (the_predicates it))
                      (residue_offset_ (the_predicates it)))
           (the_predicates it))
    else the_predicates it.
Proof.
  unfold PitchLinear.add_tile_offset.
  cbn [the_predicates with_is_residue_tile].
  destruct (is_residue_tile_ it).
  - apply add_tile_offset_residue_predicates.
  - apply add_tile_offset_steady_predicates.
Qed.

(** One call keeps the two iterators in step. *)
Lemma affine_step_simulates (cfg : Config) (a : AffineRank2.Iterator)
      (b : Iterator) (op : Op) :
  AffineRank2.the_predicates a = the_predicates b ->
  AffineRank2.is_residue_tile_ a = is_residue_tile_ b ->
  AffineRank2.the_predicates (affine_step cfg a op)
  = the_predicates (step cfg b op)
  /\ AffineRank2.is_residue_tile_ (affine_step cfg a op)
     = is_residue_tile_ (step cfg b op).
Proof.
  intros Hp Hr. destruct op; cbn [affine_step step].
  - pose proof (incr_frame cfg b) as F. unfold frame_of in F.
    injection F as Fw Fe Ft Fo Fn Ff _ _ _ _.
    destruct (affine_incr_frame cfg a) as (Aw & Ae & At & Ao & An & _ & Af).
    split; [|congruence].
    apply predicates_ext; try congruence.
    rewrite affine_incr_cursor, incr_cursor, Hp. reflexivity.
  - split; [|reflexivity].
    rewrite affine_add_tile_offset_predicates, add_tile_offset_predicates,
      Hp, Hr.
    reflexivity.
  - split; [exact Hp | exact Hr].
  - split; [|exact Hr].
    unfold AffineRank2.set_iteration_index, PitchLinear.set_iteration_index.
    cbn [AffineRank2.the_predicates AffineRank2.with_the_predicates
         the_predicates with_the_predicates].
    rewrite Hp. reflexivity.
  - split; [|exact Hr].
    unfold AffineRank2.clear_mask, PitchLinear.clear_mask.
    cbn [AffineRank2.the_predicates AffineRank2.with_the_predicates
         the_predicates with_the_predicates].
    rewrite Hp. reflexivity.
  - split; [|exact Hr].
    unfold AffineRank2.enable_mask, PitchLinear.enable_mask.
    cbn [AffineRank2.the_predicates AffineRank2.with_the_predicates
         the_predicates with_the_predicates].
    rewrite Hp. reflexivity.
  - split; [|exact Hr].
    unfold AffineRank2.set_mask, PitchLinear.set_mask.
    cbn [AffineRank2.the_predicates AffineRank2.with_the_predicates
         the_predicates with_the_predicates].
    rewrite Hp. reflexivity.
Qed.

Lemma affine_run_simulates (cfg : Config) (ops : list Op)
      (a : AffineRank2.Iterator) (b : Iterator) :
  AffineRank2.the_predicates a = the_predicates b ->
  AffineRank2.is_residue_tile_ a = is_residue_tile_ b ->
  AffineRank2.the_predicates (affine_run cfg ops a)
  = the_predicates (run cfg ops b)
  /\ AffineRank2.is_residue_tile_ (affine_run cfg ops a)
     = is_residue_tile_ (run cfg ops b).
Proof.
  revert a b. induction ops as [|op ops IH]; intros a b Hp Hr.
  - split; assumption.
  - cbn [affine_run run fold_left].
    destruct (affine_step_simulates cfg a b op Hp Hr) as [Hp' Hr'].
    exact (IH _ _ Hp' Hr').
Qed.

Lemma affine_ctor_predicates (cfg : Config) (pa : AffineRank2.Params)
      (pointer : Z) (extent : PitchLinearCoord) (thread_id : Z)
      (tb : PitchLinearCoord) :
  AffineRank2.the_predicates
    (AffineRank2.ctor cfg pa pointer extent thread_id tb)
  = UnderlyingPredicates.set_predicates
      cfg thread_id tb (UnderlyingPredicates.Predicates_ctor cfg extent).
Proof. reflexivity. Qed.

(** X13.  The affine specialization guards its accesses exactly as the
    pitch-linear iterator does.  Built over the same extent, thread and
    threadblock offset and driven by the same sequence of calls (whatever
    the parameters, the base pointers and the addressing mode of the
    pitch-linear one), the two hold the same predicate state and the same
    residue flag; so [valid] answers alike and [get_mask] returns the same
    mask. *)
Theorem affine_guards_as_pitch_linear (cfg : Config)
        (aparams : AffineRank2.Params) (params : Params) (apointer pointer : Z)
        (extent : PitchLinearCoord) (thread_id : Z) (tb : PitchLinearCoord)
        (indices : Z -> Z) (ops : list Op) :
  let a :=
    affine_run cfg ops
               (AffineRank2.ctor cfg aparams apointer extent thread_id tb) in
  let b :=
    run cfg ops
        (PitchLinear.ctor cfg params pointer extent thread_id tb indices) in
  AffineRank2.the_predicates a = the_predicates b
  /\ AffineRank2.is_residue_tile_ a = is_residue_tile_ b
  /\ AffineRank2.valid cfg a = PitchLinear.valid cfg b
  /\ forall mask,
       AffineRank2.get_mask cfg mask a = PitchLinear.get_mask cfg mask b.
Proof.
  cbv zeta.
  destruct (affine_run_simulates
              cfg ops
              (AffineRank2.ctor cfg aparams apointer extent thread_id tb)
              (PitchLinear.ctor cfg params pointer extent thread_id tb indices))
    as [Hp Hr].
  - rewrite affine_ctor_predicates.
    symmetry. apply ctor_predicates.
  - symmetry. apply ctor_is_residue_tile.
  - split; [exact Hp|]. split; [exact Hr|].
    unfold AffineRank2.valid, PitchLinear.valid, AffineRank2.get_mask,
      PitchLinear.get_mask.
    rewrite Hp. split; [reflexivity | intros mask; reflexivity].
Qed.

(* ------------------------------------------------------------------------- *)
(** ** Addresses of the affine iterator along a traversal *)

Section AffineAddresses.

Variable cfg : Config.
Variable esz : Z.
Variable stride : Z * Z.
Variable pointer : Z.
Variable extent : PitchLinearCoord.
Variable thread_id : Z.
Variable tb : PitchLinearCoord.
Hypothesis Hpos : config_positive cfg.
Hypothesis Hrank : kAdvanceRank cfg = 0 \/ kAdvanceRank cfg = 1.
Hypothesis Hbits : sizeof_bits_Element cfg = 8 * esz.
Hypothesis Hacc : sizeof_AccessType cfg = esz * AccessType_kElements cfg.
Hypothesis Hvec :
  UnderlyingPredicates.kAccessesPerVector cfg = 1 \/ fst stride = 1.

Let pa := AffineRank2.Params_ctor cfg stride.
Let it0 := AffineRank2.ctor cfg pa pointer extent thread_id tb.
Let first := coord_add tb (initial_offset (ThreadMap cfg) thread_id).
Let residue := UnderlyingPredicates.residue_offset_of cfg extent tb.

(** The iterator addresses the tile in which the thread starts at [P]. *)
Let AtA (it : AffineRank2.Iterator) (P : PitchLinearCoord) : Prop :=
  affine_cursor_ok cfg it
  /\ AffineRank2.params_ it = pa
  /\ AffineRank2.pointer_ it
     = pointer + esz * AffineRankN_offset stride P
       + iteration_contiguous_ (AffineRank2.the_predicates it)
         * AffineRank2.inc_contiguous_ pa
       + iteration_strided_ (AffineRank2.the_predicates it)
         * AffineRank2.inc_strided_ pa.

Lemma affine_increments :
  AffineRank2.inc_contiguous_ pa
  = esz * (fst stride * Delta_kContiguous (ThreadMap cfg))
  /\ AffineRank2.inc_strided_ pa
     = esz * (snd stride * Delta_kStrided (ThreadMap cfg))
  /\ AffineRank2.inc_advance_ pa
     = esz * (if kAdvanceRank cfg =? 0 then Shape_kContiguous cfg * fst stride
              else Shape_kStrided cfg * snd stride).
Proof.
  unfold pa, AffineRank2.Params_ctor.
  cbn [AffineRank2.inc_contiguous_ AffineRank2.inc_strided_
       AffineRank2.inc_advance_].
  rewrite Hbits, !quot_bytes_r.
  destruct (kAdvanceRank cfg =? 0); cbn [negb]; repeat split.
Qed.

Lemma AtA_get (it : AffineRank2.Iterator) (P : PitchLinearCoord) :
  AtA it P ->
  AffineRank2.get cfg it
  = affine_address
      esz stride pointer
      (UnderlyingPredicates.access_coord
         cfg P (iteration_vector_ (AffineRank2.the_predicates it))
         (iteration_contiguous_ (AffineRank2.the_predicates it))
         (iteration_strided_ (AffineRank2.the_predicates it))).
Proof.
  intros (Hc & Hp & Hptr).
  destruct affine_increments as (Ic & Is & _).
  unfold AffineRank2.get, affine_address, AffineRankN_offset,
    UnderlyingPredicates.access_coord.
  rewrite Hptr, Ic, Is, Hacc. cbn [contiguous strided coord_add].
  destruct Hc as (Hv & _).
  destruct Hvec as [H1|H1].
  - rewrite H1 in Hv.
    replace (iteration_vector_ (AffineRank2.the_predicates it)) with 0 by lia.
    unfold AffineRankN_offset. ring.
  - rewrite H1. unfold AffineRankN_offset. rewrite H1. ring.
Qed.

Lemma AtA_incr (it : AffineRank2.Iterator) (P : PitchLinearCoord) :
  AtA it P -> AtA (AffineRank2.incr cfg it) P.
Proof.
  intros (Hc & Hp & Hptr).
  destruct (affine_incr_frame cfg it) as (_ & _ & _ & _ & _ & Fp & _).
  unfold AtA. split; [apply affine_incr_cursor_ok; assumption|].
  split; [congruence|].
  pose proof (affine_incr_pointer cfg stride it Hc Hp) as E.
  cbv zeta in E. fold pa in E. lia.
Qed.

Lemma affine_ctor_state :
  AtA it0 first
  /\ AffineRank2.is_residue_tile_ it0 = true
  /\ thread_offset_ (AffineRank2.the_predicates it0) = first
  /\ residue_offset_ (AffineRank2.the_predicates it0) = residue.
Proof.
  destruct Hpos as (HA & HC & HS).
  split; [|repeat split].
  unfold AtA. split; [|split; [reflexivity|]].
  - unfold affine_cursor_ok, it0. rewrite affine_ctor_predicates.
    change (cursor_in_range cfg 0 0 0). unfold cursor_in_range. lia.
  - unfold it0, AffineRank2.ctor, AffineRank2.add_pointer_offset,
      AffineRank2.advance_pointer.
    cbn [AffineRank2.pointer_ AffineRank2.with_pointer
         AffineRank2.the_predicates AffineRank2.params_].
    change (thread_offset_
              (UnderlyingPredicates.set_predicates
                 cfg thread_id tb
                 (UnderlyingPredicates.Predicates_ctor cfg extent)))
      with first.
    change (iteration_contiguous_
              (UnderlyingPredicates.set_predicates
                 cfg thread_id tb
                 (UnderlyingPredicates.Predicates_ctor cfg extent)))
      with 0.
    change (iteration_strided_
              (UnderlyingPredicates.set_predicates
                 cfg thread_id tb
                 (UnderlyingPredicates.Predicates_ctor cfg extent)))
      with 0.
    rewrite Hbits, quot_bytes. unfold pa.
    cbn [AffineRank2.stride_ AffineRank2.Params_ctor]. ring.
Qed.

Lemma affine_residue_axes :
  other_axis cfg residue = 0.
Proof.
  destruct (residue_size_cases cfg extent tb Hrank) as (_ & _ & H2).
  exact H2.
Qed.

(** The first jump, along the advance axis. *)
Lemma AtA_first_jump (it : AffineRank2.Iterator) (t : PitchLinearCoord) :
  AtA it first ->
  AffineRank2.is_residue_tile_ it = true ->
  thread_offset_ (AffineRank2.the_predicates it) = first ->
  residue_offset_ (AffineRank2.the_predicates it) = residue ->
  other_axis cfg t = 0 ->
  AtA (AffineRank2.add_tile_offset cfg t it)
      (coord_add (coord_add first residue)
                 (tile_shift cfg (advance_axis cfg t - 1))).
Proof.
  intros (Hc & Hp & Hptr) Hr Ht Hres Hother.
  destruct affine_increments as (_ & _ & Ia).
  pose proof affine_residue_axes as Hro.
  unfold AtA, affine_cursor_ok.
  rewrite affine_add_tile_offset_params, affine_add_tile_offset_predicates, Hr.
  split; [exact Hc|]. split; [exact Hp|].
  unfold AffineRank2.add_tile_offset. rewrite Hr, Hp.
  unfold tile_shift, advance_axis, other_axis, AffineRankN_offset in *.
  assert (AffineRank2.stride_ pa = stride) as Hst by reflexivity.
  clearbody first residue pa.
  destruct it as [pa' ptr p r].
  destruct p as [w e th ro iv ic isd n].
  destruct t as [tc ts]. destruct first as [fc fs].
  destruct residue as [rc rs].
  cbn [AffineRank2.the_predicates AffineRank2.params_ AffineRank2.pointer_
       thread_offset_ residue_offset_ iteration_vector_ iteration_contiguous_
       iteration_strided_ contiguous strided] in *.
  subst pa' th ro.
  destruct Hrank as [H|H]; rewrite H in *; cbn [Z.eqb negb] in *;
    afields; rewrite Hst, Hbits, Ia; subst;
    rewrite ?Z.mul_0_r, ?Z.mul_0_l, ?quot_bytes; ring.
Qed.

(** Every later jump along the advance axis. *)
Lemma AtA_later_jump (it : AffineRank2.Iterator) (t P : PitchLinearCoord) :
  AtA it P ->
  AffineRank2.is_residue_tile_ it = false ->
  other_axis cfg t = 0 ->
  AtA (AffineRank2.add_tile_offset cfg t it)
      (coord_add P (tile_shift cfg (advance_axis cfg t))).
Proof.
  intros (Hc & Hp & Hptr) Hr Hother.
  destruct affine_increments as (_ & _ & Ia).
  unfold AtA, affine_cursor_ok.
  rewrite affine_add_tile_offset_params, affine_add_tile_offset_predicates, Hr.
  split; [exact Hc|]. split; [exact Hp|].
  unfold AffineRank2.add_tile_offset. rewrite Hr, Hp.
  unfold tile_shift, advance_axis, other_axis, AffineRankN_offset in *.
  clearbody pa.
  destruct it as [pa' ptr p r].
  destruct p as [w e th ro iv ic isd n].
  destruct t as [tc ts]. destruct P as [pc ps].
  cbn [AffineRank2.the_predicates AffineRank2.params_ AffineRank2.pointer_
       thread_offset_ residue_offset_ iteration_vector_ iteration_contiguous_
       iteration_strided_ contiguous strided] in *.
  subst pa'.
  destruct Hrank as [H|H]; rewrite H in *; cbn [Z.eqb negb] in *;
    afields; rewrite Ia; subst;
    rewrite ?Z.mul_0_r, ?Z.mul_0_l; ring.
Qed.

(** Where the iterator is after a traversal along the advance axis. *)
Lemma affine_traversal_at (ops : list Op) :
  forallb (fun op => traversal_op op && along_advance_axis cfg op) ops = true ->
  let it := affine_run cfg ops it0 in
  if existsb is_add_tile_offset ops then
    AtA it (coord_add (coord_add first residue)
                      (tile_shift cfg (tiles_jumped cfg ops - 1)))
    /\ AffineRank2.is_residue_tile_ it = false
    /\ thread_offset_ (AffineRank2.the_predicates it)
       = coord_add first residue
  else
    AtA it first
    /\ AffineRank2.is_residue_tile_ it = true
    /\ thread_offset_ (AffineRank2.the_predicates it) = first
    /\ residue_offset_ (AffineRank2.the_predicates it) = residue
    /\ tiles_jumped cfg ops = 0.
Proof.
  induction ops as [|op ops IH] using rev_ind; intros Hops.
  - simpl. destruct affine_ctor_state as (HA & Hr & Ht & Hres).
    repeat (split; [assumption|]). reflexivity.
  - rewrite forallb_app in Hops. apply andb_true_iff in Hops as [Hops Hop].
    specialize (IH Hops). cbv zeta in IH |- *.
    unfold affine_run in *. rewrite fold_left_app, existsb_app,
      tiles_jumped_snoc.
    simpl in Hop. rewrite andb_true_r in Hop.
    apply andb_true_iff in Hop as [Hop1 Hop2].
    destruct op; try discriminate; cbn [fold_left affine_step existsb
                                        is_add_tile_offset];
      rewrite ?orb_false_r.
    + destruct (affine_incr_frame cfg (fold_left (affine_step cfg) ops it0))
        as (_ & _ & Ft & Fr & _ & _ & Ff).
      rewrite Ft, Fr, Ff.
      destruct (existsb is_add_tile_offset ops).
      * destruct IH as (HA & Hr & Ht). split; [apply AtA_incr; exact HA|].
        split; assumption.
      * destruct IH as (HA & Hr & Ht & Hres & Hn).
        split; [apply AtA_incr; exact HA|]. repeat split; assumption.
    + rewrite orb_true_r. simpl in Hop2. apply Z.eqb_eq in Hop2.
      rewrite affine_add_tile_offset_predicates.
      destruct (existsb is_add_tile_offset ops).
      * destruct IH as (HA & Hr & Ht).
        split; [|split; [reflexivity|]].
        -- rewrite <- tile_shift_add. apply AtA_later_jump; assumption.
        -- rewrite Hr. exact Ht.
      * destruct IH as (HA & Hr & Ht & Hres & Hn).
        split; [|split; [reflexivity|]].
        -- rewrite Hn, Z.add_0_l. apply AtA_first_jump; assumption.
        -- rewrite Hr.
           cbn [UnderlyingPredicates.compute_predicates_ thread_offset_
                count_recomputation with_predicates with_thread_offset].
           rewrite Ht, Hres. reflexivity.
Qed.

Lemma affine_traversal_get (ops : list Op) :
  forallb (fun op => traversal_op op && along_advance_axis cfg op) ops = true ->
  let it := affine_run cfg ops it0 in
  AffineRank2.get cfg it
  = affine_address esz stride pointer (affine_current_coord cfg ops it).
Proof.
  intros Hops it. pose proof (affine_traversal_at ops Hops) as H. fold it in H.
  unfold affine_current_coord. fold it.
  destruct (existsb is_add_tile_offset ops).
  - destruct H as (HA & _ & Ht). rewrite (AtA_get _ _ HA). cbv zeta.
    rewrite Ht. f_equal.
    unfold UnderlyingPredicates.access_coord, coord_add.
    cbn [contiguous strided]. f_equal; ring.
  - destruct H as (HA & _ & Ht & _). rewrite (AtA_get _ _ HA). cbv zeta.
    rewrite Ht. reflexivity.
Qed.

End AffineAddresses.

(** X14.  Pointer/coordinate agreement for the affine iterator.  With the
    increments its [Params] constructor computes from the two strides, for
    elements of whole bytes, and when a thread-map vector is a single access
    or the contiguous stride is one, after construction followed by any
    sequence of [operator++] and of [add_tile_offset] along the advance axis,
    [get] is the address of the element at the coordinate of the current
    access in the current tile under the affine layout. *)
Theorem affine_traversal_addresses (cfg : Config) (esz : Z) (stride : Z * Z)
        (pointer : Z) (extent : PitchLinearCoord) (thread_id : Z)
        (tb : PitchLinearCoord) (ops : list Op) :
  config_positive cfg ->
  kAdvanceRank cfg = 0 \/ kAdvanceRank cfg = 1 ->
  sizeof_bits_Element cfg = 8 * esz ->
  sizeof_AccessType cfg = esz * AccessType_kElements cfg ->
  UnderlyingPredicates.kAccessesPerVector cfg = 1 \/ fst stride = 1 ->
  forallb (fun op => traversal_op op && along_advance_axis cfg op) ops = true ->
  let it :=
    affine_run cfg ops
               (AffineRank2.ctor cfg (AffineRank2.Params_ctor cfg stride)
                                 pointer extent thread_id tb) in
  AffineRank2.get cfg it
  = affine_address esz stride pointer (affine_current_coord cfg ops it).
Proof.
  intros Hpos Hrank Hbits Hacc Hvec Hops.
  apply affine_traversal_get; assumption.
Qed.

Lemma affine_traversal_addresses_witness :
  config_positive strip_cfg
  /\ (kAdvanceRank strip_cfg = 0 \/ kAdvanceRank strip_cfg = 1)
  /\ sizeof_bits_Element strip_cfg = 8 * 4
  /\ sizeof_AccessType strip_cfg = 4 * AccessType_kElements strip_cfg
  /\ (UnderlyingPredicates.kAccessesPerVector strip_cfg = 1 \/ fst (3, 500) = 1)
  /\ AffineRank2.get
       strip_cfg
       (affine_run
          strip_cfg
          [OpIncr; OpAddTileOffset (make_Coord 1 0); OpIncr;
           OpAddTileOffset (make_Coord 2 0); OpIncr]
          (AffineRank2.ctor strip_cfg (AffineRank2.Params_ctor strip_cfg (3, 500))
                            4096 strip_extent 5 origin))
     = 4096 + 4 * ((7 + 3 * 32 + 2 * 128) * 3).
Proof.
  assert (affine_address
            4 (3, 500) 4096
            (affine_current_coord
               strip_cfg
               [OpIncr; OpAddTileOffset (make_Coord 1 0); OpIncr;
                OpAddTileOffset (make_Coord 2 0); OpIncr]
               (affine_run
                  strip_cfg
                  [OpIncr; OpAddTileOffset (make_Coord 1 0); OpIncr;
                   OpAddTileOffset (make_Coord 2 0); OpIncr]
                  (AffineRank2.ctor
                     strip_cfg (AffineRank2.Params_ctor strip_cfg (3, 500))
                     4096 strip_extent 5 origin)))
          = 4096 + 4 * ((7 + 3 * 32 + 2 * 128) * 3)) as Hval
    by (vm_compute; reflexivity).
  assert (config_positive strip_cfg) as H1 by (repeat split).
  assert (kAdvanceRank strip_cfg = 0 \/ kAdvanceRank strip_cfg = 1) as H2
    by (left; reflexivity).
  assert (UnderlyingPredicates.kAccessesPerVector strip_cfg = 1
          \/ fst (3, 500) = 1) as H5 by (left; reflexivity).
  refine (conj H1 (conj H2 (conj eq_refl (conj eq_refl (conj H5 _))))).
  exact (eq_trans
           (affine_traversal_addresses
              strip_cfg 4 (3, 500) 4096 strip_extent 5 origin
              [OpIncr; OpAddTileOffset (make_Coord 1 0); OpIncr;
               OpAddTileOffset (make_Coord 2 0); OpIncr]
              H1 H2 eq_refl eq_refl H5 eq_refl)
           Hval).
Defined.
(** ** The matrix specializations in matrix coordinates *)

Lemma ColumnMajor_run (mc : MatrixConfig) (ops : list MatrixOp)
      (a : ColumnMajor.t) :
  ColumnMajor.iterator_ (fold_left (ColumnMajor_step mc) ops a)
  = run (ColumnMajor.Underlying mc) (List.map (canonical_op keep_axes) ops)
        (ColumnMajor.iterator_ a).
Proof.
  revert a. induction ops as [|op ops IH]; intros a; [reflexivity|].
  simpl fold_left. rewrite IH. unfold run. simpl. f_equal.
  destruct op; reflexivity.
Qed.

Lemma AffineRank2ColumnMajor_run (mc : MatrixConfig) (ops : list MatrixOp)
      (a : AffineRank2ColumnMajor.t) :
  AffineRank2ColumnMajor.iterator_
    (fold_left (AffineRank2ColumnMajor_step mc) ops a)
  = affine_run (AffineRank2ColumnMajor.Underlying mc)
               (List.map (canonical_op keep_axes) ops)
               (AffineRank2ColumnMajor.iterator_ a).
Proof.
  revert a. induction ops as [|op ops IH]; intros a; [reflexivity|].
  simpl fold_left. rewrite IH. unfold affine_run. simpl. f_equal.
  destruct op; reflexivity.
Qed.

Lemma AffineRank2RowMajor_run (mc : MatrixConfig) (ops : list MatrixOp)
      (a : AffineRank2RowMajor.t) :
  AffineRank2RowMajor.iterator_
    (fold_left (AffineRank2RowMajor_step mc) ops a)
  = affine_run (AffineRank2RowMajor.Underlying mc)
               (List.map (canonical_op swap_axes) ops)
               (AffineRank2RowMajor.iterator_ a).
Proof.
  revert a. induction ops as [|op ops IH]; intros a; [reflexivity|].
  simpl fold_left. rewrite IH. unfold affine_run. simpl. f_equal.
  destruct op; reflexivity.
Qed.

(** A traversal of the matrix iterator is a traversal of the underlying
    iterator along its advance axis, with the axes kept or exchanged. *)
Lemma matrix_traversal_kept (mc : MatrixConfig) (cfg : Config)
      (ops : list MatrixOp) :
  kAdvanceRank cfg = (if m_kAdvanceRank mc =? 0 then 0 else 1) ->
  matrix_traversal mc ops = true ->
  forallb (fun op => traversal_op op && along_advance_axis cfg op)
          (List.map (canonical_op keep_axes) ops) = true.
Proof.
  intros Hrank Hops. unfold matrix_traversal in Hops.
  rewrite forallb_forall in Hops. apply forallb_forall.
  intros op Hin. apply in_map_iff in Hin as (mop & <- & Hin).
  specialize (Hops mop Hin).
  destruct mop; try discriminate; [reflexivity|].
  cbn [canonical_op traversal_op along_advance_axis andb keep_axes].
  unfold other_axis. rewrite Hrank.
  destruct (m_kAdvanceRank mc =? 0); exact Hops.
Qed.

Lemma matrix_traversal_swapped (mc : MatrixConfig) (cfg : Config)
      (ops : list MatrixOp) :
  kAdvanceRank cfg = (if m_kAdvanceRank mc =? 0 then 1 else 0) ->
  matrix_traversal mc ops = true ->
  forallb (fun op => traversal_op op && along_advance_axis cfg op)
          (List.map (canonical_op swap_axes) ops) = true.
Proof.
  intros Hrank Hops. unfold matrix_traversal in Hops.
  rewrite forallb_forall in Hops. apply forallb_forall.
  intros op Hin. apply in_map_iff in Hin as (mop & <- & Hin).
  specialize (Hops mop Hin).
  destruct mop; try discriminate; [reflexivity|].
  cbn [canonical_op traversal_op along_advance_axis andb swap_axes].
  unfold other_axis. rewrite Hrank.
  destruct (m_kAdvanceRank mc =? 0); exact Hops.
Qed.

Lemma rank_cases (b : bool) (x y : Z) :
  x = 0 \/ x = 1 -> y = 0 \/ y = 1 ->
  (if b then x else y) = 0 \/ (if b then x else y) = 1.
Proof. destruct b; tauto. Qed.

(** X15.  A column-major iterator addresses the element of its matrix
    coordinate.  Without gather and permutation, for elements of whole bytes
    and increments in [Params] that fit the thread map and the tile, after
    construction followed by any sequence of [operator++] and of
    [add_tile_offset] along the advance axis, [get] is the address of the
    element whose row is the contiguous and whose column is the strided
    coordinate of the current access, under the column-major layout of
    leading dimension [stride_]. *)
Theorem column_major_addresses (mc : MatrixConfig) (esz : Z) (params : Params)
        (pointer : Z) (extent : MatrixCoord) (thread_id : Z)
        (tb : MatrixCoord) (indices : Z -> Z) (ops : list MatrixOp) :
  config_positive (ColumnMajor.Underlying mc) ->
  byte_sized (ColumnMajor.Underlying mc) esz ->
  params_consistent (ColumnMajor.Underlying mc) esz params ->
  advance_consistent (ColumnMajor.Underlying mc) esz params ->
  m_Gather mc = false ->
  m_Permute mc = false ->
  matrix_traversal mc ops = true ->
  let a :=
    fold_left (ColumnMajor_step mc) ops
              (ColumnMajor.ctor mc params pointer extent thread_id tb
                                indices) in
  ColumnMajor.get mc a
  = Some (pointer
          + esz * ColumnMajor_offset
                    (stride_ params)
                    (column_major_coord
                       (current_coord
                          (ColumnMajor.Underlying mc)
                          (List.map (canonical_op keep_axes) ops)
                          (ColumnMajor.iterator_ a)))).
Proof.
  intros Hpos Hbytes Hparams Hadv Hg Hp Hops. cbv zeta.
  unfold ColumnMajor.get. rewrite ColumnMajor_run.
  unfold ColumnMajor.ctor. cbn [ColumnMajor.iterator_].
  rewrite (traversal_get (ColumnMajor.Underlying mc) esz params pointer
                         _ thread_id _ indices Hpos
                         (rank_cases _ 0 1 (or_introl eq_refl)
                                     (or_intror eq_refl))
                         Hbytes Hparams Hadv _
                         (matrix_traversal_kept mc (ColumnMajor.Underlying mc) ops
                                                eq_refl Hops)).
  unfold PitchLinear.fast_path.
  cbn [Gather Permute ColumnMajor.Underlying]. rewrite Hg, Hp.
  cbn [negb andb orb]. f_equal.
  unfold tensor_address, tensor_offset.
  cbn [Gather Permute ColumnMajor.Underlying]. rewrite Hg, Hp.
  destruct Hbytes as (_ & Hoff & _). rewrite Hoff.
  unfold PitchLinear_offset, ColumnMajor_offset, column_major_coord.
  cbn [row column contiguous strided]. f_equal. f_equal. ring.
Qed.

Lemma column_major_addresses_witness :
  config_positive (ColumnMajor.Underlying column_strip)
  /\ byte_sized (ColumnMajor.Underlying column_strip) 4
  /\ params_consistent (ColumnMajor.Underlying column_strip) 4 strip_params
  /\ advance_consistent (ColumnMajor.Underlying column_strip) 4 strip_params
  /\ m_Gather column_strip = false
  /\ m_Permute column_strip = false
  /\ ColumnMajor.get
       column_strip
       (fold_left
          (ColumnMajor_step column_strip)
          [MIncr; MAddTileOffset (make_MatrixCoord 1 0); MIncr;
           MAddTileOffset (make_MatrixCoord 2 0); MIncr]
          (ColumnMajor.ctor column_strip strip_params 4096
                            (make_MatrixCoord 130 64) 5
                            (make_MatrixCoord 0 0) null_indices))
     = Some (4096 + 4 * (0 * 130 + (7 + 3 * 32 + 2 * 128))).
Proof.
  assert (Some (4096
                + 4 * ColumnMajor_offset
                        (stride_ strip_params)
                        (column_major_coord
                           (current_coord
                              (ColumnMajor.Underlying column_strip)
                              (List.map
                                 (canonical_op keep_axes)
                                 [MIncr; MAddTileOffset (make_MatrixCoord 1 0);
                                  MIncr; MAddTileOffset (make_MatrixCoord 2 0);
                                  MIncr])
                              (ColumnMajor.iterator_
                                 (fold_left
                                    (ColumnMajor_step column_strip)
                                    [MIncr;
                                     MAddTileOffset (make_MatrixCoord 1 0);
                                     MIncr;
                                     MAddTileOffset (make_MatrixCoord 2 0);
                                     MIncr]
                                    (ColumnMajor.ctor
                                       column_strip strip_params 4096
                                       (make_MatrixCoord 130 64) 5
                                       (make_MatrixCoord 0 0)
                                       null_indices))))))
          = Some (4096 + 4 * (0 * 130 + (7 + 3 * 32 + 2 * 128)))) as Hval
    by (vm_compute; reflexivity).
  assert (config_positive (ColumnMajor.Underlying column_strip)) as H1
    by (repeat split).
  assert (byte_sized (ColumnMajor.Underlying column_strip) 4) as H2
    by (repeat split).
  assert (params_consistent (ColumnMajor.Underlying column_strip) 4
                            strip_params) as H3 by (repeat split).
  assert (advance_consistent (ColumnMajor.Underlying column_strip) 4
                             strip_params) as H4 by reflexivity.
  refine (conj H1 (conj H2 (conj H3 (conj H4 (conj eq_refl (conj eq_refl _)))))).
  exact (eq_trans
           (column_major_addresses
              column_strip 4 strip_params 4096 (make_MatrixCoord 130 64) 5
              (make_MatrixCoord 0 0) null_indices
              [MIncr; MAddTileOffset (make_MatrixCoord 1 0); MIncr;
               MAddTileOffset (make_MatrixCoord 2 0); MIncr]
              H1 H2 H3 H4 eq_refl eq_refl eq_refl)
           Hval).
Defined.

(** X16.  A row-major iterator addresses the element of its matrix
    coordinate.  Under the same conditions, [get] is the address of the
    element whose column is the contiguous and whose row is the strided
    coordinate of the current access, under the row-major layout of leading
    dimension [stride_]; tile offsets reach the underlying iterator with row
    and column exchanged. *)
Theorem row_major_addresses (mc : MatrixConfig) (esz : Z) (params : Params)
        (pointer : Z) (extent : MatrixCoord) (thread_id : Z)
        (tb : MatrixCoord) (indices : Z -> Z) (ops : list MatrixOp) :
  config_positive (RowMajor.Underlying mc) ->
  byte_sized (RowMajor.Underlying mc) esz ->
  params_consistent (RowMajor.Underlying mc) esz params ->
  advance_consistent (RowMajor.Underlying mc) esz params ->
  m_Gather mc = false ->
  m_Permute mc = false ->
  matrix_traversal mc ops = true ->
  let a :=
    fold_left (RowMajor_step mc) ops
              (RowMajor.ctor mc params pointer extent thread_id tb indices) in
  RowMajor.get mc a
  = Some (pointer
          + esz * RowMajor_offset
                    (stride_ params)
                    (row_major_coord
                       (current_coord
                          (RowMajor.Underlying mc)
                          (List.map (canonical_op swap_axes) ops)
                          (RowMajor.iterator_ a)))).
Proof.
  intros Hpos Hbytes Hparams Hadv Hg Hp Hops. cbv zeta.
  unfold RowMajor.get. rewrite RowMajor_run.
  unfold RowMajor.ctor. cbn [RowMajor.iterator_].
  rewrite (traversal_get (RowMajor.Underlying mc) esz params pointer
                         _ thread_id _ indices Hpos
                         (rank_cases _ 1 0 (or_intror eq_refl)
                                     (or_introl eq_refl))
                         Hbytes Hparams Hadv _
                         (matrix_traversal_swapped mc (RowMajor.Underlying mc) ops
                                                   eq_refl Hops)).
  unfold PitchLinear.fast_path.
  cbn [Gather Permute RowMajor.Underlying]. rewrite Hg, Hp.
  cbn [negb andb orb]. f_equal.
  unfold tensor_address, tensor_offset.
  cbn [Gather Permute RowMajor.Underlying]. rewrite Hg, Hp.
  destruct Hbytes as (_ & Hoff & _). rewrite Hoff.
  unfold PitchLinear_offset, RowMajor_offset, row_major_coord.
  cbn [row column contiguous strided]. f_equal. f_equal. ring.
Qed.

Lemma row_major_addresses_witness :
  config_positive (RowMajor.Underlying row_strip)
  /\ byte_sized (RowMajor.Underlying row_strip) 4
  /\ params_consistent (RowMajor.Underlying row_strip) 4 strip_params
  /\ advance_consistent (RowMajor.Underlying row_strip) 4 strip_params
  /\ m_Gather row_strip = false
  /\ m_Permute row_strip = false
  /\ RowMajor.get
       row_strip
       (fold_left
          (RowMajor_step row_strip)
          [MIncr; MAddTileOffset (make_MatrixCoord 0 1); MIncr;
           MAddTileOffset (make_MatrixCoord 0 2); MIncr]
          (RowMajor.ctor row_strip strip_params 4096
                         (make_MatrixCoord 64 130) 5
                         (make_MatrixCoord 0 0) null_indices))
     = Some (4096 + 4 * (0 * 130 + (7 + 3 * 32 + 2 * 128))).
Proof.
  assert (Some (4096
                + 4 * RowMajor_offset
                        (stride_ strip_params)
                        (row_major_coord
                           (current_coord
                              (RowMajor.Underlying row_strip)
                              (List.map
                                 (canonical_op swap_axes)
                                 [MIncr; MAddTileOffset (make_MatrixCoord 0 1);
                                  MIncr; MAddTileOffset (make_MatrixCoord 0 2);
                                  MIncr])
                              (RowMajor.iterator_
                                 (fold_left
                                    (RowMajor_step row_strip)
                                    [MIncr;
                                     MAddTileOffset (make_MatrixCoord 0 1);
                                     MIncr;
                                     MAddTileOffset (make_MatrixCoord 0 2);
                                     MIncr]
                                    (RowMajor.ctor
                                       row_strip strip_params 4096
                                       (make_MatrixCoord 64 130) 5
                                       (make_MatrixCoord 0 0)
                                       null_indices))))))
          = Some (4096 + 4 * (0 * 130 + (7 + 3 * 32 + 2 * 128)))) as Hval
    by (vm_compute; reflexivity).
  assert (config_positive (RowMajor.Underlying row_strip)) as H1
    by (repeat split).
  assert (byte_sized (RowMajor.Underlying row_strip) 4) as H2
    by (repeat split).
  assert (params_consistent (RowMajor.Underlying row_strip) 4 strip_params)
    as H3 by (repeat split).
  assert (advance_consistent (RowMajor.Underlying row_strip) 4 strip_params)
    as H4 by reflexivity.
  refine (conj H1 (conj H2 (conj H3 (conj H4 (conj eq_refl (conj eq_refl _)))))).
  exact (eq_trans
           (row_major_addresses
              row_strip 4 strip_params 4096 (make_MatrixCoord 64 130) 5
              (make_MatrixCoord 0 0) null_indices
              [MIncr; MAddTileOffset (make_MatrixCoord 0 1); MIncr;
               MAddTileOffset (make_MatrixCoord 0 2); MIncr]
              H1 H2 H3 H4 eq_refl eq_refl eq_refl)
           Hval).
Defined.

(** X17.  An affine column-major iterator addresses the element of its
    matrix coordinate.  With the increments its [Params] constructor
    computes from the row and column strides of the layout, for elements of
    whole bytes, and when a thread-map vector is a single access or the row
    stride is one, after construction followed by any sequence of
    [operator++] and of [add_tile_offset] along the advance axis, [get] is
    the base pointer plus the element size times the inner product of the
    current matrix coordinate with the two strides. *)
Theorem affine_column_major_addresses (mc : MatrixConfig) (esz : Z)
        (stride : Z * Z) (pointer : Z) (extent : MatrixCoord) (thread_id : Z)
        (tb : MatrixCoord) (ops : list MatrixOp) :
  config_positive (AffineRank2ColumnMajor.Underlying mc) ->
  m_sizeof_bits_Element mc = 8 * esz ->
  m_sizeof_AccessType mc = esz * m_AccessType_kElements mc ->
  UnderlyingPredicates.kAccessesPerVector (AffineRank2ColumnMajor.Underlying mc)
  = 1 \/ fst stride = 1 ->
  matrix_traversal mc ops = true ->
  let a :=
    fold_left (AffineRank2ColumnMajor_step mc) ops
              (AffineRank2ColumnMajor.ctor
                 mc (AffineRank2ColumnMajor.Params_ctor mc stride) pointer
                 extent thread_id tb) in
  AffineRank2ColumnMajor.get mc a
  = pointer
    + esz * AffineRank2_offset
              stride
              (column_major_coord
                 (affine_current_coord
                    (AffineRank2ColumnMajor.Underlying mc)
                    (List.map (canonical_op keep_axes) ops)
                    (AffineRank2ColumnMajor.iterator_ a))).
Proof.
  intros Hpos Hbits Hacc Hvec Hops. cbv zeta.
  unfold AffineRank2ColumnMajor.get. rewrite AffineRank2ColumnMajor_run.
  unfold AffineRank2ColumnMajor.ctor, AffineRank2ColumnMajor.Params_ctor.
  cbn [AffineRank2ColumnMajor.iterator_].
  rewrite (affine_traversal_get
             (AffineRank2ColumnMajor.Underlying mc) esz
             (fst stride, snd stride) pointer _ thread_id _ Hpos
             (rank_cases _ 0 1 (or_introl eq_refl) (or_intror eq_refl))
             Hbits Hacc Hvec _
             (matrix_traversal_kept
                mc (AffineRank2ColumnMajor.Underlying mc) ops eq_refl Hops)).
  unfold affine_address, AffineRankN_offset, AffineRank2_offset,
    column_major_coord.
  cbn [row column fst snd]. reflexivity.
Qed.

Lemma affine_column_major_addresses_witness :
  config_positive (AffineRank2ColumnMajor.Underlying column_strip)
  /\ m_sizeof_bits_Element column_strip = 8 * 4
  /\ m_sizeof_AccessType column_strip
     = 4 * m_AccessType_kElements column_strip
  /\ (UnderlyingPredicates.kAccessesPerVector
        (AffineRank2ColumnMajor.Underlying column_strip) = 1
      \/ fst (3, 500) = 1)
  /\ AffineRank2ColumnMajor.get
       column_strip
       (fold_left
          (AffineRank2ColumnMajor_step column_strip)
          [MIncr; MAddTileOffset (make_MatrixCoord 1 0); MIncr;
           MAddTileOffset (make_MatrixCoord 2 0); MIncr]
          (AffineRank2ColumnMajor.ctor
             column_strip
             (AffineRank2ColumnMajor.Params_ctor column_strip (3, 500)) 4096
             (make_MatrixCoord 130 64) 5 (make_MatrixCoord 0 0)))
     = 4096 + 4 * ((7 + 3 * 32 + 2 * 128) * 3 + 0 * 500).
Proof.
  assert (4096
          + 4 * AffineRank2_offset
                  (3, 500)
                  (column_major_coord
                     (affine_current_coord
                        (AffineRank2ColumnMajor.Underlying column_strip)
                        (List.map
                           (canonical_op keep_axes)
                           [MIncr; MAddTileOffset (make_MatrixCoord 1 0);
                            MIncr; MAddTileOffset (make_MatrixCoord 2 0);
                            MIncr])
                        (AffineRank2ColumnMajor.iterator_
                           (fold_left
                              (AffineRank2ColumnMajor_step column_strip)
                              [MIncr; MAddTileOffset (make_MatrixCoord 1 0);
                               MIncr; MAddTileOffset (make_MatrixCoord 2 0);
                               MIncr]
                              (AffineRank2ColumnMajor.ctor
                                 column_strip
                                 (AffineRank2ColumnMajor.Params_ctor
                                    column_strip (3, 500))
                                 4096 (make_MatrixCoord 130 64) 5
                                 (make_MatrixCoord 0 0))))))
          = 4096 + 4 * ((7 + 3 * 32 + 2 * 128) * 3 + 0 * 500)) as Hval
    by (vm_compute; reflexivity).
  assert (config_positive (AffineRank2ColumnMajor.Underlying column_strip))
    as H1 by (repeat split).
  assert (UnderlyingPredicates.kAccessesPerVector
            (AffineRank2ColumnMajor.Underlying column_strip) = 1
          \/ fst (3, 500) = 1) as H4 by (left; reflexivity).
  refine (conj H1 (conj eq_refl (conj eq_refl (conj H4 _)))).
  exact (eq_trans
           (affine_column_major_addresses
              column_strip 4 (3, 500) 4096 (make_MatrixCoord 130 64) 5
              (make_MatrixCoord 0 0)
              [MIncr; MAddTileOffset (make_MatrixCoord 1 0); MIncr;
               MAddTileOffset (make_MatrixCoord 2 0); MIncr]
              H1 eq_refl eq_refl H4 eq_refl)
           Hval).
Defined.

(** X18.  An affine row-major iterator addresses the element of its matrix
    coordinate.  Its [Params] constructor hands the two strides to the
    underlying iterator exchanged, as the constructor and [add_tile_offset]
    do with coordinates; under the conditions of the column-major case, with
    the column stride in the place of the row stride, [get] is again the
    base pointer plus the element size times the inner product of the
    current matrix coordinate with the row and column strides. *)
Theorem affine_row_major_addresses (mc : MatrixConfig) (esz : Z)
        (stride : Z * Z) (pointer : Z) (extent : MatrixCoord) (thread_id : Z)
        (tb : MatrixCoord) (ops : list MatrixOp) :
  config_positive (AffineRank2RowMajor.Underlying mc) ->
  m_sizeof_bits_Element mc = 8 * esz ->
  m_sizeof_AccessType mc = esz * m_AccessType_kElements mc ->
  UnderlyingPredicates.kAccessesPerVector (AffineRank2RowMajor.Underlying mc)
  = 1 \/ snd stride = 1 ->
  matrix_traversal mc ops = true ->
  let a :=
    fold_left (AffineRank2RowMajor_step mc) ops
              (AffineRank2RowMajor.ctor
                 mc (AffineRank2RowMajor.Params_ctor mc stride) pointer
                 extent thread_id tb) in
  AffineRank2RowMajor.get mc a
  = pointer
    + esz * AffineRank2_offset
              stride
              (row_major_coord
                 (affine_current_coord
                    (AffineRank2RowMajor.Underlying mc)
                    (List.map (canonical_op swap_axes) ops)
                    (AffineRank2RowMajor.iterator_ a))).
Proof.
  intros Hpos Hbits Hacc Hvec Hops. cbv zeta.
  unfold AffineRank2RowMajor.get. rewrite AffineRank2RowMajor_run.
  unfold AffineRank2RowMajor.ctor, AffineRank2RowMajor.Params_ctor.
  cbn [AffineRank2RowMajor.iterator_].
  rewrite (affine_traversal_get
             (AffineRank2RowMajor.Underlying mc) esz
             (snd stride, fst stride) pointer _ thread_id _ Hpos
             (rank_cases _ 1 0 (or_intror eq_refl) (or_introl eq_refl))
             Hbits Hacc Hvec _
             (matrix_traversal_swapped
                mc (AffineRank2RowMajor.Underlying mc) ops eq_refl Hops)).
  unfold affine_address, AffineRankN_offset, AffineRank2_offset,
    row_major_coord.
  cbn [row column fst snd]. f_equal. f_equal. ring.
Qed.

Lemma affine_row_major_addresses_witness :
  config_positive (AffineRank2RowMajor.Underlying row_strip)
  /\ m_sizeof_bits_Element row_strip = 8 * 4
  /\ m_sizeof_AccessType row_strip = 4 * m_AccessType_kElements row_strip
  /\ (UnderlyingPredicates.kAccessesPerVector
        (AffineRank2RowMajor.Underlying row_strip) = 1
      \/ snd (500, 3) = 1)
  /\ AffineRank2RowMajor.get
       row_strip
       (fold_left
          (AffineRank2RowMajor_step row_strip)
          [MIncr; MAddTileOffset (make_MatrixCoord 0 1); MIncr;
           MAddTileOffset (make_MatrixCoord 0 2); MIncr]
          (AffineRank2RowMajor.ctor
             row_strip (AffineRank2RowMajor.Params_ctor row_strip (500, 3))
             4096 (make_MatrixCoord 64 130) 5 (make_MatrixCoord 0 0)))
     = 4096 + 4 * (0 * 500 + (7 + 3 * 32 + 2 * 128) * 3).
Proof.
  assert (4096
          + 4 * AffineRank2_offset
                  (500, 3)
                  (row_major_coord
                     (affine_current_coord
                        (AffineRank2RowMajor.Underlying row_strip)
                        (List.map
                           (canonical_op swap_axes)
                           [MIncr; MAddTileOffset (make_MatrixCoord 0 1);
                            MIncr; MAddTileOffset (make_MatrixCoord 0 2);
                            MIncr])
                        (AffineRank2RowMajor.iterator_
                           (fold_left
                              (AffineRank2RowMajor_step row_strip)
                              [MIncr; MAddTileOffset (make_MatrixCoord 0 1);
                               MIncr; MAddTileOffset (make_MatrixCoord 0 2);
                               MIncr]
                              (AffineRank2RowMajor.ctor
                                 row_strip
                                 (AffineRank2RowMajor.Params_ctor
                                    row_strip (500, 3))
                                 4096 (make_MatrixCoord 64 130) 5
                                 (make_MatrixCoord 0 0))))))
          = 4096 + 4 * (0 * 500 + (7 + 3 * 32 + 2 * 128) * 3)) as Hval
    by (vm_compute; reflexivity).
  assert (config_positive (AffineRank2RowMajor.Underlying row_strip))
    as H1 by (repeat split).
  assert (UnderlyingPredicates.kAccessesPerVector
            (AffineRank2RowMajor.Underlying row_strip) = 1
          \/ snd (500, 3) = 1) as H4 by (left; reflexivity).
  refine (conj H1 (conj eq_refl (conj eq_refl (conj H4 _)))).
  exact (eq_trans
           (affine_row_major_addresses
              row_strip 4 (500, 3) 4096 (make_MatrixCoord 64 130) 5
              (make_MatrixCoord 0 0)
              [MIncr; MAddTileOffset (make_MatrixCoord 0 1); MIncr;
               MAddTileOffset (make_MatrixCoord 0 2); MIncr]
              H1 eq_refl eq_refl H4 eq_refl)
           Hval).
Defined.
(** ** Valid accesses stay inside the tensor *)

Lemma traversal_ops_weaken (cfg : Config) (ops : list Op) :
  forallb (fun op => traversal_op op && along_advance_axis cfg op) ops = true ->
  forallb traversal_op ops = true.
Proof.
  intros H. rewrite forallb_forall in H. apply forallb_forall.
  intros op Hin. specialize (H op Hin).
  apply andb_true_iff in H as [H _]. exact H.
Qed.

Lemma tile_shift_other_axis (cfg : Config) (n : Z) :
  other_axis cfg (tile_shift cfg n) = 0.
Proof.
  unfold other_axis, tile_shift. destruct (kAdvanceRank cfg =? 0); reflexivity.
Qed.

(** X19.  A valid, aligned access never leaves the storage of the tensor.
    [valid] guards the coordinate of the first element of an access only,
    while [get] points to [AccessType::kElements] elements; so let the
    contiguous extent and the contiguous coordinate of the current access
    be multiples of [AccessType::kElements].  On the path without gather
    and permutation, for elements of whole bytes, a stride no shorter than
    the contiguous extent and increments that fit, take any traversal by
    [operator++] and by [add_tile_offset] along the advance axis, and let
    the coordinate of the current access be non-negative.  If [valid]
    holds, and, once the first tile is left, the caller keeps the
    coordinate of the advance axis below the extent (the predicates no
    longer guard that axis), then the whole access [get] points to,
    [sizeof(AccessType)] bytes, lies inside the [stride_ * extent.strided]
    elements of the tensor. *)
Theorem valid_access_in_tensor (cfg : Config) (esz : Z) (params : Params)
        (pointer : Z) (extent : PitchLinearCoord) (thread_id : Z)
        (tb : PitchLinearCoord) (indices : Z -> Z) (ops : list Op) :
  config_positive cfg ->
  kAdvanceRank cfg = 0 \/ kAdvanceRank cfg = 1 ->
  byte_sized cfg esz ->
  params_consistent cfg esz params ->
  advance_consistent cfg esz params ->
  Gather cfg = false ->
  Permute cfg = false ->
  0 < esz ->
  0 < AccessType_kElements cfg ->
  (AccessType_kElements cfg | contiguous extent) ->
  contiguous extent <= stride_ params ->
  forallb (fun op => traversal_op op && along_advance_axis cfg op) ops = true ->
  let it :=
    run cfg ops
        (PitchLinear.ctor cfg params pointer extent thread_id tb indices) in
  let coord := current_coord cfg ops it in
  0 <= contiguous coord ->
  0 <= strided coord ->
  (AccessType_kElements cfg | contiguous coord) ->
  (existsb is_add_tile_offset ops = true ->
   advance_axis cfg coord < advance_axis cfg extent) ->
  PitchLinear.valid cfg it = true ->
  exists address,
    PitchLinear.get cfg it = Some address
    /\ pointer <= address
    /\ address + sizeof_AccessType cfg
       <= pointer + esz * (stride_ params * strided extent).
Proof.
  intros Hpos Hrank Hbytes Hparams Hadv Hg Hp Hesz Hk Hext Hld Hops it coord
         Hc0 Hs0 Halign Hcaller Hvalid.
  pose proof (traversal_get cfg esz params pointer extent thread_id tb indices
                            Hpos Hrank Hbytes Hparams Hadv ops Hops) as Hget.
  cbv zeta in Hget. fold it in Hget. fold coord in Hget.
  assert (PitchLinear.fast_path cfg = true) as Hf
    by (unfold PitchLinear.fast_path; rewrite Hg, Hp; reflexivity).
  rewrite Hf in Hget. cbn [orb] in Hget.
  unfold tensor_address, tensor_offset in Hget. rewrite Hg, Hp in Hget.
  destruct Hbytes as (_ & Hoff & Hacc). rewrite Hoff in Hget.
  unfold PitchLinear_offset in Hget. cbn [contiguous strided] in Hget.
  assert (contiguous coord < contiguous extent
          /\ strided coord < strided extent) as [Hc1 Hs1].
  { pose proof (traversal_valid cfg params pointer extent thread_id tb indices
                                Hpos ops (traversal_ops_weaken cfg ops Hops))
      as [_ Hv].
    fold it in Hv. unfold coord, current_coord in Hcaller |- *.
    fold it in Hcaller |- *.
    destruct (existsb is_add_tile_offset ops).
    - specialize (Hcaller eq_refl).
      destruct Hv as (_ & _ & Hv). rewrite Hvalid in Hv. symmetry in Hv.
      unfold steady_tile_check in Hv.
      pose proof (tile_shift_other_axis cfg (tiles_jumped cfg ops - 1)) as Ho.
      unfold other_axis in Ho. unfold advance_axis in Hcaller.
      cbn [coord_add contiguous strided] in *.
      destruct (kAdvanceRank cfg =? 0); apply Z.ltb_lt in Hv; lia.
    - destruct Hv as (_ & _ & Hv). rewrite Hvalid in Hv. symmetry in Hv.
      apply (first_tile_check_in_extent cfg extent tb). exact Hv. }
  assert (contiguous coord + AccessType_kElements cfg <= contiguous extent)
    as Hwide.
  { destruct Hext as [b Hb]. destruct Halign as [a Ha].
    rewrite Ha, Hb in *.
    assert (a < b) by nia. nia. }
  assert (0 <= strided coord * stride_ params) as Hlow
    by (apply Z.mul_nonneg_nonneg; lia).
  assert ((strided coord + 1) * stride_ params
          <= strided extent * stride_ params) as Hhigh
    by (apply Z.mul_le_mono_nonneg_r; lia).
  eexists. split; [exact Hget|]. split.
  - assert (0 <= esz * (contiguous coord + strided coord * stride_ params))
      by (apply Z.mul_nonneg_nonneg; lia).
    lia.
  - rewrite Hacc.
    assert (esz * (contiguous coord + strided coord * stride_ params
                   + AccessType_kElements cfg)
            <= esz * (stride_ params * strided extent))
      by (apply Z.mul_le_mono_nonneg_l; lia).
    lia.
Qed.

Lemma valid_access_in_tensor_witness :
  config_positive vector_cfg
  /\ (kAdvanceRank vector_cfg = 0 \/ kAdvanceRank vector_cfg = 1)
  /\ byte_sized vector_cfg 4
  /\ params_consistent vector_cfg 4 vector_params
  /\ advance_consistent vector_cfg 4 vector_params
  /\ Gather vector_cfg = false
  /\ Permute vector_cfg = false
  /\ 0 < 4
  /\ 0 < AccessType_kElements vector_cfg
  /\ (AccessType_kElements vector_cfg | contiguous vector_extent)
  /\ contiguous vector_extent <= stride_ vector_params
  /\ current_coord
       vector_cfg [OpAddTileOffset (make_Coord 1 0); OpIncr]
       (run vector_cfg [OpAddTileOffset (make_Coord 1 0); OpIncr]
            (PitchLinear.ctor vector_cfg vector_params 4096 vector_extent 1
                              origin null_indices))
     = make_Coord 12 16
  /\ PitchLinear.valid
       vector_cfg
       (run vector_cfg [OpAddTileOffset (make_Coord 1 0); OpIncr]
            (PitchLinear.ctor vector_cfg vector_params 4096 vector_extent 1
                              origin null_indices)) = true
  /\ exists address,
       PitchLinear.get
         vector_cfg
         (run vector_cfg [OpAddTileOffset (make_Coord 1 0); OpIncr]
              (PitchLinear.ctor vector_cfg vector_params 4096 vector_extent 1
                                origin null_indices)) = Some address
       /\ 4096 <= address
       /\ address + sizeof_AccessType vector_cfg
          <= 4096 + 4 * (stride_ vector_params * strided vector_extent).
Proof.
  assert (config_positive vector_cfg) as H1 by (repeat split).
  assert (kAdvanceRank vector_cfg = 0 \/ kAdvanceRank vector_cfg = 1) as H2
    by (left; reflexivity).
  assert (byte_sized vector_cfg 4) as H3 by (repeat split).
  assert (params_consistent vector_cfg 4 vector_params) as H4
    by (repeat split).
  assert (advance_consistent vector_cfg 4 vector_params) as H5 by reflexivity.
  assert (0 < 4) as H6 by lia.
  assert (0 < AccessType_kElements vector_cfg) as H7 by reflexivity.
  assert (AccessType_kElements vector_cfg | contiguous vector_extent) as H8
    by (exists 34; reflexivity).
  assert (contiguous vector_extent <= stride_ vector_params) as H9
    by (vm_compute; discriminate).
  assert (current_coord
            vector_cfg [OpAddTileOffset (make_Coord 1 0); OpIncr]
            (run vector_cfg [OpAddTileOffset (make_Coord 1 0); OpIncr]
                 (PitchLinear.ctor vector_cfg vector_params 4096 vector_extent
                                   1 origin null_indices))
          = make_Coord 12 16) as H10 by (vm_compute; reflexivity).
  assert (PitchLinear.valid
            vector_cfg
            (run vector_cfg [OpAddTileOffset (make_Coord 1 0); OpIncr]
                 (PitchLinear.ctor vector_cfg vector_params 4096 vector_extent
                                   1 origin null_indices)) = true) as H11
    by (vm_compute; reflexivity).
  refine (conj H1 (conj H2 (conj H3 (conj H4 (conj H5 (conj eq_refl
            (conj eq_refl (conj H6 (conj H7 (conj H8 (conj H9 (conj H10
            (conj H11 _))))))))))))).
  apply (valid_access_in_tensor
           vector_cfg 4 vector_params 4096 vector_extent 1 origin null_indices
           [OpAddTileOffset (make_Coord 1 0); OpIncr]
           H1 H2 H3 H4 H5 eq_refl eq_refl H6 H7 H8 H9 eq_refl).
  - rewrite H10. vm_compute; discriminate.
  - rewrite H10. vm_compute; discriminate.
  - rewrite H10. exists 3; reflexivity.
  - intros _. rewrite H10. vm_compute. reflexivity.
  - exact H11.
Defined.
(** ** Column-major against row-major *)

Lemma transposed_underlying (mc : MatrixConfig) :
  RowMajor.Underlying (transpose_config mc) = ColumnMajor.Underlying mc.
Proof.
  unfold RowMajor.Underlying, ColumnMajor.Underlying, transpose_config.
  cbn [Shape_kRow Shape_kColumn m_kAdvanceRank m_ThreadMap
       m_AccessType_kElements m_sizeof_bits_Element m_sizeof_AccessType
       m_OffsetBytes m_Gather m_Permute m_permute_layout].
  destruct (m_kAdvanceRank mc =? 0); reflexivity.
Qed.

Lemma transposed_affine_underlying (mc : MatrixConfig) :
  AffineRank2RowMajor.Underlying (transpose_config mc)
  = AffineRank2ColumnMajor.Underlying mc.
Proof.
  unfold AffineRank2RowMajor.Underlying, AffineRank2ColumnMajor.Underlying,
    transpose_config.
  cbn [Shape_kRow Shape_kColumn m_kAdvanceRank m_ThreadMap
       m_AccessType_kElements m_sizeof_bits_Element m_sizeof_AccessType
       m_OffsetBytes m_Gather m_Permute m_permute_layout].
  destruct (m_kAdvanceRank mc =? 0); reflexivity.
Qed.

Lemma transposed_ops (ops : list MatrixOp) :
  List.map (canonical_op swap_axes) (List.map transpose_op ops)
  = List.map (canonical_op keep_axes) ops.
Proof.
  rewrite List.map_map. apply List.map_ext. intros op.
  destruct op; reflexivity.
Qed.

(** X20.  A column-major iterator is the row-major iterator of the
    transposed problem.  Take the tile, the advance rank, the extent, the
    threadblock offset and every tile offset with row and column exchanged:
    after any sequence of calls, [get], [valid] and [get_mask] of the
    row-major iterator on the transposed problem return what those of the
    column-major iterator return on the original one.  The affine
    column-major and row-major iterators are related in the same way, with
    the two strides given to [Params] exchanged as well. *)
Theorem column_major_is_transposed_row_major (mc : MatrixConfig)
        (params : Params) (stride : Z * Z) (pointer : Z)
        (extent : MatrixCoord) (thread_id : Z) (tb : MatrixCoord)
        (indices : Z -> Z) (ops : list MatrixOp) (mask0 : list Z) :
  (let a :=
     fold_left (ColumnMajor_step mc) ops
               (ColumnMajor.ctor mc params pointer extent thread_id tb
                                 indices) in
   let b :=
     fold_left (RowMajor_step (transpose_config mc))
               (List.map transpose_op ops)
               (RowMajor.ctor (transpose_config mc) params pointer
                              (transpose_coord extent) thread_id
                              (transpose_coord tb) indices) in
   (RowMajor.get (transpose_config mc) b,
    RowMajor.valid (transpose_config mc) b,
    RowMajor.get_mask (transpose_config mc) mask0 b)
   = (ColumnMajor.get mc a, ColumnMajor.valid mc a,
      ColumnMajor.get_mask mc mask0 a))
  /\ (let a :=
        fold_left (AffineRank2ColumnMajor_step mc) ops
                  (AffineRank2ColumnMajor.ctor
                     mc (AffineRank2ColumnMajor.Params_ctor mc stride)
                     pointer extent thread_id tb) in
      let b :=
        fold_left (AffineRank2RowMajor_step (transpose_config mc))
                  (List.map transpose_op ops)
                  (AffineRank2RowMajor.ctor
                     (transpose_config mc)
                     (AffineRank2RowMajor.Params_ctor
                        (transpose_config mc) (transpose_stride stride))
                     pointer (transpose_coord extent) thread_id
                     (transpose_coord tb)) in
      (AffineRank2RowMajor.get (transpose_config mc) b,
       AffineRank2RowMajor.valid (transpose_config mc) b,
       AffineRank2RowMajor.get_mask (transpose_config mc) mask0 b)
      = (AffineRank2ColumnMajor.get mc a, AffineRank2ColumnMajor.valid mc a,
         AffineRank2ColumnMajor.get_mask mc mask0 a)).
Proof.
  split; cbv zeta.
  - unfold RowMajor.get, RowMajor.valid, RowMajor.get_mask, ColumnMajor.get,
      ColumnMajor.valid, ColumnMajor.get_mask.
    rewrite RowMajor_run, ColumnMajor_run, transposed_ops.
    unfold RowMajor.ctor, ColumnMajor.ctor.
    cbn [RowMajor.iterator_ ColumnMajor.iterator_ transpose_coord row column].
    rewrite transposed_underlying. reflexivity.
  - unfold AffineRank2RowMajor.get, AffineRank2RowMajor.valid,
      AffineRank2RowMajor.get_mask, AffineRank2ColumnMajor.get,
      AffineRank2ColumnMajor.valid, AffineRank2ColumnMajor.get_mask.
    rewrite AffineRank2RowMajor_run, AffineRank2ColumnMajor_run, transposed_ops.
    unfold AffineRank2RowMajor.ctor, AffineRank2ColumnMajor.ctor,
      AffineRank2RowMajor.Params_ctor, AffineRank2ColumnMajor.Params_ctor,
      transpose_stride.
    cbn [AffineRank2RowMajor.iterator_ AffineRank2ColumnMajor.iterator_
         transpose_coord row column fst snd].
    rewrite transposed_affine_underlying. reflexivity.
Qed.
(** ** Construction and uninitialised members *)

(** X21.  Construction does not depend on what the uninitialised members
    hold.  The constructor of the predicate state stores the extent and
    leaves the predicate words, the two offsets and the cursor
    uninitialised; [set_predicates], which every iterator constructor
    calls next, overwrites all of them before anything reads them.  So from
    any state with the extent set, [set_predicates] gives the state it
    gives from the zero-filled one. *)
Theorem construction_ignores_uninitialised (cfg : Config) (thread_id : Z)
        (tb : PitchLinearCoord) (p0 : Predicates) :
  config_positive cfg ->
  mask_sized cfg (predicates_ p0) ->
  compute_predicates_calls p0 = 0%nat ->
  UnderlyingPredicates.set_predicates cfg thread_id tb p0
  = UnderlyingPredicates.set_predicates
      cfg thread_id tb
      (UnderlyingPredicates.Predicates_ctor cfg (extent_ p0)).
Proof.
  intros Hpos Hw Hn.
  destruct p0 as [w e th ro iv ic isd n].
  cbn [predicates_ compute_predicates_calls extent_] in *. subst n.
  unfold UnderlyingPredicates.set_predicates.
  cbn [extent_ UnderlyingPredicates.Predicates_ctor with_residue_offset
       with_thread_offset predicates_ thread_offset_ residue_offset_
       iteration_vector_ iteration_contiguous_ iteration_strided_
       compute_predicates_calls].
  set (re := UnderlyingPredicates.residue_extent_of cfg e tb).
  set (first := coord_add tb (initial_offset (ThreadMap cfg) thread_id)).
  set (ro' := UnderlyingPredicates.residue_offset_of cfg e tb).
  set (q := {| predicates_ :=
                 replicate
                   (Z.to_nat (UnderlyingPredicates.kPredicateWordCount cfg)) 0;
               extent_ := e;
               thread_offset_ := first;
               residue_offset_ := ro';
               iteration_vector_ := iv;
               iteration_contiguous_ := ic;
               iteration_strided_ := isd;
               compute_predicates_calls := 0 |}).
  change (with_thread_offset
            first
            (with_residue_offset
               ro'
               {| predicates_ := w;
                  extent_ := e;
                  thread_offset_ := th;
                  residue_offset_ := ro;
                  iteration_vector_ := iv;
                  iteration_contiguous_ := ic;
                  iteration_strided_ := isd;
                  compute_predicates_calls := 0 |}))
    with (with_predicates w q).
  rewrite compute_predicates_forgets.
  - reflexivity.
  - apply (Predicates_ctor_sized cfg e Hpos).
  - exact Hw.
Qed.

Lemma construction_ignores_uninitialised_witness :
  config_positive strip_cfg
  /\ mask_sized strip_cfg [3735928559]
  /\ UnderlyingPredicates.set_predicates
       strip_cfg 5 origin
       {| predicates_ := [3735928559];
          extent_ := strip_extent;
          thread_offset_ := make_Coord 77 (-3);
          residue_offset_ := make_Coord 9 9;
          iteration_vector_ := 7;
          iteration_contiguous_ := -1;
          iteration_strided_ := 40;
          compute_predicates_calls := 0 |}
     = the_predicates strip_it.
Proof.
  assert (config_positive strip_cfg) as H1 by (repeat split).
  assert (mask_sized strip_cfg [3735928559]) as H2 by reflexivity.
  refine (conj H1 (conj H2 _)).
  exact (construction_ignores_uninitialised
           strip_cfg 5 origin
           {| predicates_ := [3735928559];
              extent_ := strip_extent;
              thread_offset_ := make_Coord 77 (-3);
              residue_offset_ := make_Coord 9 9;
              iteration_vector_ := 7;
              iteration_contiguous_ := -1;
              iteration_strided_ := 40;
              compute_predicates_calls := 0 |}
           H1 H2 eq_refl).
Defined.
